(** * Verification of the ODrive cascaded controller (Firmware/MotorControl/controller.cpp)

    The controller computes in IEEE 754 single precision ([float] on the
    Cortex-M4 target).  Floats are modelled with the Standard Library's
    executable specification [SpecFloat] instantiated at binary32
    (precision 24, maximal exponent 128); integers ([int32_t], [uint32_t],
    [size_t]) are modelled in [Z] with their ranges and wrap-around written
    out.  C undefined behaviour (an out-of-range float to integer
    conversion, [%] by zero, an out-of-bounds array access) is an explicit
    outcome of the model. *)

From Stdlib Require Import ZArith List Bool Lia SpecFloat.
Import ListNotations.
Open Scope Z_scope.

(** ** IEEE 754 binary32 *)

Module F32.

Definition prec : Z := 24.
Definition emax : Z := 128.

Definition float := spec_float.

Definition add : float -> float -> float := SFadd prec emax.
Definition sub : float -> float -> float := SFsub prec emax.
Definition mul : float -> float -> float := SFmul prec emax.
Definition div : float -> float -> float := SFdiv prec emax.
Definition opp : float -> float := SFopp.
Definition fabsf : float -> float := SFabs.

Definition ltb : float -> float -> bool := SFltb.
Definition leb : float -> float -> bool := SFleb.
Definition gtb (x y : float) : bool := SFltb y x.
Definition geb (x y : float) : bool := SFleb y x.
Definition eqb : float -> float -> bool := SFeqb.

Definition valid : float -> bool := valid_binary prec emax.

Definition is_nan (x : float) : bool :=
    match x with S754_nan => true | _ => false end.

Definition is_finite (x : float) : bool :=
    match x with S754_zero _ | S754_finite _ _ _ => true | _ => false end.

  (** Conversion of an integer to [float] (round to nearest, ties to even). *)
Definition of_Z (z : Z) : float := binary_normalize prec emax z 0 false.

  (** The literals of the source. *)
Definition zero : float := S754_zero false.
Definition one : float := S754_finite false 8388608 (-23).
Definition half : float := S754_finite false 8388608 (-24).
Definition two : float := S754_finite false 8388608 (-22).
  (** [0.99f] and [0.001f]: the binary32 numbers nearest to 99/100 and 1/1000. *)
Definition lit_0_99 : float := S754_finite false 16609444 (-24).
Definition lit_0_001 : float := S754_finite false 8589935 (-33).

  (** Integral part of a float, truncated toward zero; [None] for NaN and
      the infinities. *)
Definition trunc (x : float) : option Z :=
    match x with
    | S754_zero _ => Some 0
    | S754_finite s m e =>
        Some (cond_Zopp s (match e with
                           | Zneg p => Z.shiftr (Zpos m) (Zpos p)
                           | _ => Z.shiftl (Zpos m) e
                           end))
    | _ => None
    end.

  (** [copysignf x y]: magnitude of [x], sign of [y] (a NaN [y] carries no
      sign in this model and leaves [x] positive). *)
Definition sign_bit (y : float) : bool :=
    match y with
    | S754_zero s | S754_infinity s | S754_finite s _ _ => s
    | S754_nan => false
    end.

Definition copysignf (x y : float) : float :=
    if sign_bit y then SFopp (SFabs x) else SFabs x.

  (** [fmodf x y] of the C library: [x - n*y] for the integer [n] obtained
      by truncating [x/y]; the result is exact and has the sign of [x]. *)
Definition fmodf (x y : float) : float :=
    match x, y with
    | S754_nan, _ | _, S754_nan => S754_nan
    | S754_infinity _, _ => S754_nan
    | _, S754_zero _ => S754_nan
    | _, S754_infinity _ => x
    | S754_zero _, _ => x
    | S754_finite sx mx ex, S754_finite _ my ey =>
        let ez := Z.min ex ey in
        let X := Zpos (fst (shl_align mx ex ez)) in
        let Y := Zpos (fst (shl_align my ey ez)) in
        binary_normalize prec emax (cond_Zopp sx (Z.rem X Y)) ez sx
    end.

End F32.

Declare Scope f32_scope.
Delimit Scope f32_scope with f32.
Infix "+" := F32.add : f32_scope.
Infix "-" := F32.sub : f32_scope.
Infix "*" := F32.mul : f32_scope.
Infix "/" := F32.div : f32_scope.
Notation "- x" := (F32.opp x) : f32_scope.
Infix "<?" := F32.ltb : f32_scope.
Infix "<=?" := F32.leb : f32_scope.
Infix ">?" := F32.gtb : f32_scope.
Infix ">=?" := F32.geb : f32_scope.

Abbreviation float := F32.float.

(** ** Values of floats

    A valid binary32 number has its exponent at least -149, and the exact
    sum, difference, remainder or product of two of them is an integer
    multiple of [2 ^ ebase].  [sval] is the value of a float in that unit,
    with the infinities placed just beyond the finite numbers. *)

Definition ebase : Z := -298.
Definition sval_inf : Z := 2 ^ 426.

Definition sval (x : float) : Z :=
  match x with
  | S754_zero _ => 0
  | S754_infinity s => cond_Zopp s sval_inf
  | S754_nan => 0
  | S754_finite s m e => cond_Zopp s (Zpos m * 2 ^ (e - ebase))
  end.

Definition aval (x : float) : Z := Z.abs (sval x).

(** A valid float that is a number, and one that is moreover finite. *)
Definition wf (x : float) : bool := F32.valid x && negb (F32.is_nan x).
Definition fin (x : float) : bool := F32.valid x && F32.is_finite x.

(** What [shr_1] keeps track of when [m] is shifted right by [k] bits. *)
Definition shr_inv (m : Z) (k : Z) (r : shr_record) : Prop :=
  0 <= shr_m r /\
  exists rem, m = shr_m r * 2 ^ k + rem /\ 0 <= rem < 2 ^ k /\
              (orb (shr_r r) (shr_s r) = true <-> 0 < rem) /\
              (shr_r r = true -> 2 ^ k <= 2 * rem).

(** The same for a quotient [N / D] that is shifted right by [k] bits,
    starting from its integer part and the location of its remainder. *)
Definition shr_den (D N k : Z) (r : shr_record) : Prop :=
  0 <= shr_m r /\
  exists rem, N = shr_m r * (2 ^ k * D) + rem /\ 0 <= rem < 2 ^ k * D /\
              (orb (shr_r r) (shr_s r) = true <-> 0 < rem) /\
              (shr_r r = true -> 2 ^ k * D <= 2 * rem).

(** The float that rounding builds from a mantissa [m1] at exponent [T]. *)
Definition rounded (s : bool) (m1 T : Z) : float :=
  if m1 =? 0 then S754_zero s
  else if m1 =? 2 ^ 24 then
    (if T + 1 <=? 104 then S754_finite s 8388608 (T + 1) else S754_infinity s)
  else if T <=? 104 then S754_finite s (Z.to_pos m1) T else S754_infinity s.

(** The value of the largest finite float, [(2 ^ 24 - 1) * 2 ^ 104]. *)
Definition max_sval : Z := (2 ^ 24 - 1) * 2 ^ 402.

Local Open Scope f32_scope.

(** ** Numeric utilities

    [clamp_bidirf], [fmodf_pos] and [wrap_pm] are called by the controller
    but declared in a header that is not part of the sources at hand. *)

(** Modelled from the spec: [clamp_bidirf] (utility header absent), the
    "symmetric clamp" of a value to [±limit], written like the current
    limiter of [update]. *)
Definition clamp_bidirf (x limit : float) : float :=
  let x := if x >? limit then limit else x in
  if x <? - limit then - limit else x.

(** Modelled from the spec: [fmodf_pos] (utility header absent), the
    "periodic modulo" that normalises [x] modulo [y] into [[0, y)]: the C
    remainder, moved up by one period when negative. *)
Definition fmodf_pos (x y : float) : float :=
  let out := F32.fmodf x y in
  if out <? F32.zero then out + y else out.

(** Modelled from the spec: [wrap_pm] (utility header absent), which wraps
    [x] into [[-pm_range, pm_range)]. *)
Definition wrap_pm (x pm_range : float) : float :=
  fmodf_pos (x + pm_range) (F32.two * pm_range) - pm_range.

(** ** Data model *)

(** Modelled from the spec: the control-mode enumeration (header absent),
    "ordered enum {CURRENT, VELOCITY, POSITION, TRAJECTORY}". *)
Inductive Control_mode_t :=
| CTRL_MODE_CURRENT_CONTROL
| CTRL_MODE_VELOCITY_CONTROL
| CTRL_MODE_POSITION_CONTROL
| CTRL_MODE_TRAJECTORY_CONTROL.

Definition mode_rank (m : Control_mode_t) : Z :=
  match m with
  | CTRL_MODE_CURRENT_CONTROL => 1
  | CTRL_MODE_VELOCITY_CONTROL => 2
  | CTRL_MODE_POSITION_CONTROL => 3
  | CTRL_MODE_TRAJECTORY_CONTROL => 4
  end.

Definition mode_eqb (m1 m2 : Control_mode_t) : bool := (mode_rank m1 =? mode_rank m2)%Z.
Definition mode_geb (m1 m2 : Control_mode_t) : bool := (mode_rank m1 >=? mode_rank m2)%Z.
Definition mode_ltb (m1 m2 : Control_mode_t) : bool := (mode_rank m1 <? mode_rank m2)%Z.

(** Modelled from the spec: the motor-type tag (header absent),
    "{permanent-magnet, induction}". *)
Inductive Motor_type_t := MOTOR_TYPE_PERMANENT_MAGNET | MOTOR_TYPE_ACIM.

Definition is_acim (t : Motor_type_t) : bool :=
  match t with MOTOR_TYPE_ACIM => true | _ => false end.

(** [Controller::Config_t]: the fields [update] reads and writes. *)
Record Config_t := mkConfig {
  control_mode : Control_mode_t;
  pos_gain : float;
  vel_gain : float;
  vel_integrator_gain : float;
  vel_limit : float;
  vel_limit_tolerance : float;
  vel_ramp_enable : bool;
  vel_ramp_rate : float;
  setpoints_in_cpr : bool;
  cogmap : list float;
  cogmap_size : Z;                 (* size_t *)
  cogmap_integrator_gain : float;
  cogmap_max_current : float
}.

(** The members of [Controller]. *)
Record Controller := mkController {
  config_ : Config_t;
  error_ : Z;                      (* bit set *)
  pos_setpoint_ : float;
  vel_setpoint_ : float;
  vel_integrator_current_ : float;
  current_setpoint_ : float;
  vel_ramp_target_ : float;
  goal_point_ : float;
  traj_start_loop_count_ : Z;      (* uint32_t *)
  cogmap_current_ : float;
  cogmap_correction_pwr_ : float
}.

(** [TrapezoidalTrajectory::Step_t]. *)
Record Step_t := mkStep { Y : float; Yd : float; Ydd : float }.

(** What [update] reaches through [axis_]: the owning axis with its
    trajectory planner, encoder and motor. *)
Record Axis := mkAxis {
  axis_error_ : Z;                 (* Axis::error_, bit set *)
  loop_counter_ : Z;               (* uint32_t *)
  trap_Tf_ : float;
  trap_eval : float -> Step_t;     (* trap_.eval *)
  trap_A_per_css : float;
  encoder_cpr : Z;                 (* encoder_.config_.cpr, int32_t *)
  encoder_pos_cpr_ : float;
  encoder_count_in_cpr_ : Z;       (* int32_t *)
  motor_type : Motor_type_t;
  acim_rotor_flux : float;
  acim_gain_min_flux : float;
  effective_current_lim : float    (* value of motor_.effective_current_lim() *)
}.

(** Field updates. *)
Definition set_control_mode (m : Control_mode_t) (k : Config_t) : Config_t :=
  mkConfig m (pos_gain k) (vel_gain k) (vel_integrator_gain k) (vel_limit k)
    (vel_limit_tolerance k) (vel_ramp_enable k) (vel_ramp_rate k)
    (setpoints_in_cpr k) (cogmap k) (cogmap_size k) (cogmap_integrator_gain k)
    (cogmap_max_current k).

Definition set_cogmap (l : list float) (k : Config_t) : Config_t :=
  mkConfig (control_mode k) (pos_gain k) (vel_gain k) (vel_integrator_gain k)
    (vel_limit k) (vel_limit_tolerance k) (vel_ramp_enable k) (vel_ramp_rate k)
    (setpoints_in_cpr k) l (cogmap_size k) (cogmap_integrator_gain k)
    (cogmap_max_current k).

Definition with_config (k : Config_t) (c : Controller) : Controller :=
  mkController k (error_ c) (pos_setpoint_ c) (vel_setpoint_ c)
    (vel_integrator_current_ c) (current_setpoint_ c) (vel_ramp_target_ c)
    (goal_point_ c) (traj_start_loop_count_ c) (cogmap_current_ c)
    (cogmap_correction_pwr_ c).

Definition with_error (e : Z) (c : Controller) : Controller :=
  mkController (config_ c) e (pos_setpoint_ c) (vel_setpoint_ c)
    (vel_integrator_current_ c) (current_setpoint_ c) (vel_ramp_target_ c)
    (goal_point_ c) (traj_start_loop_count_ c) (cogmap_current_ c)
    (cogmap_correction_pwr_ c).

Definition with_pos_setpoint (x : float) (c : Controller) : Controller :=
  mkController (config_ c) (error_ c) x (vel_setpoint_ c)
    (vel_integrator_current_ c) (current_setpoint_ c) (vel_ramp_target_ c)
    (goal_point_ c) (traj_start_loop_count_ c) (cogmap_current_ c)
    (cogmap_correction_pwr_ c).

Definition with_vel_setpoint (x : float) (c : Controller) : Controller :=
  mkController (config_ c) (error_ c) (pos_setpoint_ c) x
    (vel_integrator_current_ c) (current_setpoint_ c) (vel_ramp_target_ c)
    (goal_point_ c) (traj_start_loop_count_ c) (cogmap_current_ c)
    (cogmap_correction_pwr_ c).

Definition with_vel_integrator_current (x : float) (c : Controller) : Controller :=
  mkController (config_ c) (error_ c) (pos_setpoint_ c) (vel_setpoint_ c)
    x (current_setpoint_ c) (vel_ramp_target_ c)
    (goal_point_ c) (traj_start_loop_count_ c) (cogmap_current_ c)
    (cogmap_correction_pwr_ c).

Definition with_current_setpoint (x : float) (c : Controller) : Controller :=
  mkController (config_ c) (error_ c) (pos_setpoint_ c) (vel_setpoint_ c)
    (vel_integrator_current_ c) x (vel_ramp_target_ c)
    (goal_point_ c) (traj_start_loop_count_ c) (cogmap_current_ c)
    (cogmap_correction_pwr_ c).

Definition with_cogmap_current (x : float) (c : Controller) : Controller :=
  mkController (config_ c) (error_ c) (pos_setpoint_ c) (vel_setpoint_ c)
    (vel_integrator_current_ c) (current_setpoint_ c) (vel_ramp_target_ c)
    (goal_point_ c) (traj_start_loop_count_ c) x
    (cogmap_correction_pwr_ c).

Definition with_cogmap_correction_pwr (x : float) (c : Controller) : Controller :=
  mkController (config_ c) (error_ c) (pos_setpoint_ c) (vel_setpoint_ c)
    (vel_integrator_current_ c) (current_setpoint_ c) (vel_ramp_target_ c)
    (goal_point_ c) (traj_start_loop_count_ c) (cogmap_current_ c) x.

Definition with_axis_error (e : Z) (a : Axis) : Axis :=
  mkAxis e (loop_counter_ a) (trap_Tf_ a) (trap_eval a) (trap_A_per_css a)
    (encoder_cpr a) (encoder_pos_cpr_ a) (encoder_count_in_cpr_ a)
    (motor_type a) (acim_rotor_flux a) (acim_gain_min_flux a)
    (effective_current_lim a).

Definition with_goal_point (x : float) (c : Controller) : Controller :=
  mkController (config_ c) (error_ c) (pos_setpoint_ c) (vel_setpoint_ c)
    (vel_integrator_current_ c) (current_setpoint_ c) (vel_ramp_target_ c)
    x (traj_start_loop_count_ c) (cogmap_current_ c)
    (cogmap_correction_pwr_ c).

Definition with_traj_start_loop_count (n : Z) (c : Controller) : Controller :=
  mkController (config_ c) (error_ c) (pos_setpoint_ c) (vel_setpoint_ c)
    (vel_integrator_current_ c) (current_setpoint_ c) (vel_ramp_target_ c)
    (goal_point_ c) n (cogmap_current_ c)
    (cogmap_correction_pwr_ c).

(** Array cells: [arr_get] is [None] and [arr_set] leaves the list alone
    outside the array, where the C access is undefined. *)
Definition arr_get (l : list float) (i : Z) : option float :=
  if (i <? 0)%Z then None else nth_error l (Z.to_nat i).

Fixpoint list_set (l : list float) (n : nat) (v : float) : list float :=
  match l, n with
  | [], _ => []
  | _ :: t, O => v :: t
  | h :: t, S n' => h :: list_set t n' v
  end.

Definition arr_set (l : list float) (i : Z) (v : float) : list float :=
  if (i <? 0)%Z then l else list_set l (Z.to_nat i) v.

(** What a call of [update] does: it runs into undefined behaviour, or it
    returns [ok] and leaves the controller, the axis and possibly a value
    written through [current_setpoint_output]. *)
Inductive Outcome :=
| Undefined
| Returned (ok : bool) (c : Controller) (a : Axis) (written : option float).

Definition uint32_mod : Z := 2 ^ 32.
Definition size_t_mod : Z := 2 ^ 32.

(** ** Command handling *)

Definition reset (c : Controller) : Controller :=
  with_current_setpoint F32.zero
    (with_vel_integrator_current F32.zero
       (with_vel_setpoint F32.zero (with_pos_setpoint F32.zero c))).

Definition set_pos_setpoint (pos_setpoint vel_feed_forward current_feed_forward : float)
    (c : Controller) : Controller :=
  let c := with_pos_setpoint pos_setpoint c in
  let c := with_vel_setpoint vel_feed_forward c in
  let c := with_current_setpoint current_feed_forward c in
  with_config (set_control_mode CTRL_MODE_POSITION_CONTROL (config_ c)) c.

Definition set_vel_setpoint (vel_setpoint current_feed_forward : float)
    (c : Controller) : Controller :=
  let c := with_vel_setpoint vel_setpoint c in
  let c := with_current_setpoint current_feed_forward c in
  with_config (set_control_mode CTRL_MODE_VELOCITY_CONTROL (config_ c)) c.

Definition set_current_setpoint (current_setpoint : float) (c : Controller) : Controller :=
  let c := with_current_setpoint current_setpoint c in
  with_config (set_control_mode CTRL_MODE_CURRENT_CONTROL (config_ c)) c.

(** The trajectory planner is declared in a header that is not part of the
    sources at hand.  [planTrapezoidal goal_point Xi Vi a] stands for the
    axis after [axis_->trap_.planTrapezoidal(goal_point, Xi, Vi, ...)],
    whose three limit arguments are read from the trajectory configuration
    that the axis itself holds. *)
Definition Planner : Type := float -> float -> float -> Axis -> Axis.

Definition move_to_pos (planTrapezoidal : Planner) (goal_point : float)
    (c : Controller) (a : Axis) : Controller * Axis :=
  let a := planTrapezoidal goal_point (pos_setpoint_ c) (vel_setpoint_ c) a in
  let c := with_traj_start_loop_count (loop_counter_ a) c in
  let c := with_config (set_control_mode CTRL_MODE_TRAJECTORY_CONTROL (config_ c)) c in
  (with_goal_point goal_point c, a).

Definition move_incremental (planTrapezoidal : Planner) (displacement : float)
    (from_goal_point : bool) (c : Controller) (a : Axis) : Controller * Axis :=
  if from_goal_point
  then move_to_pos planTrapezoidal (goal_point_ c + displacement) c a
  else move_to_pos planTrapezoidal (pos_setpoint_ c + displacement) c a.

(** ** The control cycle *)

(** Conversion of a float to [size_t]: undefined unless the integral part
    fits the type. *)
Definition to_size_t (x : float) : option Z :=
  match F32.trunc x with
  | Some z => if ((0 <=? z) && (z <? size_t_mod))%Z then Some z else None
  | None => None
  end.

(** Velocity limiting and current limiting: the two [if]s of the source. *)
Definition limit_velocity (vel_lim vel_des : float) : float :=
  let vel_des := if vel_des >? vel_lim then vel_lim else vel_des in
  if vel_des <? - vel_lim then - vel_lim else vel_des.

Definition limit_current (Ilim Iq : float) : bool * float :=
  let '(limited, Iq) := if Iq >? Ilim then (true, Ilim) else (false, Iq) in
  if Iq <? - Ilim then (true, - Ilim) else (limited, Iq).

(** Torque per amp gain scheduling (ACIM). *)
Definition scheduled_gains (a : Axis) (c : Controller) : float * float :=
  let vel_gain := vel_gain (config_ c) in
  let vel_integrator_gain := vel_integrator_gain (config_ c) in
  if is_acim (motor_type a) then
    let effective_flux := acim_rotor_flux a in
    let minflux := acim_gain_min_flux a in
    let effective_flux :=
      if F32.fabsf effective_flux <? minflux
      then F32.copysignf minflux effective_flux
      else effective_flux in
    (vel_gain / effective_flux, vel_integrator_gain / effective_flux)
  else (vel_gain, vel_integrator_gain).

(** The flux that the gains are divided by: the rotor flux, raised in
    magnitude to the configured floor. *)
Definition effective_flux (a : Axis) : float :=
  let effective_flux := acim_rotor_flux a in
  let minflux := acim_gain_min_flux a in
  if F32.fabsf effective_flux <? minflux
  then F32.copysignf minflux effective_flux
  else effective_flux.

(** The position loop: the controller with its normalised position
    setpoint, and the position error. *)
Definition position_error (a : Axis) (c : Controller) (pos_estimate : float)
  : Controller * float :=
  if setpoints_in_cpr (config_ c) then
    let cpr := F32.of_Z (encoder_cpr a) in
    let c := with_pos_setpoint (fmodf_pos (pos_setpoint_ c) cpr) c in
    let pos_err := pos_setpoint_ c - encoder_pos_cpr_ a in
    (c, wrap_pm pos_err (F32.half * cpr))
  else (c, pos_setpoint_ c - pos_estimate).

Definition position_step (a : Axis) (c : Controller) (pos_estimate : float)
  : Controller * float :=
  let vel_des := vel_setpoint_ c in
  if mode_geb (control_mode (config_ c)) CTRL_MODE_POSITION_CONTROL then
    let '(c, pos_err) := position_error a c pos_estimate in
    (c, vel_des + pos_gain (config_ c) * pos_err)
  else (c, vel_des).

(** Anticogging: the fractional table index [idxf], and from it the two
    bracketing indices and the interpolation weight. *)
Definition cogmap_idxf (a : Axis) (c : Controller) : float :=
  let pos_ratio := F32.of_Z (encoder_count_in_cpr_ a) / F32.of_Z (encoder_cpr a) in
  pos_ratio * F32.of_Z (cogmap_size (config_ c)).

Record Cog_index := mkCog { idx : Z; idx1 : Z; frac : float }.

Definition cogmap_index (a : Axis) (c : Controller) : option Cog_index :=
  let idxf := cogmap_idxf a c in
  match to_size_t idxf with
  | None => None
  | Some idx =>
      if (cogmap_size (config_ c) =? 0)%Z then None
      else
        let idx1 := (((idx + 1) mod size_t_mod) mod cogmap_size (config_ c))%Z in
        Some (mkCog idx idx1 (idxf - F32.of_Z idx))
  end.

(** [cogmap[i] op= ...]: undefined outside the array. *)
Definition arr_modify (l : list float) (i : Z) (f : float -> float) : option (list float) :=
  match arr_get l i with
  | Some v => Some (arr_set l i (f v))
  | None => None
  end.

(** Anticogging integral and linear broadcast: the four assignments to
    the map, in the order of the source. *)
Definition cogmap_adapt (m : list float) (k : Cog_index)
    (cogmap_correction max_current : float) : option (list float) :=
  match arr_modify m (idx k) (fun v => v + (F32.one - frac k) * cogmap_correction) with
  | None => None
  | Some m =>
  match arr_modify m (idx1 k) (fun v => v + frac k * cogmap_correction) with
  | None => None
  | Some m =>
  match arr_modify m (idx k) (fun v => clamp_bidirf v max_current) with
  | None => None
  | Some m => arr_modify m (idx1 k) (fun v => clamp_bidirf v max_current)
  end end end.

(** Constants of headers that are not part of the sources at hand: the
    period of the control cycle and the two fault flags. *)
Record Constants := mkConstants {
  current_meas_period_of : float;
  ERROR_OVERSPEED_of : Z;            (* Controller::ERROR_OVERSPEED *)
  ERROR_CONTROLLER_FAILED_of : Z     (* Axis::ERROR_CONTROLLER_FAILED *)
}.

Section Update.

Variable K : Constants.

Let current_meas_period := current_meas_period_of K.
Let ERROR_OVERSPEED := ERROR_OVERSPEED_of K.
Let ERROR_CONTROLLER_FAILED := ERROR_CONTROLLER_FAILED_of K.

Definition set_error (error : Z) (c : Controller) (a : Axis) : Controller * Axis :=
    (with_error (Z.lor (error_ c) error) c,
     with_axis_error (Z.lor (axis_error_ a) ERROR_CONTROLLER_FAILED) a).

  (** Elapsed trajectory time: the [uint32_t] difference of the loop
      counters, converted to float, times the cycle period. *)
Definition traj_time (a : Axis) (c : Controller) : float :=
    F32.of_Z ((loop_counter_ a - traj_start_loop_count_ c) mod uint32_mod)
    * current_meas_period.

Definition trajectory_step (a : Axis) (c : Controller) : Controller :=
    if mode_eqb (control_mode (config_ c)) CTRL_MODE_TRAJECTORY_CONTROL then
      let t := traj_time a c in
      if t >? trap_Tf_ a then
        let c := with_config (set_control_mode CTRL_MODE_POSITION_CONTROL (config_ c)) c in
        let c := with_vel_setpoint F32.zero c in
        with_current_setpoint F32.zero c
      else
        let traj_step := trap_eval a t in
        let c := with_pos_setpoint (Y traj_step) c in
        let c := with_vel_setpoint (Yd traj_step) c in
        with_current_setpoint (Ydd traj_step * trap_A_per_css a) c
    else c.

Definition ramp_step (c : Controller) : Controller :=
    if mode_eqb (control_mode (config_ c)) CTRL_MODE_VELOCITY_CONTROL
       && vel_ramp_enable (config_ c) then
      let max_step_size := current_meas_period * vel_ramp_rate (config_ c) in
      let full_step := vel_ramp_target_ c - vel_setpoint_ c in
      let step := clamp_bidirf full_step max_step_size in
      with_vel_setpoint (vel_setpoint_ c + step) c
    else c.

  (** The setpoint part of the cycle, up to velocity limiting: the
      controller as it stands before the overspeed check, and the limited
      velocity demand [vel_des]. *)
Definition setpoint_stage (a : Axis) (c : Controller) (pos_estimate : float)
    : Controller * float :=
    let c := trajectory_step a c in
    let c := ramp_step c in
    let '(c, vel_des) := position_step a c pos_estimate in
    (c, limit_velocity (vel_limit (config_ c)) vel_des).

Definition overspeed (c : Controller) (vel_estimate : float) : bool :=
    (vel_limit_tolerance (config_ c) >? F32.zero)
    && (F32.fabsf vel_estimate >? vel_limit_tolerance (config_ c) * vel_limit (config_ c)).

  (** Velocity control: proportional feedback on [Iq] and the on-line
      adaptation of the cogging map. *)
Definition velocity_step (c : Controller) (k : Cog_index)
      (vel_gain v_err Iq : float) : option (Controller * float) :=
    if mode_geb (control_mode (config_ c)) CTRL_MODE_VELOCITY_CONTROL then
      let Iq := Iq + vel_gain * v_err in
      let cogmap_corr_rate := cogmap_integrator_gain (config_ c) * v_err in
      let cogmap_correction := cogmap_corr_rate * current_meas_period in
      match cogmap_adapt (cogmap (config_ c)) k cogmap_correction
              (cogmap_max_current (config_ c)) with
      | None => None
      | Some m =>
          let c := with_config (set_cogmap m (config_ c)) c in
          let c := with_cogmap_correction_pwr
                     (cogmap_correction_pwr_ c
                      + F32.lit_0_001 * (cogmap_corr_rate * cogmap_corr_rate
                                         - cogmap_correction_pwr_ c)) c in
          Some (c, Iq)
      end
    else Some (c, Iq).

  (** Velocity integrator (behaviour dependent on limiting). *)
Definition integrator_step (c : Controller) (limited : bool)
      (vel_integrator_gain v_err : float) : Controller :=
    if mode_ltb (control_mode (config_ c)) CTRL_MODE_VELOCITY_CONTROL then
      with_vel_integrator_current F32.zero c
    else if limited then
      with_vel_integrator_current (vel_integrator_current_ c * F32.lit_0_99) c
    else
      with_vel_integrator_current
        (vel_integrator_current_ c
         + (vel_integrator_gain * current_meas_period) * v_err) c.

  (** The current part of the cycle, from gain scheduling to the integral
      action before limiting: the controller, the scheduled integrator
      gain, the velocity error [v_err] and the accumulated [Iq]; [None]
      when the anticogging table access is undefined. *)
Definition current_stage (a : Axis) (c : Controller) (vel_des vel_estimate : float)
    : option (Controller * float * float * float) :=
    let '(vel_gain, vel_integrator_gain) := scheduled_gains a c in
    let Iq := current_setpoint_ c in
    match cogmap_index a c with
    | None => None
    | Some k =>
    match arr_get (cogmap (config_ c)) (idx k), arr_get (cogmap (config_ c)) (idx1 k) with
    | Some m0, Some m1 =>
        let c := with_cogmap_current ((F32.one - frac k) * m0 + frac k * m1) c in
        let Iq := Iq + cogmap_current_ c in
        let v_err := vel_des - vel_estimate in
        match velocity_step c k vel_gain v_err Iq with
        | None => None
        | Some (c, Iq) =>
            Some (c, vel_integrator_gain, v_err, Iq + vel_integrator_current_ c)
        end
    | _, _ => None
    end
    end.

  (** [Controller::update].  [output] tells whether
      [current_setpoint_output] is a non-null pointer; the value written
      through it, if any, is part of the outcome. *)
Definition update (a : Axis) (c : Controller) (pos_estimate vel_estimate : float)
      (output : bool) : Outcome :=
    let '(c, vel_des) := setpoint_stage a c pos_estimate in
    if overspeed c vel_estimate then
      let '(c, a) := set_error ERROR_OVERSPEED c a in
      Returned false c a None
    else
      match current_stage a c vel_des vel_estimate with
      | None => Undefined
      | Some (c, vel_integrator_gain, v_err, Iq) =>
          let '(limited, Iq) := limit_current (effective_current_lim a) Iq in
          let c := integrator_step c limited vel_integrator_gain v_err in
          Returned true c a (if output then Some Iq else None)
      end.

  (** The outcome of the [n+1]-th of successive calls with the same
      estimates, each call starting from what the previous one left. *)
Fixpoint update_nth (n : nat) (a : Axis) (c : Controller)
      (pos_estimate vel_estimate : float) (output : bool) : Outcome :=
    match n with
    | O => update a c pos_estimate vel_estimate output
    | S n =>
        match update a c pos_estimate vel_estimate output with
        | Returned _ c a _ => update_nth n a c pos_estimate vel_estimate output
        | Undefined => Undefined
        end
    end.

  (** Quantities of one cycle that the properties below talk about. *)

  (** The velocity demand: the velocity-limited result of the position loop. *)
Definition vel_demand (a : Axis) (c : Controller) (pos_estimate : float) : float :=
    snd (setpoint_stage a c pos_estimate).

  (** The current feed-forward after setpoint processing. *)
Definition feed_forward (a : Axis) (c : Controller) (pos_estimate : float) : float :=
    current_setpoint_ (fst (setpoint_stage a c pos_estimate)).

  (** The accumulated current before limiting, and whether a clamp of the
      current limiter fires on it. *)
Definition accumulated_current (a : Axis) (c : Controller)
      (pos_estimate vel_estimate : float) : option float :=
    let '(c, vel_des) := setpoint_stage a c pos_estimate in
    match current_stage a c vel_des vel_estimate with
    | Some (_, _, _, Iq) => Some Iq
    | None => None
    end.

Definition clamp_fires (a : Axis) (c : Controller)
      (pos_estimate vel_estimate : float) : option bool :=
    match accumulated_current a c pos_estimate vel_estimate with
    | Some Iq => Some (fst (limit_current (effective_current_lim a) Iq))
    | None => None
    end.

(** The correction that a cycle spreads over the two bracketing entries
    of the cogging map. *)
Definition cogmap_correction (a : Axis) (c : Controller)
    (pos_estimate vel_estimate : float) : float :=
  (cogmap_integrator_gain (config_ c) * (vel_demand a c pos_estimate - vel_estimate))
  * current_meas_period.

End Update.

(** The value interpolated from the cogging map, and whether the table
    accesses of a cycle are defined. *)
Definition interpolated_cogging (a : Axis) (c : Controller) : option float :=
  match cogmap_index a c with
  | None => None
  | Some k =>
      match arr_get (cogmap (config_ c)) (idx k), arr_get (cogmap (config_ c)) (idx1 k) with
      | Some m0, Some m1 => Some ((F32.one - frac k) * m0 + frac k * m1)
      | _, _ => None
      end
  end.

Definition anticogging_defined (a : Axis) (c : Controller) : bool :=
  match interpolated_cogging a c with Some _ => true | None => false end.

(** Two floats that are equal as numbers: identical, or zeros of either sign. *)
Definition same_value (x y : float) : Prop :=
  x = y \/ exists s s', x = S754_zero s /\ y = S754_zero s'.

(** ** Sample controllers

    Concrete constants, controllers and axes on which the properties below
    are exercised: a cycle period of 1/8000 s, an encoder of 8192 counts
    per revolution and a cogging map of four entries. *)

Definition sample_constants : Constants :=
  mkConstants (F32.of_Z 1 / F32.of_Z 8000) 1 512.

Definition sample_config (mode : Control_mode_t) (in_cpr : bool) : Config_t :=
  mkConfig mode (F32.of_Z 20) (F32.of_Z 1) (F32.of_Z 1)
    (F32.of_Z 10) (F32.of_Z 12 / F32.of_Z 10) false (F32.of_Z 10000) in_cpr
    [F32.zero; F32.zero; F32.zero; F32.zero] 4 (F32.of_Z 1) (F32.of_Z 1).

(** A controller in the given mode with the given position setpoint and
    integrator, everything else at rest. *)
Definition sample_controller (mode : Control_mode_t) (in_cpr : bool)
    (pos_setpoint vel_integrator_current : float) : Controller :=
  mkController (sample_config mode in_cpr) 0 pos_setpoint F32.zero
    vel_integrator_current F32.zero F32.zero F32.zero 0 F32.zero F32.zero.

(** An axis whose planner's trajectory lasts half a second and samples to
    position 100, velocity 1, acceleration 2. *)
Definition sample_axis (loop_counter cpr count_in_cpr : Z) (pos_cpr : float) : Axis :=
  mkAxis 0 loop_counter F32.half
    (fun _ => mkStep (F32.of_Z 100) (F32.of_Z 1) (F32.of_Z 2)) (F32.of_Z 3)
    cpr pos_cpr count_in_cpr MOTOR_TYPE_PERMANENT_MAGNET F32.zero F32.zero
    (F32.of_Z 10).

(** The largest finite [float]. *)
Definition FLT_MAX : float := S754_finite false 16777215 104.

(** A velocity-mode controller with the largest finite float as gain,
    feed-forward, first map entry and map bound, no map adaptation, and
    the overspeed check disabled. *)
Definition saturated_controller : Controller :=
  mkController
    (mkConfig CTRL_MODE_VELOCITY_CONTROL (F32.of_Z 20) FLT_MAX (F32.of_Z 1)
       (F32.of_Z 10) F32.zero false (F32.of_Z 10000) false
       [FLT_MAX; F32.zero; F32.zero; F32.zero] 4 F32.zero FLT_MAX)
    0 F32.zero F32.zero F32.zero FLT_MAX F32.zero F32.zero 0 F32.zero F32.zero.

(** A velocity-mode controller at rest whose velocity ramp is enabled, with
    the given ramp target; the ramp allows 1.25 counts/s per cycle. *)
Definition ramp_controller (target : float) : Controller :=
  mkController
    (mkConfig CTRL_MODE_VELOCITY_CONTROL (F32.of_Z 20) (F32.of_Z 1) (F32.of_Z 1)
       (F32.of_Z 10) (F32.of_Z 12 / F32.of_Z 10) true (F32.of_Z 10000) false
       [F32.zero; F32.zero; F32.zero; F32.zero] 4 (F32.of_Z 1) (F32.of_Z 1))
    0 F32.zero F32.zero F32.zero F32.zero target F32.zero 0 F32.zero F32.zero.

(** An induction-motor axis with the given rotor flux and flux floor. *)
Definition acim_axis (flux minflux : float) : Axis :=
  mkAxis 0 0 F32.half
    (fun _ => mkStep (F32.of_Z 100) (F32.of_Z 1) (F32.of_Z 2)) (F32.of_Z 3)
    8192 F32.zero 0 MOTOR_TYPE_ACIM flux minflux (F32.of_Z 10).

(** A planner whose trajectory lasts one second and holds the goal. *)
Definition sample_planner : Planner :=
  fun goal_point _ _ a =>
    mkAxis (axis_error_ a) (loop_counter_ a) F32.one
      (fun _ => mkStep goal_point F32.zero F32.zero) (trap_A_per_css a)
      (encoder_cpr a) (encoder_pos_cpr_ a) (encoder_count_in_cpr_ a)
      (motor_type a) (acim_rotor_flux a) (acim_gain_min_flux a)
      (effective_current_lim a).

(** ** The cycle over the utilities as the specification describes them

    The bodies of [clamp_bidirf], [fmodf_pos] and [wrap_pm] are not part
    of the sources at hand.  What a property of [update] owes to them it
    should owe to what the specification says of them, and to nothing
    else: here the cycle is written once more, line for line as above,
    with the three utilities taken as parameters. *)

Record Utilities := mkUtilities {
  clamp_bidirf_of : float -> float -> float;
  fmodf_pos_of : float -> float -> float;
  wrap_pm_of : float -> float -> float
}.

(** The utilities as modelled above. *)
Definition modelled_utilities : Utilities :=
  mkUtilities clamp_bidirf fmodf_pos wrap_pm.

(** Modelled from the spec: what [clamp_bidirf] (utility header absent)
    does, the "symmetric clamp" that clamps a value "to ±limit": for a
    limit that is not negative the result lies within the limit, and it is
    the value itself when that lies within the limit, and the bound on the
    value's side otherwise. *)
Definition clamps (f : float -> float -> float) : Prop :=
  forall x l : float,
    (F32.zero <=? l) = true ->
    (F32.fabsf (f x l) <=? l) = true /\
    ((F32.fabsf x <=? l) = true -> f x l = x) /\
    ((x >? l) = true -> f x l = l) /\
    ((x <? - l) = true -> f x l = - l).

(** Modelled from the spec: what [fmodf_pos] (utility header absent) does,
    which is to "normalize [x] modulo [y] into [[0, y)]": for a finite
    positive period the result lies in the half-open interval, and it is
    the number of that interval that differs from [x] by a whole number of
    periods whenever that number is a float. *)
Definition normalises (f : float -> float -> float) : Prop :=
  forall x y : float,
    fin y = true -> (F32.zero <? y) = true ->
    fin (f x y) = true /\
    (F32.zero <=? f x y) = true /\ (f x y <? y) = true /\
    (fin x = true ->
     forall r : float,
       fin r = true -> (F32.zero <=? r) = true -> (r <? y) = true ->
       ((sval x - sval r) mod sval y = 0)%Z ->
       F32.eqb (f x y) r = true).

(** Modelled from the spec: what [wrap_pm] (utility header absent) does,
    which is to "wrap [x] into [[-h, h)]": for a finite positive half range
    the result lies in the half-open interval, and it is the number of
    that interval that differs from [x] by a whole number of full ranges
    [2 h] whenever that number is a float. *)
Definition wraps (f : float -> float -> float) : Prop :=
  forall x h : float,
    fin h = true -> (F32.zero <? h) = true ->
    fin (f x h) = true /\
    (- h <=? f x h) = true /\ (f x h <? h) = true /\
    (fin x = true ->
     forall r : float,
       fin r = true -> (- h <=? r) = true -> (r <? h) = true ->
       ((sval x - sval r) mod (2 * sval h) = 0)%Z ->
       F32.eqb (f x h) r = true).

(** The position loop. *)
Definition position_error_with (U : Utilities) (a : Axis) (c : Controller)
    (pos_estimate : float) : Controller * float :=
  if setpoints_in_cpr (config_ c) then
    let cpr := F32.of_Z (encoder_cpr a) in
    let c := with_pos_setpoint (fmodf_pos_of U (pos_setpoint_ c) cpr) c in
    let pos_err := pos_setpoint_ c - encoder_pos_cpr_ a in
    (c, wrap_pm_of U pos_err (F32.half * cpr))
  else (c, pos_setpoint_ c - pos_estimate).

Definition position_step_with (U : Utilities) (a : Axis) (c : Controller)
    (pos_estimate : float) : Controller * float :=
  let vel_des := vel_setpoint_ c in
  if mode_geb (control_mode (config_ c)) CTRL_MODE_POSITION_CONTROL then
    let '(c, pos_err) := position_error_with U a c pos_estimate in
    (c, vel_des + pos_gain (config_ c) * pos_err)
  else (c, vel_des).

(** Anticogging integral and linear broadcast. *)
Definition cogmap_adapt_with (U : Utilities) (m : list float) (k : Cog_index)
    (cogmap_correction max_current : float) : option (list float) :=
  match arr_modify m (idx k) (fun v => v + (F32.one - frac k) * cogmap_correction) with
  | None => None
  | Some m =>
  match arr_modify m (idx1 k) (fun v => v + frac k * cogmap_correction) with
  | None => None
  | Some m =>
  match arr_modify m (idx k) (fun v => clamp_bidirf_of U v max_current) with
  | None => None
  | Some m => arr_modify m (idx1 k) (fun v => clamp_bidirf_of U v max_current)
  end end end.

Section Update_with.

Variable K : Constants.
Variable U : Utilities.

Let current_meas_period := current_meas_period_of K.
Let ERROR_OVERSPEED := ERROR_OVERSPEED_of K.

Definition ramp_step_with (c : Controller) : Controller :=
    if mode_eqb (control_mode (config_ c)) CTRL_MODE_VELOCITY_CONTROL
       && vel_ramp_enable (config_ c) then
      let max_step_size := current_meas_period * vel_ramp_rate (config_ c) in
      let full_step := vel_ramp_target_ c - vel_setpoint_ c in
      let step := clamp_bidirf_of U full_step max_step_size in
      with_vel_setpoint (vel_setpoint_ c + step) c
    else c.

Definition setpoint_stage_with (a : Axis) (c : Controller) (pos_estimate : float)
    : Controller * float :=
    let c := trajectory_step K a c in
    let c := ramp_step_with c in
    let '(c, vel_des) := position_step_with U a c pos_estimate in
    (c, limit_velocity (vel_limit (config_ c)) vel_des).

Definition velocity_step_with (c : Controller) (k : Cog_index)
      (vel_gain v_err Iq : float) : option (Controller * float) :=
    if mode_geb (control_mode (config_ c)) CTRL_MODE_VELOCITY_CONTROL then
      let Iq := Iq + vel_gain * v_err in
      let cogmap_corr_rate := cogmap_integrator_gain (config_ c) * v_err in
      let cogmap_correction := cogmap_corr_rate * current_meas_period in
      match cogmap_adapt_with U (cogmap (config_ c)) k cogmap_correction
              (cogmap_max_current (config_ c)) with
      | None => None
      | Some m =>
          let c := with_config (set_cogmap m (config_ c)) c in
          let c := with_cogmap_correction_pwr
                     (cogmap_correction_pwr_ c
                      + F32.lit_0_001 * (cogmap_corr_rate * cogmap_corr_rate
                                         - cogmap_correction_pwr_ c)) c in
          Some (c, Iq)
      end
    else Some (c, Iq).

Definition current_stage_with (a : Axis) (c : Controller) (vel_des vel_estimate : float)
    : option (Controller * float * float * float) :=
    let '(vel_gain, vel_integrator_gain) := scheduled_gains a c in
    let Iq := current_setpoint_ c in
    match cogmap_index a c with
    | None => None
    | Some k =>
    match arr_get (cogmap (config_ c)) (idx k), arr_get (cogmap (config_ c)) (idx1 k) with
    | Some m0, Some m1 =>
        let c := with_cogmap_current ((F32.one - frac k) * m0 + frac k * m1) c in
        let Iq := Iq + cogmap_current_ c in
        let v_err := vel_des - vel_estimate in
        match velocity_step_with c k vel_gain v_err Iq with
        | None => None
        | Some (c, Iq) =>
            Some (c, vel_integrator_gain, v_err, Iq + vel_integrator_current_ c)
        end
    | _, _ => None
    end
    end.

  (** [Controller::update] over the utilities [U]. *)
Definition update_with (a : Axis) (c : Controller) (pos_estimate vel_estimate : float)
      (output : bool) : Outcome :=
    let '(c, vel_des) := setpoint_stage_with a c pos_estimate in
    if overspeed c vel_estimate then
      let '(c, a) := set_error K ERROR_OVERSPEED c a in
      Returned false c a None
    else
      match current_stage_with a c vel_des vel_estimate with
      | None => Undefined
      | Some (c, vel_integrator_gain, v_err, Iq) =>
          let '(limited, Iq) := limit_current (effective_current_lim a) Iq in
          let c := integrator_step K c limited vel_integrator_gain v_err in
          Returned true c a (if output then Some Iq else None)
      end.

  (** The velocity demand and the velocity error of a cycle, and the
      correction that the cycle spreads over the two bracketing entries of
      the cogging map. *)
Definition vel_demand_with (a : Axis) (c : Controller) (pos_estimate : float) : float :=
    snd (setpoint_stage_with a c pos_estimate).

Definition velocity_error_with (a : Axis) (c : Controller)
      (pos_estimate vel_estimate : float) : float :=
    vel_demand_with a c pos_estimate - vel_estimate.

Definition cogmap_correction_with (a : Axis) (c : Controller)
      (pos_estimate vel_estimate : float) : float :=
    (cogmap_integrator_gain (config_ c) * velocity_error_with a c pos_estimate vel_estimate)
    * current_meas_period.

End Update_with.

(** The direction in which a cycle moves the two bracketing entries of the
    cogging map when the velocity error has the sign [s] ([true] for
    negative): the sign of the correction
    [(cogmap_integrator_gain * v_err) * current_meas_period]. *)
Definition pushes_down (K : Constants) (c : Controller) (s : bool) : bool :=
  xorb (xorb (F32.sign_bit (cogmap_integrator_gain (config_ c))) s)
       (F32.sign_bit (current_meas_period_of K)).

Section Adaptation_runs.

Variable K : Constants.
Variable U : Utilities.

(** A run of successive cycles from velocity mode upwards, each on its own
    inputs, that all fall on the table indices [i0] and [i1], in which the
    velocity error keeps the sign [s], the interpolation weights are not
    negative and the two increments are numbers. *)
Inductive adapts (s : bool) (i0 i1 : Z)
  : Controller -> list (Axis * float * float) -> Controller -> Prop :=
| adapts_nil (c : Controller) : adapts s i0 i1 c [] c
| adapts_cons (c : Controller) (a : Axis) (pe ve : float) (o : bool)
    (c1 : Controller) (a1 : Axis) (w : option float) (k : Cog_index)
    (ins : list (Axis * float * float)) (c2 : Controller) :
    update_with K U a c pe ve o = Returned true c1 a1 w ->
    mode_geb (control_mode (config_ c)) CTRL_MODE_VELOCITY_CONTROL = true ->
    cogmap_index a c = Some k -> idx k = i0 -> idx1 k = i1 ->
    F32.sign_bit (velocity_error_with K U a c pe ve) = s ->
    (F32.zero <=? F32.one - frac k) = true ->
    (F32.zero <=? frac k) = true ->
    wf ((F32.one - frac k) * cogmap_correction_with K U a c pe ve) = true ->
    wf (frac k * cogmap_correction_with K U a c pe ve) = true ->
    adapts s i0 i1 c1 ins c2 ->
    adapts s i0 i1 c ((a, pe, ve) :: ins) c2.

End Adaptation_runs.

(** ** Utilities that meet the specification

    The modelled [clamp_bidirf] with a NaN taken to zero, and the periodic
    modulo and the wrap computed on exact values and rounded, with a
    result that rounding has taken to the open end of the interval brought
    back to its closed end.  They show that what the specification says of
    the utilities can be met, and the properties are exercised on them. *)

(** The modelled [clamp_bidirf] with a NaN taken to [v]: every clamp in
    the sense of the specification is of this form on a limit that is not
    negative. *)
Definition nan_clamp (v : float) (x l : float) : float :=
  if F32.is_nan x then v else clamp_bidirf x l.

Definition round_sval (z : Z) : float :=
  binary_normalize F32.prec F32.emax z ebase false.

Definition total_clamp_bidirf : float -> float -> float := nan_clamp F32.zero.

Definition exact_fmodf_pos (x y : float) : float :=
  if fin x && fin y && (0 <? sval y)%Z then
    let r := round_sval (sval x mod sval y) in
    if r <? y then r else F32.zero
  else F32.zero.

Definition exact_wrap_pm (x h : float) : float :=
  if fin x && fin h && (0 <? sval h)%Z then
    let r := round_sval ((sval x + sval h) mod (2 * sval h) - sval h) in
    if r <? h then r else - h
  else F32.zero.

Definition exact_utilities : Utilities :=
  mkUtilities total_clamp_bidirf exact_fmodf_pos exact_wrap_pm.

(** A velocity-mode controller with the given cogging integrator gain and
    second map entry, a map bound of 1 and everything else as in the
    sample controllers. *)
Definition adapting_controller (gain entry : float) : Controller :=
  mkController
    (mkConfig CTRL_MODE_VELOCITY_CONTROL (F32.of_Z 20) (F32.of_Z 1) (F32.of_Z 1)
       (F32.of_Z 10) (F32.of_Z 12 / F32.of_Z 10) false (F32.of_Z 10000) false
       [F32.zero; entry; F32.zero; F32.zero] 4 gain (F32.of_Z 1))
    0 F32.zero F32.zero F32.zero F32.zero F32.zero F32.zero 0 F32.zero F32.zero.

(** The second map entry after two successive cycles, and whether three
    successive values of an entry are in order, upwards or downwards. *)
Definition second_entry_after (K : Constants) (U : Utilities)
    (a1 a2 : Axis) (c : Controller) (ve1 ve2 : float) : option (float * float) :=
  match update_with K U a1 c F32.zero ve1 true with
  | Returned true c1 _ _ =>
      match update_with K U a2 c1 F32.zero ve2 true with
      | Returned true c2 _ _ =>
          match arr_get (cogmap (config_ c1)) 1, arr_get (cogmap (config_ c2)) 1 with
          | Some v1, Some v2 => Some (v1, v2)
          | _, _ => None
          end
      | _ => None
      end
  | _ => None
  end.

Definition monotone3 (v0 v1 v2 : float) : bool :=
  ((v0 <=? v1) && (v1 <=? v2)) || ((v1 <=? v0) && (v2 <=? v1)).

(** * Properties *)

(** ** Comparisons of floats

    These hold for every [spec_float], with no appeal to rounding. *)

Lemma SFcompare_antisym (x y : float) :
  SFcompare y x = option_map CompOpp (SFcompare x y).
Proof.
  destruct x as [[]|[]| |[] mx ex], y as [[]|[]| |[] my ey]; simpl; try reflexivity;
    rewrite (Z.compare_antisym ex ey); destruct (ex ?= ey)%Z; simpl; try reflexivity;
    pose proof (Pos.compare_cont_antisym mx my Eq) as H; simpl in H; rewrite <- H;
    destruct (Pos.compare_cont Eq mx my); reflexivity.
Qed.

Lemma SFcompare_opp (x y : float) :
  SFcompare (SFopp x) (SFopp y) = SFcompare y x.
Proof.
  rewrite (SFcompare_antisym x y).
  destruct x as [[]|[]| |[] mx ex], y as [[]|[]| |[] my ey]; simpl; try reflexivity;
    destruct (ex ?= ey)%Z; simpl; try reflexivity;
    destruct (Pos.compare_cont Eq mx my); reflexivity.
Qed.

Lemma SFopp_involutive (x : float) : SFopp (SFopp x) = x.
Proof. destruct x as [[]|[]| |[] m e]; reflexivity. Qed.

Lemma SFcompare_not_nan (x y : float) :
  F32.is_nan x = false -> F32.is_nan y = false -> exists k, SFcompare x y = Some k.
Proof.
  destruct x as [[]|[]| |[] mx ex], y as [[]|[]| |[] my ey]; simpl; intros; try discriminate;
    eexists; reflexivity.
Qed.

Lemma ltb_false_leb (x y : float) :
  F32.is_nan x = false -> F32.is_nan y = false ->
  (x <? y) = false -> (y <=? x) = true.
Proof.
  intros Hx Hy H. destruct (SFcompare_not_nan x y Hx Hy) as [k Hk].
  unfold F32.ltb, F32.leb, SFltb, SFleb in *.
  rewrite (SFcompare_antisym x y), Hk in *. destruct k; simpl; congruence.
Qed.

Lemma leb_not_nan (x y : float) :
  (x <=? y) = true -> F32.is_nan x = false /\ F32.is_nan y = false.
Proof.
  unfold F32.leb, SFleb. destruct x as [[]|[]| |[] mx ex], y as [[]|[]| |[] my ey];
    simpl; intros; try discriminate; auto.
Qed.

Lemma nonneg_ltb_opp (l : float) :
  (F32.zero <=? l) = true -> (l <? - l) = false.
Proof.
  destruct l as [[]|[]| |[] m e]; simpl; intros H; try discriminate; try reflexivity.
  all: unfold F32.ltb, SFltb; simpl; reflexivity.
Qed.

Lemma nonneg_fabsf (l : float) :
  (F32.zero <=? l) = true -> (F32.fabsf l <=? l) = true.
Proof.
  destruct l as [[]|[]| |[] m e]; simpl; intros H; try discriminate; try reflexivity.
  unfold F32.leb, SFleb. simpl. rewrite Z.compare_refl.
  rewrite Pos.compare_cont_refl. reflexivity.
Qed.

Lemma fabsf_opp (x : float) : F32.fabsf (- x) = F32.fabsf x.
Proof. destruct x as [[]|[]| |[] m e]; reflexivity. Qed.

(** A number that is neither above [l] nor below [-l] has magnitude at
    most [l]. *)
Lemma fabsf_le_of_between (x l : float) :
  F32.is_nan x = false -> F32.is_nan l = false ->
  (x >? l) = false -> (x <? - l) = false ->
  (F32.fabsf x <=? l) = true.
Proof.
  intros Hx Hl Hhi Hlo.
  assert (H1 : (x <=? l) = true) by (apply ltb_false_leb; assumption).
  assert (H2 : (- l <=? x) = true).
  { apply ltb_false_leb; try assumption. destruct l as [[]|[]| |[] m e]; auto. }
  destruct x as [sx|sx| |sx mx ex]; try discriminate.
  - destruct sx; exact H1.
  - destruct sx; [|exact H1].
    unfold F32.leb, SFleb in *. rewrite <- (SFopp_involutive l).
    change (F32.fabsf (S754_infinity true)) with (SFopp (S754_infinity true)).
    rewrite SFcompare_opp. exact H2.
  - destruct sx; [|exact H1].
    unfold F32.leb, SFleb in *. rewrite <- (SFopp_involutive l).
    change (F32.fabsf (S754_finite true mx ex)) with (SFopp (S754_finite true mx ex)).
    rewrite SFcompare_opp. exact H2.
Qed.

(** The current limiter: a result that is a number lies within the limit. *)
Lemma limit_current_bound (Ilim Iq : float) :
  (F32.zero <=? Ilim) = true ->
  F32.is_nan (snd (limit_current Ilim Iq)) = false ->
  (F32.fabsf (snd (limit_current Ilim Iq)) <=? Ilim) = true.
Proof.
  intros Hl. destruct (leb_not_nan _ _ Hl) as [_ Hn].
  unfold limit_current.
  destruct (Iq >? Ilim) eqn:Hhi.
  - unfold F32.gtb in *. rewrite (nonneg_ltb_opp _ Hl). simpl. intros _.
    apply nonneg_fabsf; assumption.
  - destruct (Iq <? - Ilim) eqn:Hlo; simpl; intros Hq.
    + rewrite fabsf_opp. apply nonneg_fabsf; assumption.
    + apply fabsf_le_of_between; assumption.
Qed.

(** ** Array cells *)

Lemma length_list_set (l : list float) (n : nat) (v : float) :
  length (list_set l n v) = length l.
Proof.
  revert n; induction l as [|h t IH]; intros [|n]; simpl; auto.
Qed.

Lemma nth_error_list_set_same (l : list float) (n : nat) (v : float) :
  (n < length l)%nat -> nth_error (list_set l n v) n = Some v.
Proof.
  revert n; induction l as [|h t IH]; intros [|n]; simpl; intros H;
    try (exfalso; lia); auto.
  apply IH; lia.
Qed.

Lemma nth_error_list_set_other (l : list float) (n k : nat) (v : float) :
  n <> k -> nth_error (list_set l n v) k = nth_error l k.
Proof.
  revert n k; induction l as [|h t IH]; intros [|n] [|k]; simpl; intros H;
    try congruence; auto.
Qed.

Lemma arr_get_Some_bounds (l : list float) (i : Z) (v : float) :
  arr_get l i = Some v -> (0 <= i < Z.of_nat (length l))%Z.
Proof.
  unfold arr_get. destruct (i <? 0)%Z eqn:Hi; [discriminate|].
  intros H. apply Z.ltb_ge in Hi.
  assert (Hn : (Z.to_nat i < length l)%nat) by (apply nth_error_Some; congruence).
  lia.
Qed.

Lemma arr_get_in_bounds (l : list float) (i : Z) :
  (0 <= i < Z.of_nat (length l))%Z -> exists v, arr_get l i = Some v.
Proof.
  intros H. unfold arr_get.
  destruct (i <? 0)%Z eqn:Hi; [apply Z.ltb_lt in Hi; lia|].
  destruct (nth_error l (Z.to_nat i)) eqn:Hn; [eauto|].
  apply nth_error_None in Hn. lia.
Qed.

Lemma length_arr_set (l : list float) (i : Z) (v : float) :
  length (arr_set l i v) = length l.
Proof.
  unfold arr_set. destruct (i <? 0)%Z; auto using length_list_set.
Qed.

Lemma arr_get_set_same (l : list float) (i : Z) (v : float) :
  (0 <= i < Z.of_nat (length l))%Z -> arr_get (arr_set l i v) i = Some v.
Proof.
  intros H. unfold arr_get, arr_set.
  destruct (i <? 0)%Z eqn:Hi; [apply Z.ltb_lt in Hi; lia|].
  apply nth_error_list_set_same. lia.
Qed.

Lemma arr_get_set_other (l : list float) (i j : Z) (v : float) :
  i <> j -> arr_get (arr_set l i v) j = arr_get l j.
Proof.
  intros H. unfold arr_get, arr_set.
  destruct (j <? 0)%Z eqn:Hj; [reflexivity|].
  destruct (i <? 0)%Z eqn:Hi; [reflexivity|].
  apply Z.ltb_ge in Hi, Hj.
  apply nth_error_list_set_other. lia.
Qed.

Lemma arr_modify_Some (l : list float) (i : Z) (f : float -> float) (v : float) :
  arr_get l i = Some v -> arr_modify l i f = Some (arr_set l i (f v)).
Proof. unfold arr_modify. intros ->. reflexivity. Qed.

(** What the adaptation leaves in the map, when the two bracketing indices
    differ and when they coincide (a map of one entry). *)
Lemma cogmap_adapt_distinct (m : list float) (k : Cog_index) (corr mx m0 m1 : float) :
  arr_get m (idx k) = Some m0 -> arr_get m (idx1 k) = Some m1 ->
  idx k <> idx1 k ->
  cogmap_adapt m k corr mx
  = Some (arr_set
            (arr_set
               (arr_set (arr_set m (idx k) (m0 + (F32.one - frac k) * corr))
                  (idx1 k) (m1 + frac k * corr))
               (idx k) (clamp_bidirf (m0 + (F32.one - frac k) * corr) mx))
            (idx1 k) (clamp_bidirf (m1 + frac k * corr) mx)).
Proof.
  intros H0 H1 Hne. unfold cogmap_adapt.
  pose proof (arr_get_Some_bounds _ _ _ H0) as B0.
  pose proof (arr_get_Some_bounds _ _ _ H1) as B1.
  rewrite (arr_modify_Some _ _ _ _ H0).
  erewrite arr_modify_Some
    by (rewrite arr_get_set_other by assumption; exact H1).
  erewrite arr_modify_Some
    by (rewrite arr_get_set_other by congruence;
        apply arr_get_set_same; assumption).
  erewrite arr_modify_Some
    by (rewrite arr_get_set_other by assumption;
        apply arr_get_set_same; rewrite length_arr_set; assumption).
  reflexivity.
Qed.

Lemma cogmap_adapt_same (m : list float) (k : Cog_index) (corr mx m0 : float) :
  arr_get m (idx k) = Some m0 -> idx k = idx1 k ->
  cogmap_adapt m k corr mx
  = Some (arr_set
            (arr_set
               (arr_set (arr_set m (idx k) (m0 + (F32.one - frac k) * corr))
                  (idx k) ((m0 + (F32.one - frac k) * corr) + frac k * corr))
               (idx k)
               (clamp_bidirf ((m0 + (F32.one - frac k) * corr) + frac k * corr) mx))
            (idx k)
            (clamp_bidirf
               (clamp_bidirf ((m0 + (F32.one - frac k) * corr) + frac k * corr) mx) mx)).
Proof.
  intros H0 He. unfold cogmap_adapt. rewrite <- He.
  pose proof (arr_get_Some_bounds _ _ _ H0) as B0.
  rewrite (arr_modify_Some _ _ _ _ H0).
  erewrite arr_modify_Some by (apply arr_get_set_same; assumption).
  erewrite arr_modify_Some
    by (apply arr_get_set_same; rewrite length_arr_set; assumption).
  erewrite arr_modify_Some
    by (apply arr_get_set_same; rewrite !length_arr_set; assumption).
  reflexivity.
Qed.

Lemma cogmap_adapt_defined (m : list float) (k : Cog_index) (corr mx m0 m1 : float) :
  arr_get m (idx k) = Some m0 -> arr_get m (idx1 k) = Some m1 ->
  exists m', cogmap_adapt m k corr mx = Some m'.
Proof.
  intros H0 H1. destruct (Z.eq_dec (idx k) (idx1 k)) as [He|Hne].
  - erewrite cogmap_adapt_same by eassumption. eauto.
  - erewrite cogmap_adapt_distinct by eassumption. eauto.
Qed.

Local Open Scope Z_scope.

(** ** Rounding *)

Lemma digits2_pos_bounds (m : positive) :
  2 ^ (Zpos (digits2_pos m) - 1) <= Zpos m < 2 ^ Zpos (digits2_pos m).
Proof.
  induction m as [p IH|p IH|]; simpl digits2_pos.
  - rewrite Pos2Z.inj_succ.
    replace (Z.succ (Zpos (digits2_pos p)) - 1) with (Z.succ (Zpos (digits2_pos p) - 1)) by lia.
    rewrite !Z.pow_succ_r by lia. lia.
  - rewrite Pos2Z.inj_succ.
    replace (Z.succ (Zpos (digits2_pos p)) - 1) with (Z.succ (Zpos (digits2_pos p) - 1)) by lia.
    rewrite !Z.pow_succ_r by lia. lia.
  - simpl. lia.
Qed.

Lemma digits2_pos_le (m : positive) (k : Z) :
  Zpos m < 2 ^ k -> Zpos (digits2_pos m) <= k.
Proof.
  intros H. destruct (Z_le_gt_dec (Zpos (digits2_pos m)) k) as [|Hgt]; [assumption|].
  exfalso. destruct (digits2_pos_bounds m) as [Hlo _].
  destruct (Z_lt_le_dec k 0) as [Hk|Hk].
  - rewrite Z.pow_neg_r in H by assumption. lia.
  - assert (2 ^ k <= 2 ^ (Zpos (digits2_pos m) - 1)) by (apply Z.pow_le_mono_r; lia).
    lia.
Qed.

Lemma digits2_pos_ge (m : positive) (k : Z) :
  2 ^ (k - 1) <= Zpos m -> k <= Zpos (digits2_pos m).
Proof.
  intros H. destruct (Z_le_gt_dec k (Zpos (digits2_pos m))) as [|Hgt]; [assumption|].
  exfalso. destruct (digits2_pos_bounds m) as [_ Hhi].
  assert (2 ^ Zpos (digits2_pos m) <= 2 ^ (k - 1)) by (apply Z.pow_le_mono_r; lia).
  lia.
Qed.

Lemma shr_1_inv (m k : Z) (r : shr_record) :
  0 <= k -> shr_inv m k r -> shr_inv m (k + 1) (shr_1 r).
Proof.
  intros Hk (Hm & rem & Heq & Hrem & Hrs & Hhalf). unfold shr_inv.
  destruct r as [mm r s]. cbn [shr_m shr_r shr_s] in *.
  assert (Hp : 2 ^ (k + 1) = 2 * 2 ^ k) by (rewrite Z.pow_add_r by lia; lia).
  assert (H2k : 0 < 2 ^ k) by (apply Z.pow_pos_nonneg; lia).
  destruct mm as [|[p|p|]|p]; try lia; cbn [shr_1 shr_m shr_r shr_s]; split; try lia.
  - exists rem. rewrite Hp. split; [lia|]. split; [lia|].
    rewrite orb_false_l. split; [exact Hrs|]. discriminate.
  - exists (2 ^ k + rem). rewrite Hp. split; [lia|]. split; [lia|].
    rewrite orb_true_l. split; [split; intros; [lia|reflexivity]|]. intros _. lia.
  - exists rem. rewrite Hp. split; [lia|]. split; [lia|].
    rewrite orb_false_l. split; [exact Hrs|]. discriminate.
  - exists (2 ^ k + rem). rewrite Hp. split; [lia|]. split; [lia|].
    rewrite orb_true_l. split; [split; intros; [lia|reflexivity]|]. intros _. lia.
Qed.

Lemma iter_shr_1_inv (m : Z) (p : positive) :
  forall (k : Z) (r : shr_record),
    0 <= k -> shr_inv m k r -> shr_inv m (k + Zpos p) (iter_pos shr_1 p r).
Proof.
  induction p as [p IH|p IH|]; intros k r Hk H; cbn [iter_pos].
  - replace (k + Zpos p~1) with (((k + 1) + Zpos p) + Zpos p) by lia.
    apply IH; [lia|]. apply IH; [lia|]. apply shr_1_inv; assumption.
  - replace (k + Zpos p~0) with ((k + Zpos p) + Zpos p) by lia.
    apply IH; [lia|]. apply IH; assumption.
  - apply shr_1_inv; assumption.
Qed.

Lemma round_nearest_even_bounds (r : shr_record) :
  shr_m r <= round_nearest_even (shr_m r) (loc_of_shr_record r) <= shr_m r + 1 /\
  (orb (shr_r r) (shr_s r) = false ->
   round_nearest_even (shr_m r) (loc_of_shr_record r) = shr_m r) /\
  (shr_r r = false ->
   round_nearest_even (shr_m r) (loc_of_shr_record r) = shr_m r).
Proof.
  destruct r as [mm [] []]; cbn; try destruct (Z.even mm);
    repeat split; intros; try lia; discriminate.
Qed.

Lemma pow2_pos (k : Z) : 0 <= k -> 0 < 2 ^ k.
Proof. intros. apply Z.pow_pos_nonneg; lia. Qed.

Lemma pow2_split (a b : Z) : 0 <= a -> 0 <= b -> 2 ^ (a + b) = 2 ^ a * 2 ^ b.
Proof. intros. apply Z.pow_add_r; assumption. Qed.

Lemma fexp_eq (x : Z) : fexp F32.prec F32.emax x = Z.max (x - 24) (-149).
Proof. reflexivity. Qed.

Lemma Zdigits2_nonneg_le (z k : Z) : 0 <= z < 2 ^ k -> 0 <= k -> Zdigits2 z <= k.
Proof.
  intros [H0 H1] Hk. destruct z as [|p|p]; simpl; try lia.
  apply digits2_pos_le; assumption.
Qed.

Lemma binary_round_aux_spec (s : bool) (m : positive) (e : Z) :
  let T := fexp F32.prec F32.emax (Zpos (digits2_pos m) + e) in
  e <= T ->
  exists m1 q rem,
    Zpos m = q * 2 ^ (T - e) + rem /\ 0 <= rem < 2 ^ (T - e) /\
    q <= m1 <= q + 1 /\ (rem = 0 -> m1 = q) /\ 0 <= q < 2 ^ 24 /\
    (-149 < T -> 2 ^ 23 <= q) /\ (2 * rem < 2 ^ (T - e) -> m1 = q) /\
    binary_round_aux F32.prec F32.emax s (Zpos m) e loc_Exact = rounded s m1 T.
Proof.
  intros T HT.
  pose proof (digits2_pos_bounds m) as [Hdlo Hdhi].
  assert (HTd : Zpos (digits2_pos m) + e - 24 <= T /\ -149 <= T)
    by (subst T; rewrite fexp_eq; lia).
  unfold binary_round_aux, shr_fexp. cbn [Zdigits2 shr_record_of_loc]. fold T.
  unfold shr at 1. destruct (T - e) as [|p|p] eqn:Hn; [| |lia].
  - (* no shift *)
    cbn [loc_of_shr_record shr_m round_nearest_even].
    cbn [Zdigits2 shr_record_of_loc]. fold T. rewrite Hn. cbn [shr shr_m].
    assert (Hm24 : Zpos m < 2 ^ 24).
    { assert (2 ^ Zpos (digits2_pos m) <= 2 ^ 24) by (apply Z.pow_le_mono_r; lia). lia. }
    exists (Zpos m), (Zpos m), 0. change (2 ^ 0) with 1.
    split; [lia|]. split; [lia|]. split; [lia|]. split; [lia|]. split; [lia|].
    split.
    { intros Hn1. replace (Zpos (digits2_pos m)) with 24 in Hdlo by (subst T; rewrite fexp_eq in *; lia).
      exact Hdlo. }
    split; [reflexivity|].
    unfold rounded. replace T with e by lia.
    destruct (Z.eqb_spec (Zpos m) 0); [lia|].
    destruct (Z.eqb_spec (Zpos m) (2 ^ 24)); [lia|].
    reflexivity.
  - (* shift by [p] *)
    assert (Hinv : shr_inv (Zpos m) (0 + Zpos p)
                     (iter_pos shr_1 p {| shr_m := Zpos m; shr_r := false; shr_s := false |})).
    { apply iter_shr_1_inv; [lia|]. split; [cbn; lia|].
      exists 0. cbn. repeat split; try lia; discriminate. }
    rewrite Z.add_0_l in Hinv.
    set (r1 := iter_pos shr_1 p _) in *.
    destruct Hinv as (Hq0 & rem & Heq & Hrem & Hrs & Hhalf).
    destruct (round_nearest_even_bounds r1) as (Hm1 & Hex & Hdown).
    set (m1 := round_nearest_even (shr_m r1) (loc_of_shr_record r1)) in *.
    replace (e + Zpos p) with T by lia.
    assert (H2p : 0 < 2 ^ Zpos p) by (apply Z.pow_pos_nonneg; lia).
    assert (Hq24 : shr_m r1 < 2 ^ 24).
    { assert (2 ^ Zpos (digits2_pos m) <= 2 ^ (24 + Zpos p)) by (apply Z.pow_le_mono_r; lia).
      rewrite Z.pow_add_r in H by lia. nia. }
    exists m1, (shr_m r1), rem.
    split; [exact Heq|]. split; [exact Hrem|]. split; [exact Hm1|].
    split.
    { intros Hr. apply Hex. destruct (shr_r r1 || shr_s r1); [|reflexivity].
      assert (0 < rem) by (apply Hrs; reflexivity). lia. }
    split; [lia|].
    split.
    { intros Hn1.
      assert (Hd : Zpos (digits2_pos m) - 1 = 23 + Zpos p)
        by (subst T; rewrite fexp_eq in *; lia).
      rewrite Hd, pow2_split in Hdlo by lia. nia. }
    split.
    { intros Hr. apply Hdown. destruct (shr_r r1) eqn:Hrr; [|reflexivity].
      assert (2 ^ Zpos p <= 2 * rem) by (apply Hhalf; reflexivity). lia. }
    unfold rounded.
    destruct (Z.eqb_spec m1 0) as [Hz|Hz].
    { rewrite Hz. cbn [Zdigits2]. rewrite fexp_eq.
      unfold shr. destruct (Z.max (0 + T - 24) (-149) - T) eqn:Hs; try reflexivity. lia. }
    destruct (Z.eqb_spec m1 (2 ^ 24)) as [Hc|Hc].
    { rewrite Hc. change (Zdigits2 (2 ^ 24)) with 25. rewrite fexp_eq.
      replace (Z.max (25 + T - 24) (-149) - T) with 1 by lia.
      cbn [shr iter_pos shr_1 shr_m]. reflexivity. }
    destruct m1 as [|pm|pm]; try lia.
    assert (Hd1 : Zdigits2 (Zpos pm) <= 24) by (apply Zdigits2_nonneg_le; lia).
    rewrite fexp_eq. unfold shr.
    destruct (Z.max (Zdigits2 (Zpos pm) + T - 24) (-149) - T) eqn:Hs; try reflexivity.
    lia.
Qed.

(** ** Values *)

Lemma bounded_inv (m : positive) (e : Z) :
  bounded F32.prec F32.emax m e = true ->
  -149 <= e <= 104 /\ Zpos m < 2 ^ 24 /\ (-149 < e -> 2 ^ 23 <= Zpos m).
Proof.
  unfold bounded, canonical_mantissa. rewrite fexp_eq.
  intros H. apply andb_true_iff in H. destruct H as [Hc He].
  apply Z.eqb_eq in Hc. apply Z.leb_le in He. change (F32.emax - F32.prec) with 104 in He.
  pose proof (digits2_pos_bounds m) as [Hlo Hhi].
  split; [lia|]. split.
  - assert (2 ^ Zpos (digits2_pos m) <= 2 ^ 24) by (apply Z.pow_le_mono_r; lia). lia.
  - intros He'. replace (Zpos (digits2_pos m)) with 24 in Hlo by lia. exact Hlo.
Qed.

Lemma bounded_intro (m : positive) (e : Z) :
  -149 <= e <= 104 -> Zpos m < 2 ^ 24 -> (-149 < e -> 2 ^ 23 <= Zpos m) ->
  bounded F32.prec F32.emax m e = true.
Proof.
  intros He Hm Hn. unfold bounded, canonical_mantissa. rewrite fexp_eq.
  apply andb_true_iff. split; [|apply Z.leb_le; change (F32.emax - F32.prec) with 104; lia].
  apply Z.eqb_eq.
  assert (Zpos (digits2_pos m) <= 24) by (apply digits2_pos_le; assumption).
  destruct (Z.eq_dec e (-149)) as [->|Hne]; [lia|].
  assert (24 <= Zpos (digits2_pos m)) by (apply digits2_pos_ge; apply Hn; lia).
  lia.
Qed.

(** Magnitudes of valid numbers: less than [sval_inf] when finite. *)
Lemma finite_mag_bounds (m : positive) (e : Z) :
  bounded F32.prec F32.emax m e = true ->
  0 < Zpos m * 2 ^ (e - ebase) < sval_inf.
Proof.
  intros H. destruct (bounded_inv m e H) as (He & Hm & _). unfold ebase, sval_inf.
  assert (0 < 2 ^ (e - -298)) by (apply pow2_pos; lia).
  split; [lia|].
  assert (2 ^ (e - -298) <= 2 ^ 402) by (apply Z.pow_le_mono_r; lia).
  change (2 ^ 426) with (2 ^ 24 * 2 ^ 402). nia.
Qed.

(** On valid numbers the comparison of floats is the comparison of values. *)
Lemma finite_compare (m1 m2 : positive) (e1 e2 : Z) :
  bounded F32.prec F32.emax m1 e1 = true ->
  bounded F32.prec F32.emax m2 e2 = true ->
  match (e1 ?= e2) with
  | Lt => Lt
  | Gt => Gt
  | Eq => Pos.compare_cont Eq m1 m2
  end = (Zpos m1 * 2 ^ (e1 - ebase) ?= Zpos m2 * 2 ^ (e2 - ebase)).
Proof.
  intros H1 H2.
  destruct (bounded_inv m1 e1 H1) as (He1 & Hm1 & Hn1).
  destruct (bounded_inv m2 e2 H2) as (He2 & Hm2 & Hn2).
  unfold ebase.
  destruct (Z.compare_spec e1 e2) as [Heq|Hlt|Hgt].
  - subst e2. change (Pos.compare_cont Eq m1 m2) with (Zpos m1 ?= Zpos m2).
    assert (0 < 2 ^ (e1 - -298)) by (apply pow2_pos; lia).
    destruct (Z.compare_spec (Zpos m1) (Zpos m2)); symmetry;
      [apply Z.compare_eq_iff|apply Z.compare_lt_iff|apply Z.compare_gt_iff]; nia.
  - symmetry. apply Z.compare_lt_iff.
    replace (e2 - -298) with ((e2 - e1 - 1) + (1 + (e1 - -298))) by lia.
    rewrite pow2_split, pow2_split by lia.
    assert (0 < 2 ^ (e1 - -298)) by (apply pow2_pos; lia).
    assert (0 < 2 ^ (e2 - e1 - 1)) by (apply pow2_pos; lia).
    specialize (Hn2 ltac:(lia)). change (2 ^ 1) with 2.
    set (A := 2 ^ (e1 - -298)) in *. set (B := 2 ^ (e2 - e1 - 1)) in *.
    assert (Zpos m1 * A < 2 ^ 24 * A) by nia.
    assert (2 ^ 24 * A <= 2 * Zpos m2 * A) by nia.
    assert (2 * Zpos m2 * A <= Zpos m2 * (B * (2 * A))) by nia.
    lia.
  - symmetry. apply Z.compare_gt_iff.
    replace (e1 - -298) with ((e1 - e2 - 1) + (1 + (e2 - -298))) by lia.
    rewrite pow2_split, pow2_split by lia.
    assert (0 < 2 ^ (e2 - -298)) by (apply pow2_pos; lia).
    assert (0 < 2 ^ (e1 - e2 - 1)) by (apply pow2_pos; lia).
    specialize (Hn1 ltac:(lia)). change (2 ^ 1) with 2.
    set (A := 2 ^ (e2 - -298)) in *. set (B := 2 ^ (e1 - e2 - 1)) in *.
    assert (Zpos m2 * A < 2 ^ 24 * A) by nia.
    assert (2 ^ 24 * A <= 2 * Zpos m1 * A) by nia.
    assert (2 * Zpos m1 * A <= Zpos m1 * (B * (2 * A))) by nia.
    lia.
Qed.

Ltac solve_compare :=
  match goal with
  | |- _ = (?a ?= ?b) => destruct (Z.compare_spec a b); try reflexivity; lia
  end.

Lemma SFcompare_sval (x y : float) :
  wf x = true -> wf y = true -> SFcompare x y = Some (sval x ?= sval y).
Proof.
  unfold wf.
  destruct x as [sx|sx| |sx mx ex], y as [sy|sy| |sy my ey];
    cbn [F32.valid valid_binary F32.is_nan negb andb];
    intros Hx Hy; try discriminate; cbn [SFcompare sval];
    try rewrite andb_true_r in Hx; try rewrite andb_true_r in Hy;
    try pose proof (finite_mag_bounds mx ex Hx);
    try pose proof (finite_mag_bounds my ey Hy);
    try (assert (0 < sval_inf) by (unfold sval_inf; apply pow2_pos; lia)).
  - reflexivity.
  - destruct sy; cbn [cond_Zopp]; f_equal; solve_compare.
  - destruct sy; cbn [cond_Zopp]; f_equal; solve_compare.
  - destruct sx; cbn [cond_Zopp]; f_equal; solve_compare.
  - destruct sx, sy; cbn [cond_Zopp]; f_equal; solve_compare.
  - destruct sx, sy; cbn [cond_Zopp]; f_equal; solve_compare.
  - destruct sx; cbn [cond_Zopp]; f_equal; solve_compare.
  - destruct sx, sy; cbn [cond_Zopp]; f_equal; solve_compare.
  - destruct sx, sy; cbn [cond_Zopp]; f_equal; try solve_compare.
    + rewrite Z.compare_opp. rewrite <- (finite_compare my mx ey ex Hy Hx).
      rewrite (Z.compare_antisym ex ey).
      destruct (ex ?= ey); cbn [CompOpp]; try reflexivity.
      pose proof (Pos.compare_cont_antisym mx my Eq) as Ha. cbn [CompOpp] in Ha. exact Ha.
    + apply finite_compare; assumption.
Qed.

Lemma leb_sval (x y : float) :
  wf x = true -> wf y = true -> ((x <=? y)%f32 = true <-> sval x <= sval y).
Proof.
  intros Hx Hy. unfold F32.leb, SFleb. rewrite (SFcompare_sval x y Hx Hy).
  destruct (Z.compare_spec (sval x) (sval y)); split; intros; try lia; try reflexivity;
    discriminate.
Qed.

Lemma ltb_sval (x y : float) :
  wf x = true -> wf y = true -> ((x <? y)%f32 = true <-> sval x < sval y).
Proof.
  intros Hx Hy. unfold F32.ltb, SFltb. rewrite (SFcompare_sval x y Hx Hy).
  destruct (Z.compare_spec (sval x) (sval y)); split; intros; try lia; try reflexivity;
    discriminate.
Qed.

Lemma sval_inf_pos : 0 < sval_inf.
Proof. unfold sval_inf. apply pow2_pos. lia. Qed.

(** The value of what the rounding returns. *)
Lemma rounded_props (s : bool) (m1 q T : Z) :
  q <= m1 <= q + 1 -> 0 <= q < 2 ^ 24 -> -149 <= T -> (-149 < T -> 2 ^ 23 <= q) ->
  wf (rounded s m1 T) = true /\
  sval (rounded s m1 T) = cond_Zopp s (Z.min (m1 * 2 ^ (T - ebase)) sval_inf).
Proof.
  intros Hm1 Hq HT Hn. unfold rounded, ebase.
  assert (HP : 0 < 2 ^ (T - -298)) by (apply pow2_pos; lia).
  destruct (Z.eqb_spec m1 0) as [Hz|Hz].
  { subst m1. split; [reflexivity|]. pose proof sval_inf_pos.
    rewrite Z.min_l by lia. destruct s; reflexivity. }
  destruct (Z.eqb_spec m1 (2 ^ 24)) as [Hc|Hc].
  { rewrite Hc. destruct (Z.leb_spec (T + 1) 104) as [Ho|Ho].
    - split.
      + unfold wf. cbn [F32.valid valid_binary F32.is_nan negb]. rewrite andb_true_r.
        apply bounded_intro; [lia|reflexivity|intros _; reflexivity].
      + cbn [sval]. unfold ebase. f_equal.
        replace (T + 1 - -298) with (1 + (T - -298)) by lia. rewrite pow2_split by lia.
        assert (2 ^ (T - -298) <= 2 ^ 401) by (apply Z.pow_le_mono_r; lia).
        rewrite Z.min_l.
        * change (Zpos 8388608) with (2 ^ 23). change (2 ^ 24) with (2 ^ 23 * 2 ^ 1). lia.
        * unfold sval_inf. change (2 ^ 426) with (2 ^ 24 * 2 ^ 402).
          assert (2 ^ 401 < 2 ^ 402) by reflexivity. nia.
    - split; [reflexivity|]. cbn [sval]. f_equal.
      assert (2 ^ 402 <= 2 ^ (T - -298)) by (apply Z.pow_le_mono_r; lia).
      rewrite Z.min_r; [reflexivity|].
      unfold sval_inf. change (2 ^ 426) with (2 ^ 24 * 2 ^ 402). nia. }
  assert (Hm : 0 < m1 < 2 ^ 24) by lia.
  destruct m1 as [|pm|pm]; try lia.
  destruct (Z.leb_spec T 104) as [Ho|Ho].
  - split.
    + unfold wf. cbn [F32.valid valid_binary F32.is_nan negb]. rewrite andb_true_r.
      rewrite Pos2Z.id. apply bounded_intro; [lia|lia|intros; specialize (Hn ltac:(lia)); lia].
    + cbn [sval]. rewrite Pos2Z.id. unfold ebase. f_equal.
      assert (2 ^ (T - -298) <= 2 ^ 402) by (apply Z.pow_le_mono_r; lia).
      rewrite Z.min_l; [reflexivity|].
      unfold sval_inf. change (2 ^ 426) with (2 ^ 24 * 2 ^ 402). nia.
  - split; [reflexivity|]. cbn [sval]. f_equal.
    assert (2 ^ 403 <= 2 ^ (T - -298)) by (apply Z.pow_le_mono_r; lia).
    specialize (Hn ltac:(lia)).
    rewrite Z.min_r; [reflexivity|].
    unfold sval_inf. change (2 ^ 426) with (2 ^ 23 * 2 ^ 403). nia.
Qed.

(** Rounding does not cross a representable number: the two integer facts. *)
Lemma round_lower (q rho m1 T mf ef : Z) :
  0 <= rho < 2 ^ (T - ebase) -> q <= m1 -> 0 <= q ->
  (-149 < T -> 2 ^ 23 <= q) -> -149 <= T ->
  0 <= mf < 2 ^ 24 -> -149 <= ef ->
  mf * 2 ^ (ef - ebase) <= q * 2 ^ (T - ebase) + rho ->
  mf * 2 ^ (ef - ebase) <= m1 * 2 ^ (T - ebase).
Proof.
  unfold ebase. intros Hrho Hm1 Hq Hn HT Hmf Hef H.
  assert (HP : 0 < 2 ^ (T - -298)) by (apply pow2_pos; lia).
  destruct (Z_le_gt_dec T ef) as [Hle|Hgt].
  - replace (ef - -298) with ((ef - T) + (T - -298)) in * by lia.
    rewrite pow2_split in * by lia.
    assert (0 < 2 ^ (ef - T)) by (apply pow2_pos; lia).
    set (P := 2 ^ (T - -298)) in *. set (K := mf * 2 ^ (ef - T)).
    assert (K * P < (q + 1) * P) by (unfold K; lia).
    assert (K <= q) by nia. unfold K in *. nia.
  - specialize (Hn ltac:(lia)).
    replace (T - -298) with ((T - ef - 1) + (1 + (ef - -298))) by lia.
    rewrite pow2_split, pow2_split by lia. change (2 ^ 1) with 2.
    assert (0 < 2 ^ (ef - -298)) by (apply pow2_pos; lia).
    assert (0 < 2 ^ (T - ef - 1)) by (apply pow2_pos; lia).
    set (A := 2 ^ (ef - -298)) in *. set (B := 2 ^ (T - ef - 1)) in *.
    assert (mf * A <= 2 ^ 24 * A) by nia.
    assert (2 ^ 24 * A <= q * (2 * A)) by nia.
    assert (q * (2 * A) <= m1 * (2 * A)) by nia.
    assert (m1 * (2 * A) * 1 <= m1 * (2 * A) * B) by (apply Z.mul_le_mono_nonneg_l; nia).
    lia.
Qed.

Lemma round_upper (q rho m1 T mf ef : Z) :
  0 <= rho < 2 ^ (T - ebase) -> m1 <= q + 1 -> (rho = 0 -> m1 = q) -> 0 <= q ->
  (-149 < T -> 2 ^ 23 <= q) -> -149 <= T ->
  0 <= mf < 2 ^ 24 -> -149 <= ef ->
  q * 2 ^ (T - ebase) + rho <= mf * 2 ^ (ef - ebase) ->
  m1 * 2 ^ (T - ebase) <= mf * 2 ^ (ef - ebase).
Proof.
  unfold ebase. intros Hrho Hm1 Hex Hq Hn HT Hmf Hef H.
  assert (HP : 0 < 2 ^ (T - -298)) by (apply pow2_pos; lia).
  destruct (Z_le_gt_dec T ef) as [Hle|Hgt].
  - replace (ef - -298) with ((ef - T) + (T - -298)) in * by lia.
    rewrite pow2_split in * by lia.
    assert (0 < 2 ^ (ef - T)) by (apply pow2_pos; lia).
    set (P := 2 ^ (T - -298)) in *. set (K := mf * 2 ^ (ef - T)).
    assert (HK : q * P + rho <= K * P) by (unfold K; lia).
    destruct (Z.eq_dec rho 0) as [Hz|Hz].
    + rewrite (Hex Hz). assert (q <= K) by nia. unfold K in *. nia.
    + assert (q * P < K * P) by lia. assert (q + 1 <= K) by nia. unfold K in *. nia.
  - exfalso. specialize (Hn ltac:(lia)).
    replace (T - -298) with ((T - ef - 1) + (1 + (ef - -298))) in * by lia.
    rewrite pow2_split, pow2_split in * by lia. change (2 ^ 1) with 2 in *.
    assert (0 < 2 ^ (ef - -298)) by (apply pow2_pos; lia).
    assert (0 < 2 ^ (T - ef - 1)) by (apply pow2_pos; lia).
    set (A := 2 ^ (ef - -298)) in *. set (B := 2 ^ (T - ef - 1)) in *.
    assert (mf * A < 2 ^ 24 * A) by nia.
    assert (2 ^ 24 * A <= q * (2 * A)) by nia.
    assert (q * (2 * A) * 1 <= q * (2 * A) * B) by (apply Z.mul_le_mono_nonneg_l; nia).
    lia.
Qed.

(** Every valid number has a magnitude [mf * 2 ^ (ef - ebase)] with a
    mantissa below [2 ^ 24]. *)
Lemma aval_repr (f : float) :
  wf f = true ->
  aval f <= sval_inf /\
  exists mf ef, 0 <= mf < 2 ^ 24 /\ -149 <= ef /\ aval f = mf * 2 ^ (ef - ebase).
Proof.
  unfold wf, aval. destruct f as [s|s| |s m e];
    cbn [F32.valid valid_binary F32.is_nan negb andb sval]; intros H; try discriminate.
  - split; [pose proof sval_inf_pos; cbn; lia|]. exists 0, (-149). repeat split; try lia; reflexivity.
  - pose proof sval_inf_pos. split; [destruct s; cbn [cond_Zopp]; lia|].
    exists (2 ^ 23), 105. repeat split; try lia; try reflexivity.
    destruct s; cbn [cond_Zopp]; rewrite ?Z.abs_opp, Z.abs_eq by lia; reflexivity.
  - rewrite andb_true_r in H. pose proof (finite_mag_bounds m e H).
    destruct (bounded_inv m e H) as (He & Hm & _).
    split; [destruct s; cbn [cond_Zopp]; lia|].
    exists (Zpos m), e. repeat split; try lia.
    destruct s; cbn [cond_Zopp]; rewrite ?Z.abs_opp, Z.abs_eq by lia; reflexivity.
Qed.

Lemma aval_cond_Zopp (s : bool) (z : Z) : 0 <= z -> Z.abs (cond_Zopp s z) = z.
Proof. intros. destruct s; cbn [cond_Zopp]; lia. Qed.

(** Rounding an exact positive magnitude [m * 2 ^ e]: the result is a valid
    number of the given sign, and no representable magnitude lies strictly
    between the exact magnitude and the rounded one. *)
Lemma binary_round_aux_mono (s : bool) (m : positive) (e : Z) :
  ebase <= e -> e <= fexp F32.prec F32.emax (Zpos (digits2_pos m) + e) ->
  let x := binary_round_aux F32.prec F32.emax s (Zpos m) e loc_Exact in
  let V := Zpos m * 2 ^ (e - ebase) in
  wf x = true /\ sval x = cond_Zopp s (aval x) /\
  (forall f, wf f = true -> aval f <= V -> aval f <= aval x) /\
  (forall f, wf f = true -> V <= aval f -> aval x <= aval f).
Proof.
  intros He HT x V.
  destruct (binary_round_aux_spec s m e HT)
    as (m1 & q & rem & Heq & Hrem & Hm1 & Hex & Hq & Hn & _ & Hx).
  set (T := fexp F32.prec F32.emax (Zpos (digits2_pos m) + e)) in *.
  assert (HT149 : -149 <= T) by (subst T; rewrite fexp_eq; lia).
  destruct (rounded_props s m1 q T Hm1 Hq HT149 Hn) as [Hwf Hsv].
  fold x in Hx. rewrite <- Hx in Hwf, Hsv.
  unfold ebase in *.
  assert (HP : 0 < 2 ^ (T - -298)) by (apply pow2_pos; lia).
  assert (HE : 0 < 2 ^ (e - -298)) by (apply pow2_pos; lia).
  assert (HN : 0 < 2 ^ (T - e)) by (apply pow2_pos; lia).
  assert (HPs : 2 ^ (T - -298) = 2 ^ (T - e) * 2 ^ (e - -298)).
  { rewrite <- pow2_split by lia. f_equal. lia. }
  pose proof sval_inf_pos as Hinf.
  assert (Hav : aval x = Z.min (m1 * 2 ^ (T - -298)) sval_inf).
  { unfold aval. rewrite Hsv. apply aval_cond_Zopp. apply Z.min_glb; nia. }
  assert (HV : V = q * 2 ^ (T - -298) + rem * 2 ^ (e - -298)).
  { unfold V, ebase. rewrite Heq, HPs. ring. }
  assert (Hrho : 0 <= rem * 2 ^ (e - -298) < 2 ^ (T - -298)) by (rewrite HPs; nia).
  split; [exact Hwf|]. split; [rewrite Hsv, Hav; reflexivity|]. split.
  - intros f Hf Hle. destruct (aval_repr f Hf) as (Hfi & mf & ef & Hmf & Hef & Hfa).
    rewrite Hav. apply Z.min_glb; [|assumption].
    rewrite Hfa in *. unfold ebase in *.
    apply (round_lower q (rem * 2 ^ (e - -298)) m1 T mf ef); unfold ebase; try lia.
  - intros f Hf Hle. destruct (aval_repr f Hf) as (Hfi & mf & ef & Hmf & Hef & Hfa).
    rewrite Hav. etransitivity; [apply Z.le_min_l|].
    rewrite Hfa in *. unfold ebase in *.
    apply (round_upper q (rem * 2 ^ (e - -298)) m1 T mf ef); unfold ebase; try lia.
Qed.

Lemma Zpos_iter_xO (m p : positive) : Zpos (Pos.iter xO m p) = Zpos m * 2 ^ Zpos p.
Proof.
  induction p as [|p IH] using Pos.peano_ind.
  - cbn [Pos.iter]. rewrite Pos2Z.inj_xO. change (2 ^ 1) with 2. lia.
  - rewrite Pos.iter_succ, Pos2Z.inj_xO, IH, Pos2Z.inj_succ, Z.pow_succ_r by lia. lia.
Qed.

(** [shl_align] keeps the value and lowers the exponent to at most [e']. *)
Lemma shl_align_spec (m : positive) (e e' : Z) :
  let '(mz, ez) := shl_align m e e' in
  ez = Z.min e e' /\ Zpos mz = Zpos m * 2 ^ (e - ez).
Proof.
  unfold shl_align. destruct (e' - e) as [|d|d] eqn:Hd.
  - split; [lia|]. replace (e - e) with 0 by lia. change (2 ^ 0) with 1. lia.
  - split; [lia|]. replace (e - e) with 0 by lia. change (2 ^ 0) with 1. lia.
  - split; [lia|]. rewrite Zpos_iter_xO. f_equal. f_equal. lia.
Qed.

Lemma digits2_pos_shift (m mz : positive) (k : Z) :
  0 <= k -> Zpos mz = Zpos m * 2 ^ k ->
  Zpos (digits2_pos mz) = Zpos (digits2_pos m) + k.
Proof.
  intros Hk H. destruct (digits2_pos_bounds m) as [Hlo Hhi].
  assert (0 < 2 ^ k) by (apply pow2_pos; lia).
  apply Z.le_antisymm.
  - apply digits2_pos_le. rewrite H, pow2_split by lia. nia.
  - apply digits2_pos_ge. rewrite H.
    replace (Zpos (digits2_pos m) + k - 1) with ((Zpos (digits2_pos m) - 1) + k) by lia.
    rewrite pow2_split by lia. nia.
Qed.

Lemma binary_round_mono (s : bool) (m : positive) (e : Z) :
  ebase <= e ->
  let x := binary_round F32.prec F32.emax s m e in
  let V := Zpos m * 2 ^ (e - ebase) in
  wf x = true /\ sval x = cond_Zopp s (aval x) /\
  (forall f, wf f = true -> aval f <= V -> aval f <= aval x) /\
  (forall f, wf f = true -> V <= aval f -> aval x <= aval f).
Proof.
  intros He. unfold binary_round.
  pose proof (shl_align_spec m e (fexp F32.prec F32.emax (Zpos (digits2_pos m) + e))) as Hs.
  destruct (shl_align m e _) as [mz ez]. destruct Hs as [Hez Hmz].
  assert (Hd : Zpos (digits2_pos mz) + ez = Zpos (digits2_pos m) + e).
  { rewrite (digits2_pos_shift m mz (e - ez)) by (try assumption; lia). lia. }
  assert (HV : Zpos mz * 2 ^ (ez - ebase) = Zpos m * 2 ^ (e - ebase)).
  { rewrite Hmz, <- Z.mul_assoc, <- pow2_split by (rewrite ?fexp_eq in *; unfold ebase in *; lia).
    f_equal. f_equal. lia. }
  cbv zeta. rewrite <- HV.
  apply binary_round_aux_mono.
  - rewrite fexp_eq in *. unfold ebase in *. lia.
  - rewrite Hd. lia.
Qed.

(** The same for a signed exact value [z * 2 ^ e]. *)
Lemma binary_normalize_mono (z e : Z) (sz : bool) :
  ebase <= e ->
  let x := binary_normalize F32.prec F32.emax z e sz in
  let V := z * 2 ^ (e - ebase) in
  wf x = true /\
  (forall f, wf f = true -> sval f <= V -> sval f <= sval x) /\
  (forall f, wf f = true -> V <= sval f -> sval x <= sval f).
Proof.
  intros He. unfold binary_normalize.
  assert (HE : 0 < 2 ^ (e - ebase)) by (apply pow2_pos; lia).
  destruct z as [|m|m].
  - cbn. repeat split; intros; lia.
  - destruct (binary_round_mono false m e He) as (Hwf & Hs & Hlo & Hhi).
    cbv zeta in *. cbn [cond_Zopp] in Hs.
    assert (Hx0 : 0 <= aval (binary_round F32.prec F32.emax false m e)) by (apply Z.abs_nonneg).
    split; [assumption|]. split; intros f Hf Hle; rewrite Hs.
    + destruct (Z_le_gt_dec (sval f) 0); [lia|].
      specialize (Hlo f Hf). unfold aval at 1 2 in Hlo. lia.
    + specialize (Hhi f Hf). unfold aval at 1 3 in Hhi. lia.
  - destruct (binary_round_mono true m e He) as (Hwf & Hs & Hlo & Hhi).
    cbv zeta in *. cbn [cond_Zopp] in Hs.
    assert (Hx0 : 0 <= aval (binary_round F32.prec F32.emax true m e)) by (apply Z.abs_nonneg).
    change (Z.neg m) with (- Zpos m).
    split; [assumption|]. split; intros f Hf Hle; rewrite Hs.
    + specialize (Hhi f Hf). unfold aval at 1 3 in Hhi. lia.
    + destruct (Z_le_gt_dec 0 (sval f)); [lia|].
      specialize (Hlo f Hf). unfold aval at 1 2 in Hlo. lia.
Qed.

(** ** The arithmetic operations on valid finite numbers *)

Lemma fin_wf (x : float) : fin x = true -> wf x = true.
Proof. unfold fin, wf. destruct x; cbn; intros; try discriminate; auto. Qed.

Lemma fin_finite (s : bool) (m : positive) (e : Z) :
  fin (S754_finite s m e) = true -> bounded F32.prec F32.emax m e = true.
Proof. unfold fin. cbn. rewrite andb_true_r. auto. Qed.

Lemma aligned_value (m : positive) (e ez : Z) :
  ebase <= ez -> ez <= e ->
  Zpos (fst (shl_align m e ez)) * 2 ^ (ez - ebase) = Zpos m * 2 ^ (e - ebase).
Proof.
  intros Hb Hle. pose proof (shl_align_spec m e ez) as H.
  destruct (shl_align m e ez) as [mz ez']. destruct H as [He Hm]. cbn [fst].
  rewrite Hm, Z.min_r in * by lia. subst ez'.
  rewrite <- Z.mul_assoc, <- pow2_split by lia. f_equal. f_equal. lia.
Qed.

Lemma cond_Zopp_mul (s : bool) (a b : Z) : cond_Zopp s a * b = cond_Zopp s (a * b).
Proof. destruct s; cbn [cond_Zopp]; lia. Qed.

Lemma add_mono (x y : float) :
  fin x = true -> fin y = true ->
  let z := (x + y)%f32 in
  wf z = true /\
  (forall f, wf f = true -> sval f <= sval x + sval y -> sval f <= sval z) /\
  (forall f, wf f = true -> sval x + sval y <= sval f -> sval z <= sval f).
Proof.
  intros Hx Hy.
  destruct x as [sx|sx| |sx mx ex]; try discriminate;
    destruct y as [sy|sy| |sy my ey]; try discriminate.
  - destruct sx, sy; cbn; repeat split; intros; lia.
  - cbn [F32.add SFadd]. split; [apply fin_wf; assumption|]. cbn [sval]. split; intros; lia.
  - cbn [F32.add SFadd]. split; [apply fin_wf; assumption|]. cbn [sval]. split; intros; lia.
  - pose proof (fin_finite _ _ _ Hx) as Bx. pose proof (fin_finite _ _ _ Hy) as By.
    destruct (bounded_inv _ _ Bx) as (Hex & _). destruct (bounded_inv _ _ By) as (Hey & _).
    unfold F32.add, SFadd. cbv zeta.
    set (ez := Z.min ex ey).
    assert (Hez : ebase <= ez) by (unfold ebase, ez; lia).
    pose proof (binary_normalize_mono
                  (cond_Zopp sx (Zpos (fst (shl_align mx ex ez)))
                   + cond_Zopp sy (Zpos (fst (shl_align my ey ez)))) ez false Hez) as H.
    cbv zeta in H.
    rewrite Z.mul_add_distr_r, !cond_Zopp_mul, !aligned_value in H by (unfold ez; lia).
    exact H.
Qed.

Lemma sub_mono (x y : float) :
  fin x = true -> fin y = true ->
  let z := (x - y)%f32 in
  wf z = true /\
  (forall f, wf f = true -> sval f <= sval x - sval y -> sval f <= sval z) /\
  (forall f, wf f = true -> sval x - sval y <= sval f -> sval z <= sval f).
Proof.
  intros Hx Hy.
  destruct x as [sx|sx| |sx mx ex]; try discriminate;
    destruct y as [sy|sy| |sy my ey]; try discriminate.
  - destruct sx, sy; cbn; repeat split; intros; lia.
  - cbn [F32.sub SFsub]. split.
    + unfold fin, wf in *. cbn in *. assumption.
    + cbn [sval]. destruct sy; cbn [negb cond_Zopp]; split; intros; lia.
  - cbn [F32.sub SFsub]. split; [apply fin_wf; assumption|]. cbn [sval]. split; intros; lia.
  - pose proof (fin_finite _ _ _ Hx) as Bx. pose proof (fin_finite _ _ _ Hy) as By.
    destruct (bounded_inv _ _ Bx) as (Hex & _). destruct (bounded_inv _ _ By) as (Hey & _).
    unfold F32.sub, SFsub. cbv zeta.
    set (ez := Z.min ex ey).
    assert (Hez : ebase <= ez) by (unfold ebase, ez; lia).
    pose proof (binary_normalize_mono
                  (cond_Zopp sx (Zpos (fst (shl_align mx ex ez)))
                   - cond_Zopp sy (Zpos (fst (shl_align my ey ez)))) ez false Hez) as H.
    cbv zeta in H.
    rewrite Z.mul_sub_distr_r, !cond_Zopp_mul, !aligned_value in H by (unfold ez; lia).
    exact H.
Qed.

(** ** Results that stay finite

    A value below the midpoint between the largest float and [2 ^ 128] is
    rounded to a finite float. *)

Lemma max_sval_lt_inf : max_sval + 2 ^ 401 < sval_inf.
Proof. reflexivity. Qed.

Lemma max_sval_pos : 0 < max_sval.
Proof. reflexivity. Qed.

Lemma fin_le_max (x : float) : fin x = true -> aval x <= max_sval.
Proof.
  intros Hx. destruct x as [s|s| |s m e]; try discriminate.
  destruct (bounded_inv m e (fin_finite _ _ _ Hx)) as (He & Hm & _).
  unfold aval. cbn [sval]. unfold ebase, max_sval.
  assert (0 < 2 ^ (e - -298)) by (apply pow2_pos; lia).
  assert (2 ^ (e - -298) <= 2 ^ 402) by (apply Z.pow_le_mono_r; lia).
  destruct s; cbn [cond_Zopp]; nia.
Qed.

Lemma wf_le_max_fin (x : float) : wf x = true -> aval x <= max_sval -> fin x = true.
Proof.
  intros Hx Hle. pose proof max_sval_lt_inf as Hinf.
  assert (0 < 2 ^ 401) by reflexivity.
  destruct x as [s|s| |s m e]; try discriminate; try reflexivity.
  - exfalso. destruct s; cbn in Hle; lia.
  - unfold wf, fin in *. cbn in *. rewrite andb_true_r in *. assumption.
Qed.

Lemma binary_round_aux_no_overflow (s : bool) (m : positive) (e : Z) :
  ebase <= e -> e <= fexp F32.prec F32.emax (Zpos (digits2_pos m) + e) ->
  Zpos m * 2 ^ (e - ebase) < max_sval + 2 ^ 401 ->
  aval (binary_round_aux F32.prec F32.emax s (Zpos m) e loc_Exact) <= max_sval.
Proof.
  intros He HT HV.
  destruct (binary_round_aux_spec s m e HT)
    as (m1 & q & rem & Heq & Hrem & Hm1 & Hex & Hq & Hn & Hdown & Hx).
  pose proof (digits2_pos_bounds m) as [Hdlo Hdhi].
  set (d := Zpos (digits2_pos m)) in *.
  set (T := fexp F32.prec F32.emax (d + e)) in *.
  assert (HTd : T = Z.max (d + e - 24) (-149)) by (subst T; apply fexp_eq).
  assert (HT149 : -149 <= T) by lia.
  destruct (rounded_props s m1 q T Hm1 Hq HT149 Hn) as [Hwf Hsv].
  rewrite <- Hx in Hsv.
  unfold ebase in *.
  assert (HP : 0 < 2 ^ (T - -298)) by (apply pow2_pos; lia).
  assert (HE : 0 < 2 ^ (e - -298)) by (apply pow2_pos; lia).
  assert (HN : 0 < 2 ^ (T - e)) by (apply pow2_pos; lia).
  assert (HPs : 2 ^ (T - -298) = 2 ^ (T - e) * 2 ^ (e - -298)).
  { rewrite <- pow2_split by lia. f_equal. lia. }
  pose proof sval_inf_pos as Hinf.
  unfold aval. rewrite Hsv.
  rewrite aval_cond_Zopp by (apply Z.min_glb; nia).
  etransitivity; [apply Z.le_min_l|].
  unfold max_sval in *.
  destruct (Z_le_gt_dec T 103) as [Hlow|Hhigh].
  - assert (2 ^ (T - -298) <= 2 ^ 401) by (apply Z.pow_le_mono_r; lia).
    assert (m1 * 2 ^ (T - -298) <= 2 ^ 24 * 2 ^ 401) by nia.
    etransitivity; [eassumption|]. apply Z.leb_le. reflexivity.
  - assert (HdT : d + e - 24 = T) by lia.
    assert (HT104 : T = 104).
    { destruct (Z_le_gt_dec T 104) as [|Hbig]; [lia|]. exfalso.
      assert (Hp : 2 ^ 426 <= 2 ^ ((d - 1) + (e - -298))) by (apply Z.pow_le_mono_r; lia).
      rewrite pow2_split in Hp by lia.
      assert (2 ^ 426 <= Zpos m * 2 ^ (e - -298)) by nia.
      assert ((2 ^ 24 - 1) * 2 ^ 402 + 2 ^ 401 < 2 ^ 426) by reflexivity.
      lia. }
    rewrite HT104 in *. change (104 - -298) with 402 in *.
    assert (H402 : 0 < 2 ^ 402) by reflexivity.
    assert (HVq : Zpos m * 2 ^ (e - -298)
                  = q * 2 ^ 402 + rem * 2 ^ (e - -298)).
    { rewrite Heq, HPs. ring. }
    destruct (Z_le_gt_dec q (2 ^ 24 - 2)) as [Hq2|Hq2].
    + apply Z.mul_le_mono_nonneg_r; lia.
    + assert (Hq1 : q = 2 ^ 24 - 1) by lia.
      assert (Hm1q : m1 = q).
      { apply Hdown.
        assert (Hr : rem * 2 ^ (e - -298) < 2 ^ 401) by (rewrite Hq1 in HVq; lia).
        change (2 ^ 402) with (2 * 2 ^ 401) in HPs. nia. }
      rewrite Hm1q, Hq1. lia.
Qed.

Lemma binary_round_no_overflow (s : bool) (m : positive) (e : Z) :
  ebase <= e ->
  Zpos m * 2 ^ (e - ebase) < max_sval + 2 ^ 401 ->
  aval (binary_round F32.prec F32.emax s m e) <= max_sval.
Proof.
  intros He. unfold binary_round.
  pose proof (shl_align_spec m e (fexp F32.prec F32.emax (Zpos (digits2_pos m) + e))) as Hs.
  destruct (shl_align m e _) as [mz ez]. destruct Hs as [Hez Hmz].
  assert (Hd : Zpos (digits2_pos mz) + ez = Zpos (digits2_pos m) + e).
  { rewrite (digits2_pos_shift m mz (e - ez)) by (try assumption; lia). lia. }
  assert (HV : Zpos mz * 2 ^ (ez - ebase) = Zpos m * 2 ^ (e - ebase)).
  { rewrite Hmz, <- Z.mul_assoc, <- pow2_split by (rewrite ?fexp_eq in *; unfold ebase in *; lia).
    f_equal. f_equal. lia. }
  rewrite <- HV.
  apply binary_round_aux_no_overflow.
  - rewrite fexp_eq in *. unfold ebase in *. lia.
  - rewrite Hd. lia.
Qed.

Lemma binary_normalize_no_overflow (z e : Z) (sz : bool) :
  ebase <= e ->
  Z.abs (z * 2 ^ (e - ebase)) < max_sval + 2 ^ 401 ->
  fin (binary_normalize F32.prec F32.emax z e sz) = true.
Proof.
  intros He HV.
  assert (HE : 0 < 2 ^ (e - ebase)) by (apply pow2_pos; lia).
  apply wf_le_max_fin; [apply (binary_normalize_mono z e sz He)|].
  pose proof max_sval_pos.
  unfold binary_normalize. destruct z as [|m|m].
  - unfold aval. cbn [sval Z.abs]. lia.
  - apply binary_round_no_overflow; [assumption|]. lia.
  - apply binary_round_no_overflow; [assumption|]. lia.
Qed.

Lemma add_fin (x y : float) :
  fin x = true -> fin y = true ->
  Z.abs (sval x + sval y) < max_sval + 2 ^ 401 ->
  fin (x + y)%f32 = true.
Proof.
  intros Hx Hy Hb.
  destruct x as [sx|sx| |sx mx ex]; try discriminate;
    destruct y as [sy|sy| |sy my ey]; try discriminate.
  - destruct sx, sy; reflexivity.
  - exact Hy.
  - exact Hx.
  - pose proof (fin_finite _ _ _ Hx) as Bx. pose proof (fin_finite _ _ _ Hy) as By.
    destruct (bounded_inv _ _ Bx) as (Hex & _). destruct (bounded_inv _ _ By) as (Hey & _).
    unfold F32.add, SFadd. cbv zeta.
    set (ez := Z.min ex ey).
    assert (Hez : ebase <= ez) by (unfold ebase, ez; lia).
    apply binary_normalize_no_overflow; [assumption|].
    rewrite Z.mul_add_distr_r, !cond_Zopp_mul, !aligned_value by (unfold ez; lia).
    exact Hb.
Qed.

Lemma sub_fin (x y : float) :
  fin x = true -> fin y = true ->
  Z.abs (sval x - sval y) < max_sval + 2 ^ 401 ->
  fin (x - y)%f32 = true.
Proof.
  intros Hx Hy Hb.
  destruct x as [sx|sx| |sx mx ex]; try discriminate;
    destruct y as [sy|sy| |sy my ey]; try discriminate.
  - destruct sx, sy; reflexivity.
  - unfold fin in *. cbn in *. assumption.
  - exact Hx.
  - pose proof (fin_finite _ _ _ Hx) as Bx. pose proof (fin_finite _ _ _ Hy) as By.
    destruct (bounded_inv _ _ Bx) as (Hex & _). destruct (bounded_inv _ _ By) as (Hey & _).
    unfold F32.sub, SFsub. cbv zeta.
    set (ez := Z.min ex ey).
    assert (Hez : ebase <= ez) by (unfold ebase, ez; lia).
    apply binary_normalize_no_overflow; [assumption|].
    rewrite Z.mul_sub_distr_r, !cond_Zopp_mul, !aligned_value by (unfold ez; lia).
    exact Hb.
Qed.

Lemma of_Z_mono (z : Z) :
  let x := F32.of_Z z in
  wf x = true /\
  (forall f, wf f = true -> sval f <= z * 2 ^ 298 -> sval f <= sval x) /\
  (forall f, wf f = true -> z * 2 ^ 298 <= sval f -> sval x <= sval f).
Proof.
  apply (binary_normalize_mono z 0 false). unfold ebase. lia.
Qed.

Lemma signed_bounds (x : float) (s : bool) (V : Z) :
  0 <= V -> sval x = cond_Zopp s (aval x) ->
  (forall f, wf f = true -> aval f <= V -> aval f <= aval x) ->
  (forall f, wf f = true -> V <= aval f -> aval x <= aval f) ->
  (forall f, wf f = true -> sval f <= cond_Zopp s V -> sval f <= sval x) /\
  (forall f, wf f = true -> cond_Zopp s V <= sval f -> sval x <= sval f).
Proof.
  intros HV Hs Hlo Hhi.
  assert (Hx0 : 0 <= aval x) by (apply Z.abs_nonneg).
  destruct s; cbn [cond_Zopp] in *; split; intros f Hf Hle; rewrite Hs.
  - specialize (Hhi f Hf). unfold aval at 1 3 in Hhi. lia.
  - destruct (Z_le_gt_dec 0 (sval f)); [lia|].
    specialize (Hlo f Hf). unfold aval at 1 2 in Hlo. lia.
  - destruct (Z_le_gt_dec (sval f) 0); [lia|].
    specialize (Hlo f Hf). unfold aval at 1 2 in Hlo. lia.
  - specialize (Hhi f Hf). unfold aval at 1 3 in Hhi. lia.
Qed.

Lemma mul_mono (x y : float) :
  fin x = true -> fin y = true ->
  let z := (x * y)%f32 in
  wf z = true /\
  (forall f, wf f = true -> sval f * 2 ^ 298 <= sval x * sval y -> sval f <= sval z) /\
  (forall f, wf f = true -> sval x * sval y <= sval f * 2 ^ 298 -> sval z <= sval f).
Proof.
  intros Hx Hy.
  assert (H298 : 0 < 2 ^ 298) by (apply pow2_pos; lia).
  destruct x as [sx|sx| |sx mx ex]; try discriminate;
    destruct y as [sy|sy| |sy my ey]; try discriminate;
    try (cbn; repeat split; intros; lia).
  pose proof (fin_finite _ _ _ Hx) as Bx. pose proof (fin_finite _ _ _ Hy) as By.
  destruct (bounded_inv _ _ Bx) as (Hex & Hmx & Hnx).
  destruct (bounded_inv _ _ By) as (Hey & Hmy & Hny).
  unfold F32.mul, SFmul. cbv zeta.
  assert (He : ebase <= ex + ey) by (unfold ebase; lia).
  assert (HT : ex + ey <= fexp F32.prec F32.emax (Zpos (digits2_pos (mx * my)) + (ex + ey))).
  { rewrite fexp_eq.
    destruct (Z_le_gt_dec (ex + ey) (-149)) as [|Hg]; [lia|].
    assert (24 <= Zpos (digits2_pos (mx * my))); [|lia].
    apply digits2_pos_ge. rewrite Pos2Z.inj_mul. change (2 ^ (24 - 1)) with (2 ^ 23).
    destruct (Z_le_gt_dec ex (-149)); [specialize (Hny ltac:(lia))|specialize (Hnx ltac:(lia))]; nia. }
  destruct (binary_round_aux_mono (xorb sx sy) (mx * my) (ex + ey) He HT)
    as (Hwf & Hs & Hlo & Hhi).
  cbv zeta in *. split; [exact Hwf|].
  set (V := Zpos (mx * my) * 2 ^ (ex + ey - ebase)) in *.
  assert (HV0 : 0 <= V) by (unfold V; assert (0 < 2 ^ (ex + ey - ebase)) by (apply pow2_pos; lia); lia).
  destruct (signed_bounds _ (xorb sx sy) V HV0 Hs Hlo Hhi) as [Hl Hu].
  assert (Hprod : sval (S754_finite sx mx ex) * sval (S754_finite sy my ey)
                  = cond_Zopp (xorb sx sy) V * 2 ^ 298).
  { cbn [sval]. unfold V, ebase. rewrite Pos2Z.inj_mul.
    replace (ex + ey - -298) with ((ex - -298) + (ey - -298) - 298) by lia.
    assert (Hsplit : 2 ^ (ex - -298) * 2 ^ (ey - -298)
                     = 2 ^ (ex - -298 + (ey - -298) - 298) * 2 ^ 298).
    { rewrite <- !pow2_split by lia. f_equal. lia. }
    destruct sx, sy; cbn [xorb cond_Zopp]; nia. }
  rewrite Hprod. split; intros f Hf Hle; [apply Hl|apply Hu]; try assumption; nia.
Qed.

Lemma fmodf_mono (x y : float) :
  fin x = true -> fin y = true -> sval y <> 0 ->
  let r := F32.fmodf x y in
  wf r = true /\
  (0 <= sval x -> 0 <= sval r <= aval y) /\
  (sval x <= 0 -> - aval y <= sval r <= 0).
Proof.
  intros Hx Hy Hy0.
  assert (Hay : 0 <= aval y) by (apply Z.abs_nonneg).
  destruct y as [sy|sy| |sy my ey]; try discriminate; [cbn in Hy0; lia|].
  destruct x as [sx|sx| |sx mx ex]; try discriminate.
  - cbn [F32.fmodf]. split; [reflexivity|]. cbn [sval]. lia.
  - pose proof (fin_finite _ _ _ Hx) as Bx. pose proof (fin_finite _ _ _ Hy) as By.
    destruct (bounded_inv _ _ Bx) as (Hex & _). destruct (bounded_inv _ _ By) as (Hey & _).
    unfold F32.fmodf. cbv zeta.
    set (ez := Z.min ex ey).
    assert (Hez : ebase <= ez) by (unfold ebase, ez; lia).
    set (X := Zpos (fst (shl_align mx ex ez))).
    set (Y := Zpos (fst (shl_align my ey ez))).
    assert (HR : 0 <= Z.rem X Y < Y) by (apply Z.rem_bound_pos; unfold X, Y; lia).
    destruct (binary_normalize_mono (cond_Zopp sx (Z.rem X Y)) ez sx Hez) as (Hwf & Hlo & Hhi).
    cbv zeta in *. split; [exact Hwf|].
    assert (HP : 0 < 2 ^ (ez - ebase)) by (apply pow2_pos; lia).
    assert (HY : Y * 2 ^ (ez - ebase) = aval (S754_finite sy my ey)).
    { unfold Y. rewrite aligned_value by (unfold ez; lia).
      unfold aval. cbn [sval]. rewrite aval_cond_Zopp; [reflexivity|].
      assert (0 < 2 ^ (ey - ebase)) by (apply pow2_pos; unfold ebase; lia). lia. }
    assert (Hfy : forall s, wf (S754_finite s my ey) = true)
      by (intros s; unfold wf; cbn; rewrite andb_true_r; exact By).
    assert (Hpos : sval (S754_finite false my ey) = aval (S754_finite sy my ey)).
    { unfold aval. cbn [sval cond_Zopp]. rewrite aval_cond_Zopp; [reflexivity|].
      assert (0 < 2 ^ (ey - ebase)) by (apply pow2_pos; unfold ebase; lia). lia. }
    assert (Hneg : sval (S754_finite true my ey) = - aval (S754_finite sy my ey)).
    { rewrite <- Hpos. reflexivity. }
    assert (Hz : wf (S754_zero false) = true) by reflexivity.
    assert (Hsx : 0 <= sval (S754_finite sx mx ex) -> sx = false).
    { cbn [sval]. assert (0 < 2 ^ (ex - ebase)) by (apply pow2_pos; unfold ebase; lia).
      destruct sx; cbn [cond_Zopp]; [lia|reflexivity]. }
    assert (Hsx' : sval (S754_finite sx mx ex) <= 0 -> sx = true).
    { cbn [sval]. assert (0 < 2 ^ (ex - ebase)) by (apply pow2_pos; unfold ebase; lia).
      destruct sx; cbn [cond_Zopp]; [reflexivity|lia]. }
    split; intros Hs.
    + rewrite (Hsx Hs) in *. cbn [cond_Zopp] in *. split.
      * apply (Hlo (S754_zero false) Hz). cbn [sval]. nia.
      * rewrite <- Hpos. apply (Hhi (S754_finite false my ey) (Hfy false)).
        rewrite Hpos, <- HY. nia.
    + rewrite (Hsx' Hs) in *. cbn [cond_Zopp] in *. split.
      * rewrite <- Hneg. apply (Hlo (S754_finite true my ey) (Hfy true)).
        rewrite Hneg, <- HY. nia.
      * apply (Hhi (S754_zero false) Hz). cbn [sval]. nia.
Qed.

Lemma wf_bounded_fin (x lo hi : float) :
  wf x = true -> fin lo = true -> fin hi = true ->
  sval lo <= sval x <= sval hi -> fin x = true.
Proof.
  intros Hx Hlo Hhi H.
  assert (Hb : forall f, fin f = true -> - sval_inf < sval f < sval_inf).
  { intros f Hf. pose proof sval_inf_pos.
    destruct f as [s|s| |s m e]; try discriminate; cbn [sval]; [lia|].
    pose proof (finite_mag_bounds m e (fin_finite _ _ _ Hf)).
    destruct s; cbn [cond_Zopp]; lia. }
  pose proof (Hb lo Hlo). pose proof (Hb hi Hhi).
  unfold wf, fin in *. destruct x as [s|s| |s m e]; cbn in *; try discriminate; auto.
  destruct s; cbn [cond_Zopp] in *; lia.
Qed.

(** ** The numeric utilities *)

Lemma sval_opp (x : float) : sval (- x)%f32 = - sval x.
Proof. destruct x as [[]|[]| |[] m e]; cbn; lia. Qed.

Lemma wf_opp (x : float) : wf (- x)%f32 = wf x.
Proof. destruct x as [[]|[]| |[] m e]; reflexivity. Qed.

Lemma fin_opp (x : float) : fin (- x)%f32 = fin x.
Proof. destruct x as [[]|[]| |[] m e]; reflexivity. Qed.

Lemma sval_fabsf (x : float) : sval (F32.fabsf x) = Z.abs (sval x).
Proof.
  pose proof sval_inf_pos.
  destruct x as [s|s| |s m e]; cbn [F32.fabsf SFabs sval]; try reflexivity.
  - destruct s; cbn [cond_Zopp]; lia.
  - assert (0 <= Zpos m * 2 ^ (e - ebase))
      by (apply Z.mul_nonneg_nonneg; [lia|apply Z.pow_nonneg; lia]).
    destruct s; cbn [cond_Zopp]; lia.
Qed.

Lemma wf_fabsf (x : float) : wf (F32.fabsf x) = wf x.
Proof. destruct x as [[]|[]| |[] m e]; reflexivity. Qed.

(** The periodic modulo lands in the closed interval [[0, y]]. *)
Lemma fmodf_pos_range (x y : float) :
  fin x = true -> fin y = true -> 0 < sval y ->
  fin (fmodf_pos x y) = true /\ 0 <= sval (fmodf_pos x y) <= sval y.
Proof.
  intros Hx Hy Hy0.
  destruct (fmodf_mono x y Hx Hy ltac:(lia)) as (Hwf & Hp & Hn). cbv zeta in *.
  assert (Hay : aval y = sval y) by (unfold aval; lia). rewrite Hay in *.
  assert (Hb : - sval y <= sval (F32.fmodf x y) <= sval y)
    by (destruct (Z_le_gt_dec 0 (sval x)); [specialize (Hp ltac:(lia))|specialize (Hn ltac:(lia))]; lia).
  assert (Hfo : fin (F32.fmodf x y) = true).
  { apply (wf_bounded_fin _ (- y)%f32 y); try assumption.
    - rewrite fin_opp; assumption.
    - rewrite sval_opp. exact Hb. }
  unfold fmodf_pos. cbv zeta.
  destruct (F32.fmodf x y <? F32.zero)%f32 eqn:Hlt.
  - apply ltb_sval in Hlt; [|assumption|reflexivity]. cbn [sval F32.zero] in Hlt.
    destruct (add_mono (F32.fmodf x y) y Hfo Hy) as (Hwa & Hlo & Hhi). cbv zeta in *.
    assert (H0 : 0 <= sval (F32.fmodf x y + y)%f32).
    { apply (Hlo (S754_zero false)); [reflexivity|]. cbn [sval]. lia. }
    assert (H1 : sval (F32.fmodf x y + y)%f32 <= sval y).
    { apply (Hhi y); [apply fin_wf; assumption|]. lia. }
    split; [|lia].
    apply (wf_bounded_fin _ (S754_zero false) y); try assumption; [reflexivity|].
    cbn [sval]. lia.
  - split; [assumption|].
    assert (~ sval (F32.fmodf x y) < 0).
    { intros Hc. apply (ltb_sval _ F32.zero Hwf) in Hc; [|reflexivity]. congruence. }
    destruct (Z_le_gt_dec 0 (sval x)); [specialize (Hp ltac:(lia))|specialize (Hn ltac:(lia))]; lia.
Qed.

(** The wrap lands in the closed interval [[-h, h]], as long as twice the
    half range is computed exactly and the shifted argument does not
    overflow. *)
Lemma wrap_pm_range (x h : float) :
  fin x = true -> fin h = true -> 0 < sval h ->
  fin (F32.two * h)%f32 = true -> sval (F32.two * h)%f32 = 2 * sval h ->
  fin (x + h)%f32 = true ->
  fin (wrap_pm x h) = true /\ - sval h <= sval (wrap_pm x h) <= sval h.
Proof.
  intros Hx Hh Hh0 H2f H2v Hs.
  unfold wrap_pm.
  destruct (fmodf_pos_range (x + h)%f32 (F32.two * h)%f32 Hs H2f ltac:(lia)) as [Hmf Hm].
  destruct (sub_mono _ h Hmf Hh) as (Hwf & Hlo & Hhi). cbv zeta in *.
  assert (H0 : - sval h <= sval (fmodf_pos (x + h) (F32.two * h) - h)%f32).
  { rewrite <- sval_opp. apply Hlo; [rewrite wf_opp; apply fin_wf; assumption|].
    rewrite sval_opp. lia. }
  assert (H1 : sval (fmodf_pos (x + h) (F32.two * h) - h)%f32 <= sval h).
  { apply Hhi; [apply fin_wf; assumption|]. lia. }
  split; [|lia].
  apply (wf_bounded_fin _ (- h)%f32 h); try assumption.
  - rewrite fin_opp; assumption.
  - rewrite sval_opp. lia.
Qed.

Lemma positive_finite (y : float) :
  fin y = true -> 0 < sval y ->
  exists m e, y = S754_finite false m e /\ bounded F32.prec F32.emax m e = true.
Proof.
  intros Hy H0. destruct y as [s|s| |s m e]; try discriminate.
  pose proof (fin_finite _ _ _ Hy) as B. pose proof (finite_mag_bounds m e B).
  destruct s; cbn [sval cond_Zopp] in H0; [lia|]. eauto.
Qed.

Lemma fin_intro (s : bool) (m : positive) (e : Z) :
  bounded F32.prec F32.emax m e = true -> fin (S754_finite s m e) = true.
Proof. intros H. unfold fin. cbn. rewrite H. reflexivity. Qed.

(** The counts per revolution as a float. *)
Lemma cpr_float (cpr : Z) :
  0 < cpr < 2 ^ 31 ->
  fin (F32.of_Z cpr) = true /\ 2 ^ 298 <= sval (F32.of_Z cpr) <= 2 ^ 329.
Proof.
  intros H. destruct (of_Z_mono cpr) as (Hwf & Hlo & Hhi). cbv zeta in *.
  assert (H298 : 0 < 2 ^ 298) by (apply pow2_pos; lia).
  assert (H1 : 2 ^ 298 <= sval (F32.of_Z cpr)).
  { apply (Hlo F32.one); [reflexivity|]. change (sval F32.one) with (2 ^ 298). nia. }
  assert (H2 : sval (F32.of_Z cpr) <= 2 ^ 329).
  { apply (Hhi (S754_finite false 8388608 8)); [reflexivity|].
    change (sval (S754_finite false 8388608 8)) with (2 ^ 31 * 2 ^ 298). nia. }
  split; [|lia].
  apply (wf_bounded_fin _ F32.one (S754_finite false 8388608 8)); try reflexivity; try assumption.
  split; assumption.
Qed.

(** Halving a normal number and doubling a number are exact. *)
Lemma half_mul_exact (y : float) :
  fin y = true -> 2 ^ 298 <= sval y ->
  fin (F32.half * y)%f32 = true /\ 2 * sval (F32.half * y)%f32 = sval y.
Proof.
  intros Hy H1. assert (H298 : 0 < 2 ^ 298) by (apply pow2_pos; lia).
  destruct (positive_finite y Hy ltac:(lia)) as (m & e & -> & B).
  destruct (bounded_inv m e B) as (He & Hm & Hn).
  cbn [sval cond_Zopp] in H1. unfold ebase in *.
  assert (He23 : -24 < e).
  { destruct (Z_lt_le_dec (-24) e) as [|Hc]; [assumption|exfalso].
    assert (2 ^ (e - -298) <= 2 ^ 274) by (apply Z.pow_le_mono_r; lia).
    change (2 ^ 298) with (2 ^ 24 * 2 ^ 274) in H1.
    assert (0 < 2 ^ 274) by (apply pow2_pos; lia). nia. }
  set (hx := S754_finite false m (e - 1)).
  assert (Bh : bounded F32.prec F32.emax m (e - 1) = true)
    by (apply bounded_intro; [lia|lia|intros; apply Hn; lia]).
  assert (Hhx : fin hx = true) by (apply fin_intro; exact Bh).
  assert (Hv : 2 * sval hx = sval (S754_finite false m e)).
  { cbn [sval cond_Zopp hx]. unfold ebase.
    replace (e - -298) with (1 + (e - 1 - -298)) by lia. rewrite pow2_split by lia.
    change (2 ^ 1) with 2. lia. }
  destruct (mul_mono F32.half (S754_finite false m e) ltac:(reflexivity) Hy) as (Hwf & Hlo & Hhi).
  cbv zeta in *. change (sval F32.half) with (2 ^ 297) in *.
  assert (Hp : 2 ^ 297 * sval (S754_finite false m e) = sval hx * 2 ^ 298).
  { rewrite <- Hv. change (2 ^ 298) with (2 ^ 297 * 2). lia. }
  assert (H0 : sval hx <= sval (F32.half * S754_finite false m e)%f32)
    by (apply Hlo; [apply fin_wf; assumption|lia]).
  assert (H2 : sval (F32.half * S754_finite false m e)%f32 <= sval hx)
    by (apply Hhi; [apply fin_wf; assumption|lia]).
  split; [|lia].
  apply (wf_bounded_fin _ hx hx); try assumption. lia.
Qed.

Lemma two_mul_exact (h : float) :
  fin h = true -> 0 < sval h <= 2 ^ 400 ->
  fin (F32.two * h)%f32 = true /\ sval (F32.two * h)%f32 = 2 * sval h.
Proof.
  intros Hh [H0 H1]. assert (H298 : 0 < 2 ^ 298) by (apply pow2_pos; lia).
  destruct (positive_finite h Hh H0) as (m & e & -> & B).
  destruct (bounded_inv m e B) as (He & Hm & Hn).
  cbn [sval cond_Zopp] in H1. unfold ebase in *.
  assert (exists d, fin d = true /\ sval d = 2 * sval (S754_finite false m e)) as (d & Hd & Hdv).
  { destruct (Z_lt_le_dec (Zpos m) (2 ^ 23)) as [Hsub|Hnorm].
    - assert (e = -149) by (destruct (Z.eq_dec e (-149)); [assumption|specialize (Hn ltac:(lia)); lia]).
      exists (S754_finite false (m~0) e). split.
      + apply fin_intro. apply bounded_intro; [lia| |intros; lia].
        rewrite Pos2Z.inj_xO. change (2 ^ 24) with (2 * 2 ^ 23). lia.
      + cbn [sval cond_Zopp]. rewrite Pos2Z.inj_xO. lia.
    - assert (He' : e <= 79).
      { destruct (Z_le_gt_dec e 79) as [|Hc]; [assumption|exfalso].
        assert (2 ^ 378 <= 2 ^ (e - -298)) by (apply Z.pow_le_mono_r; lia).
        change (2 ^ 400) with (2 ^ 22 * 2 ^ 378) in H1.
        assert (0 < 2 ^ 378) by (apply pow2_pos; lia).
        assert (2 ^ 22 < 2 ^ 23) by reflexivity. nia. }
      exists (S754_finite false m (e + 1)). split.
      + apply fin_intro. apply bounded_intro; [lia|lia|intros; lia].
      + cbn [sval cond_Zopp]. unfold ebase.
        replace (e + 1 - -298) with (1 + (e - -298)) by lia. rewrite pow2_split by lia.
        change (2 ^ 1) with 2. lia. }
  destruct (mul_mono F32.two (S754_finite false m e) ltac:(reflexivity) Hh) as (Hwf & Hlo & Hhi).
  cbv zeta in *. change (sval F32.two) with (2 ^ 299) in *.
  assert (Hp : 2 ^ 299 * sval (S754_finite false m e) = sval d * 2 ^ 298).
  { rewrite Hdv. change (2 ^ 299) with (2 ^ 298 * 2). lia. }
  assert (Ha : sval d <= sval (F32.two * S754_finite false m e)%f32)
    by (apply Hlo; [apply fin_wf; assumption|lia]).
  assert (Hb : sval (F32.two * S754_finite false m e)%f32 <= sval d)
    by (apply Hhi; [apply fin_wf; assumption|lia]).
  split; [|lia].
  apply (wf_bounded_fin _ d d); try assumption. lia.
Qed.

(** The normalised setpoint and the wrapped error of the position loop lie
    in the closed intervals [[0, cpr]] and [[-cpr/2, cpr/2]]. *)
Lemma circular_error_range (cpr : Z) (p pc : float) :
  0 < cpr < 2 ^ 31 ->
  fin p = true -> fin pc = true ->
  let y := F32.of_Z cpr in
  let h := (F32.half * y)%f32 in
  let sp := fmodf_pos p y in
  let err := wrap_pm (sp - pc)%f32 h in
  (F32.zero <=? sp)%f32 = true /\ (sp <=? y)%f32 = true /\
  (- h <=? err)%f32 = true /\ (err <=? h)%f32 = true.
Proof.
  intros Hcpr Hp Hpc y h sp err.
  destruct (cpr_float cpr Hcpr) as [Hy Hyv]. fold y in Hy, Hyv.
  assert (H298 : 0 < 2 ^ 298) by (apply pow2_pos; lia).
  destruct (fmodf_pos_range p y Hp Hy ltac:(lia)) as [Hsp Hspv]. fold sp in Hsp, Hspv.
  destruct (half_mul_exact y Hy ltac:(lia)) as [Hh Hhv]. fold h in Hh, Hhv.
  assert (H329 : 2 ^ 329 <= 2 ^ 400) by (apply Z.pow_le_mono_r; lia).
  destruct (two_mul_exact h Hh ltac:(lia)) as [H2 H2v].
  assert (H401 : 2 ^ 329 < 2 ^ 401) by reflexivity.
  (* the error before wrapping *)
  pose proof (fin_le_max pc Hpc) as Hpcm. unfold aval in Hpcm.
  assert (Hx : fin (sp - pc)%f32 = true) by (apply sub_fin; try assumption; lia).
  set (x := (sp - pc)%f32) in *.
  (* shifted by the half range *)
  pose proof (fin_le_max x Hx) as Hxm. unfold aval in Hxm.
  assert (Hs : fin (x + h)%f32 = true) by (apply add_fin; try assumption; lia).
  destruct (wrap_pm_range x h Hx Hh ltac:(lia) H2 H2v Hs) as [Her Herv]. fold err in Her, Herv.
  repeat split.
  - apply leb_sval; [reflexivity|apply fin_wf; assumption|]. cbn [sval F32.zero]. lia.
  - apply leb_sval; [apply fin_wf; assumption|apply fin_wf; assumption|]. lia.
  - apply leb_sval; [rewrite wf_opp; apply fin_wf; assumption|apply fin_wf; assumption|].
    rewrite sval_opp. lia.
  - apply leb_sval; [apply fin_wf; assumption|apply fin_wf; assumption|]. lia.
Qed.

(** ** Clamping and accumulating *)

Lemma clamp_bidirf_limit_current (x l : float) :
  clamp_bidirf x l = snd (limit_current l x).
Proof.
  unfold clamp_bidirf, limit_current.
  destruct (x >? l)%f32; [destruct (l <? - l)%f32|destruct (x <? - l)%f32]; reflexivity.
Qed.

Lemma clamp_bidirf_bound (x l : float) :
  (F32.zero <=? l)%f32 = true -> F32.is_nan (clamp_bidirf x l) = false ->
  (F32.fabsf (clamp_bidirf x l) <=? l)%f32 = true.
Proof. rewrite clamp_bidirf_limit_current. apply limit_current_bound. Qed.

Lemma clamp_bidirf_nan (x l : float) :
  F32.is_nan (clamp_bidirf x l) = false -> F32.is_nan l = false -> F32.is_nan x = false.
Proof.
  destruct x as [s|s| |s m e]; try reflexivity.
  unfold clamp_bidirf, F32.gtb, F32.ltb, SFltb.
  destruct l as [[]|[]| |[] ml el]; cbn; congruence.
Qed.

(** Clamping to a non-negative bound keeps a value on the side of any
    number within the bound. *)
Lemma clamp_bidirf_mono (v0 s mx : float) :
  wf v0 = true -> wf s = true -> wf mx = true ->
  Z.abs (sval v0) <= sval mx ->
  wf (clamp_bidirf s mx) = true /\
  Z.abs (sval (clamp_bidirf s mx)) <= sval mx /\
  (sval v0 <= sval s -> sval v0 <= sval (clamp_bidirf s mx)) /\
  (sval s <= sval v0 -> sval (clamp_bidirf s mx) <= sval v0).
Proof.
  intros Hv0 Hs Hmx Hb. unfold clamp_bidirf, F32.gtb. change SFltb with F32.ltb.
  assert (Hom : wf (- mx)%f32 = true) by (rewrite wf_opp; assumption).
  destruct (mx <? s)%f32 eqn:H1.
  - apply ltb_sval in H1; try assumption.
    destruct (mx <? - mx)%f32 eqn:H2.
    + apply ltb_sval in H2; try assumption. rewrite sval_opp in H2. lia.
    + repeat split; try assumption; intros; lia.
  - assert (Hle : sval s <= sval mx).
    { destruct (Z_le_gt_dec (sval s) (sval mx)) as [|Hc]; [assumption|].
      assert (sval mx < sval s) as Hc' by lia.
      apply (ltb_sval mx s Hmx Hs) in Hc'. congruence. }
    destruct (s <? - mx)%f32 eqn:H2.
    + apply ltb_sval in H2; try assumption. rewrite sval_opp in H2.
      repeat split; try assumption; rewrite ?sval_opp; lia.
    + assert (Hge : - sval mx <= sval s).
      { destruct (Z_le_gt_dec (- sval mx) (sval s)) as [|Hc]; [assumption|].
        assert (sval s < sval (- mx)%f32) as Hc' by (rewrite sval_opp; lia).
        apply (ltb_sval s _ Hs Hom) in Hc'. congruence. }
      repeat split; try assumption; lia.
Qed.

(** Adding a non-negative (non-positive) number does not decrease
    (increase) a number. *)
Lemma add_up (x d : float) :
  wf x = true -> wf d = true -> 0 <= sval d -> - sval_inf < sval x ->
  wf (x + d)%f32 = true /\ sval x <= sval (x + d)%f32.
Proof.
  intros Hx Hd Hd0 Hx0. pose proof sval_inf_pos as Hi.
  destruct (F32.is_finite x) eqn:Fx, (F32.is_finite d) eqn:Fd.
  - assert (Hfx : fin x = true) by (unfold fin, wf in *; destruct x; cbn in *; try discriminate; auto).
    assert (Hfd : fin d = true) by (unfold fin, wf in *; destruct d; cbn in *; try discriminate; auto).
    destruct (add_mono x d Hfx Hfd) as (Hw & Hlo & _). split; [exact Hw|].
    apply Hlo; [assumption|lia].
  - destruct d as [sd|sd| |sd md ed]; try discriminate.
    destruct sd; [cbn in Hd0; lia|].
    destruct x as [sx|sx| |sx mx ex]; try discriminate. 
    + cbn. split; [reflexivity|lia].
    + cbn [F32.add SFadd]. split; [reflexivity|].
      pose proof (finite_mag_bounds mx ex).
      unfold wf in Hx. cbn in Hx. rewrite andb_true_r in Hx. specialize (H Hx).
      cbn [sval]. destruct sx; cbn [cond_Zopp]; lia.
  - destruct x as [sx|sx| |sx mx ex]; try discriminate.
    destruct sx; [cbn in Hx0; lia|].
    destruct d as [sd|sd| |sd md ed]; try discriminate; cbn; split; try reflexivity; lia.
  - destruct x as [sx|sx| |sx mx ex]; try discriminate.
    destruct sx; [cbn in Hx0; lia|].
    destruct d as [sd|sd| |sd md ed]; try discriminate.
    destruct sd; [cbn in Hd0; lia|]. cbn. split; [reflexivity|lia].
Qed.

Lemma add_down (x d : float) :
  wf x = true -> wf d = true -> sval d <= 0 -> sval x < sval_inf ->
  wf (x + d)%f32 = true /\ sval (x + d)%f32 <= sval x.
Proof.
  intros Hx Hd Hd0 Hx0. pose proof sval_inf_pos as Hi.
  destruct (F32.is_finite x) eqn:Fx, (F32.is_finite d) eqn:Fd.
  - assert (Hfx : fin x = true) by (unfold fin, wf in *; destruct x; cbn in *; try discriminate; auto).
    assert (Hfd : fin d = true) by (unfold fin, wf in *; destruct d; cbn in *; try discriminate; auto).
    destruct (add_mono x d Hfx Hfd) as (Hw & _ & Hhi). split; [exact Hw|].
    apply Hhi; [assumption|lia].
  - destruct d as [sd|sd| |sd md ed]; try discriminate.
    destruct sd; [|cbn in Hd0; lia].
    destruct x as [sx|sx| |sx mx ex]; try discriminate.
    + cbn. split; [reflexivity|lia].
    + cbn [F32.add SFadd]. split; [reflexivity|].
      pose proof (finite_mag_bounds mx ex).
      unfold wf in Hx. cbn in Hx. rewrite andb_true_r in Hx. specialize (H Hx).
      cbn [sval]. destruct sx; cbn [cond_Zopp]; lia.
  - destruct x as [sx|sx| |sx mx ex]; try discriminate.
    destruct sx; [|cbn in Hx0; lia].
    destruct d as [sd|sd| |sd md ed]; try discriminate; cbn; split; try reflexivity; lia.
  - destruct x as [sx|sx| |sx mx ex]; try discriminate.
    destruct sx; [|cbn in Hx0; lia].
    destruct d as [sd|sd| |sd md ed]; try discriminate.
    destruct sd; [|cbn in Hd0; lia]. cbn. split; [reflexivity|lia].
Qed.

(** One entry of the map through one adaptation step: with a finite
    non-negative bound, an entry that is a number within the bound stays so,
    and moves in the direction of its increment. *)
Lemma entry_step (v0 inc mx : float) :
  fin mx = true -> wf v0 = true -> wf inc = true ->
  Z.abs (sval v0) <= sval mx ->
  let v := clamp_bidirf (v0 + inc)%f32 mx in
  wf v = true /\ Z.abs (sval v) <= sval mx /\
  (0 <= sval inc -> sval v0 <= sval v) /\
  (sval inc <= 0 -> sval v <= sval v0).
Proof.
  intros Hmx Hv0 Hinc Hb v. pose proof sval_inf_pos as Hi.
  assert (Hmi : sval mx < sval_inf).
  { destruct mx as [s|s| |s m e]; try discriminate; cbn [sval]; [lia|].
    pose proof (finite_mag_bounds m e (fin_finite _ _ _ Hmx)).
    destruct s; cbn [cond_Zopp]; lia. }
  assert (Hwm : wf mx = true) by (apply fin_wf; assumption).
  assert (Hw : wf (v0 + inc)%f32 = true).
  { destruct (Z_le_gt_dec 0 (sval inc)) as [Hup|Hdn].
    - apply (add_up v0 inc Hv0 Hinc Hup ltac:(lia)).
    - apply (add_down v0 inc Hv0 Hinc ltac:(lia) ltac:(lia)). }
  destruct (clamp_bidirf_mono v0 (v0 + inc)%f32 mx Hv0 Hw Hwm Hb) as (Hwv & Hbv & Hu & Hd).
  split; [exact Hwv|]. split; [exact Hbv|]. split; intros Hs.
  - apply Hu. apply (add_up v0 inc Hv0 Hinc Hs ltac:(lia)).
  - apply Hd. apply (add_down v0 inc Hv0 Hinc Hs ltac:(lia)).
Qed.

Lemma entry_step_twice (v0 inc0 inc1 mx : float) :
  fin mx = true -> wf v0 = true -> wf inc0 = true -> wf inc1 = true ->
  Z.abs (sval v0) <= sval mx ->
  let v := clamp_bidirf (clamp_bidirf ((v0 + inc0) + inc1)%f32 mx) mx in
  (0 <= sval inc0 -> 0 <= sval inc1 ->
   wf v = true /\ Z.abs (sval v) <= sval mx /\ sval v0 <= sval v) /\
  (sval inc0 <= 0 -> sval inc1 <= 0 ->
   wf v = true /\ Z.abs (sval v) <= sval mx /\ sval v <= sval v0).
Proof.
  intros Hmx Hv0 Hi0 Hi1 Hb v. pose proof sval_inf_pos as Hi.
  assert (Hmi : sval mx < sval_inf).
  { destruct mx as [s|s| |s m e]; try discriminate; cbn [sval]; [lia|].
    pose proof (finite_mag_bounds m e (fin_finite _ _ _ Hmx)).
    destruct s; cbn [cond_Zopp]; lia. }
  assert (Hwm : wf mx = true) by (apply fin_wf; assumption).
  split; intros H0 H1.
  - destruct (add_up v0 inc0 Hv0 Hi0 H0 ltac:(lia)) as [Hw1 Hle1].
    destruct (add_up _ inc1 Hw1 Hi1 H1 ltac:(lia)) as [Hw2 Hle2].
    destruct (clamp_bidirf_mono v0 _ mx Hv0 Hw2 Hwm Hb) as (Hwc & Hbc & Hu & _).
    destruct (clamp_bidirf_mono v0 _ mx Hv0 Hwc Hwm Hb) as (Hwv & Hbv & Hu' & _).
    repeat split; try assumption. apply Hu'. apply Hu. lia.
  - destruct (add_down v0 inc0 Hv0 Hi0 H0 ltac:(lia)) as [Hw1 Hle1].
    destruct (add_down _ inc1 Hw1 Hi1 H1 ltac:(lia)) as [Hw2 Hle2].
    destruct (clamp_bidirf_mono v0 _ mx Hv0 Hw2 Hwm Hb) as (Hwc & Hbc & _ & Hd).
    destruct (clamp_bidirf_mono v0 _ mx Hv0 Hwc Hwm Hb) as (Hwv & Hbv & _ & Hd').
    repeat split; try assumption. apply Hd'. apply Hd. lia.
Qed.

(** The map after an adaptation step, entry by entry. *)
Lemma cogmap_adapt_entries (m : list float) (k : Cog_index) (corr mx m0 m1 : float)
    (m' : list float) :
  arr_get m (idx k) = Some m0 -> arr_get m (idx1 k) = Some m1 ->
  cogmap_adapt m k corr mx = Some m' ->
  length m' = length m /\
  (forall j, j <> idx k -> j <> idx1 k -> arr_get m' j = arr_get m j) /\
  (idx k <> idx1 k ->
   arr_get m' (idx k) = Some (clamp_bidirf (m0 + (F32.one - frac k) * corr)%f32 mx) /\
   arr_get m' (idx1 k) = Some (clamp_bidirf (m1 + frac k * corr)%f32 mx)) /\
  (idx k = idx1 k ->
   arr_get m' (idx k)
   = Some (clamp_bidirf
             (clamp_bidirf ((m0 + (F32.one - frac k) * corr) + frac k * corr)%f32 mx) mx)).
Proof.
  intros H0 H1 Ha.
  pose proof (arr_get_Some_bounds _ _ _ H0) as B0.
  pose proof (arr_get_Some_bounds _ _ _ H1) as B1.
  destruct (Z.eq_dec (idx k) (idx1 k)) as [He|Hne].
  - rewrite (cogmap_adapt_same m k corr mx m0 H0 He) in Ha. injection Ha as <-.
    split; [rewrite !length_arr_set; reflexivity|]. split; [|split].
    + intros j Hj _. rewrite !arr_get_set_other by congruence. reflexivity.
    + intros Hc. contradiction.
    + intros _. apply arr_get_set_same. rewrite !length_arr_set. assumption.
  - rewrite (cogmap_adapt_distinct m k corr mx m0 m1 H0 H1 Hne) in Ha. injection Ha as <-.
    split; [rewrite !length_arr_set; reflexivity|]. split; [|split].
    + intros j Hj0 Hj1. rewrite !arr_get_set_other by congruence. reflexivity.
    + intros _. split.
      * rewrite arr_get_set_other by congruence.
        apply arr_get_set_same. rewrite !length_arr_set. assumption.
      * apply arr_get_set_same. rewrite !length_arr_set. assumption.
    + intros Hc. contradiction.
Qed.

Local Open Scope f32_scope.

(** ** One cycle of [update] *)

Ltac break_if :=
  match goal with
  | |- context [if ?b then _ else _] => destruct b eqn:?
  | H : context [if ?b then _ else _] |- _ => destruct b eqn:?
  end.

Ltac break_match :=
  match goal with
  | H : context [match ?x with _ => _ end] |- _ => destruct x eqn:?
  | |- context [match ?x with _ => _ end] => destruct x eqn:?
  end.

Lemma mode_geb_position_velocity (m : Control_mode_t) :
  mode_geb m CTRL_MODE_POSITION_CONTROL = true ->
  mode_geb m CTRL_MODE_VELOCITY_CONTROL = true.
Proof. destruct m; simpl; auto. Qed.

Lemma mode_ltb_geb (m1 m2 : Control_mode_t) : mode_ltb m1 m2 = negb (mode_geb m1 m2).
Proof.
  unfold mode_ltb, mode_geb. rewrite Z.geb_leb, Z.ltb_antisym. reflexivity.
Qed.

Section Properties.

Variable K : Constants.

  (** What the setpoint part of the cycle leaves alone. *)
Lemma setpoint_stage_frame (a : Axis) (c : Controller) (pe : float) :
    let c1 := fst (setpoint_stage K a c pe) in
    error_ c1 = error_ c /\
    vel_integrator_current_ c1 = vel_integrator_current_ c /\
    cogmap_current_ c1 = cogmap_current_ c /\
    cogmap_correction_pwr_ c1 = cogmap_correction_pwr_ c /\
    (exists m, config_ c1 = set_control_mode m (config_ c) /\
               mode_geb m CTRL_MODE_VELOCITY_CONTROL
               = mode_geb (control_mode (config_ c)) CTRL_MODE_VELOCITY_CONTROL).
Proof.
    unfold setpoint_stage, trajectory_step, ramp_step, position_step,
      position_error.
    destruct c as [[m pg vg vig vl vlt vre vrr sic cm cs cig cmc] e ps vs vi cu vrt gp ts cc ccp].
    destruct m; cbn -[F32.add F32.sub F32.mul F32.gtb F32.ltb fmodf_pos wrap_pm
                       clamp_bidirf limit_velocity traj_time F32.of_Z];
      repeat (break_if; cbn -[F32.add F32.sub F32.mul F32.gtb F32.ltb fmodf_pos wrap_pm
                       clamp_bidirf limit_velocity traj_time F32.of_Z]);
      repeat split; try reflexivity; eexists; split; reflexivity.
Qed.

  (** A call that returned [true] went through the current part of the
      cycle, the limiter and the integrator update. *)
Lemma update_true_inv (a : Axis) (c : Controller) (pe ve : float) (o : bool)
      (c' : Controller) (a' : Axis) (w : option float) :
    update K a c pe ve o = Returned true c' a' w ->
    exists c2 vig v_err Iq,
      overspeed (fst (setpoint_stage K a c pe)) ve = false /\
      current_stage K a (fst (setpoint_stage K a c pe)) (vel_demand K a c pe) ve
      = Some (c2, vig, v_err, Iq) /\
      c' = integrator_step K c2 (fst (limit_current (effective_current_lim a) Iq)) vig v_err /\
      a' = a /\
      w = (if o then Some (snd (limit_current (effective_current_lim a) Iq)) else None).
Proof.
    unfold update, vel_demand.
    destruct (setpoint_stage K a c pe) as [c1 vd]; simpl.
    destruct (overspeed c1 ve); [discriminate|].
    destruct (current_stage K a c1 vd ve) as [[[[c2 vig] v_err] Iq]|]; [|discriminate].
    destruct (limit_current (effective_current_lim a) Iq) as [limited Iq'] eqn:Hl.
    intros H; inversion H; subst. exists c2, vig, v_err, Iq.
    rewrite Hl. simpl. repeat split; reflexivity.
Qed.

  (** Conversely, the cycle returns [true] whenever it is not aborted and
      its table accesses are defined. *)
Lemma update_true_intro (a : Axis) (c : Controller) (pe ve : float) (o : bool)
      (c2 : Controller) (vig v_err Iq : float) :
    overspeed (fst (setpoint_stage K a c pe)) ve = false ->
    current_stage K a (fst (setpoint_stage K a c pe)) (vel_demand K a c pe) ve
    = Some (c2, vig, v_err, Iq) ->
    update K a c pe ve o
    = Returned true
        (integrator_step K c2 (fst (limit_current (effective_current_lim a) Iq)) vig v_err)
        a (if o then Some (snd (limit_current (effective_current_lim a) Iq)) else None).
Proof.
    unfold update, vel_demand.
    destruct (setpoint_stage K a c pe) as [c1 vd]; simpl.
    intros -> ->.
    destruct (limit_current (effective_current_lim a) Iq) as [limited Iq']; reflexivity.
Qed.

Lemma accumulated_current_spec (a : Axis) (c : Controller) (pe ve : float)
      (c2 : Controller) (vig v_err Iq : float) :
    current_stage K a (fst (setpoint_stage K a c pe)) (vel_demand K a c pe) ve
    = Some (c2, vig, v_err, Iq) ->
    accumulated_current K a c pe ve = Some Iq /\
    clamp_fires K a c pe ve = Some (fst (limit_current (effective_current_lim a) Iq)).
Proof.
    unfold clamp_fires, accumulated_current, vel_demand.
    destruct (setpoint_stage K a c pe) as [c1 vd]; simpl.
    intros ->. auto.
Qed.

  (** The current part of the cycle, spelled out. *)
Lemma current_stage_inv (a : Axis) (c : Controller) (vd ve : float)
      (c2 : Controller) (vig v_err Iq : float) :
    current_stage K a c vd ve = Some (c2, vig, v_err, Iq) ->
    exists cog,
      interpolated_cogging a c = Some cog /\
      vig = snd (scheduled_gains a c) /\
      v_err = vd - ve /\
      Iq = (if mode_geb (control_mode (config_ c)) CTRL_MODE_VELOCITY_CONTROL
            then (current_setpoint_ c + cog) + fst (scheduled_gains a c) * v_err
            else current_setpoint_ c + cog)
           + vel_integrator_current_ c /\
      control_mode (config_ c2) = control_mode (config_ c) /\
      vel_integrator_current_ c2 = vel_integrator_current_ c /\
      error_ c2 = error_ c /\
      pos_setpoint_ c2 = pos_setpoint_ c /\
      vel_setpoint_ c2 = vel_setpoint_ c /\
      current_setpoint_ c2 = current_setpoint_ c /\
      cogmap_current_ c2 = cog /\
      (mode_geb (control_mode (config_ c)) CTRL_MODE_VELOCITY_CONTROL = false ->
       c2 = with_cogmap_current cog c).
Proof.
    unfold current_stage, interpolated_cogging, velocity_step.
    destruct (scheduled_gains a c) as [vg vig0].
    destruct (cogmap_index a c) as [k|]; [|discriminate].
    destruct (arr_get (cogmap (config_ c)) (idx k)) as [m0|]; [|discriminate].
    destruct (arr_get (cogmap (config_ c)) (idx1 k)) as [m1|]; [|discriminate].
    cbn [config_ with_cogmap_current cogmap_current_ control_mode].
    destruct (mode_geb (control_mode (config_ c)) CTRL_MODE_VELOCITY_CONTROL).
    - destruct (cogmap_adapt _ _ _ _) as [m'|]; [|discriminate].
      intros H; inversion H; subst; clear H.
      eexists; repeat split; try reflexivity. discriminate.
    - intros H; inversion H; subst; clear H.
      eexists; repeat split; reflexivity.
Qed.

Lemma current_stage_defined (a : Axis) (c : Controller) (vd ve : float) :
    anticogging_defined a c = true ->
    exists c2 Iq,
      current_stage K a c vd ve = Some (c2, snd (scheduled_gains a c), vd - ve, Iq).
Proof.
    unfold anticogging_defined, current_stage, interpolated_cogging, velocity_step.
    destruct (scheduled_gains a c) as [vg vig0].
    destruct (cogmap_index a c) as [k|]; [|discriminate].
    destruct (arr_get (cogmap (config_ c)) (idx k)) as [m0|] eqn:H0; [|discriminate].
    destruct (arr_get (cogmap (config_ c)) (idx1 k)) as [m1|] eqn:H1; [|discriminate].
    intros _. cbn [config_ with_cogmap_current cogmap_current_ control_mode].
    destruct (mode_geb (control_mode (config_ c)) CTRL_MODE_VELOCITY_CONTROL).
    - destruct (cogmap_adapt_defined (cogmap (config_ c)) k
                  (cogmap_integrator_gain (config_ c) * (vd - ve)
                   * current_meas_period_of K)
                  (cogmap_max_current (config_ c)) m0 m1 H0 H1) as [m' Hm].
      rewrite Hm. eauto.
    - eauto.
Qed.

  (** The table accesses depend on the map only, which the setpoint part
      leaves alone. *)
Lemma interpolated_cogging_stage (a : Axis) (c : Controller) (pe : float) :
    interpolated_cogging a (fst (setpoint_stage K a c pe)) = interpolated_cogging a c.
Proof.
    destruct (setpoint_stage_frame a c pe) as (_ & _ & _ & _ & m & Hc & _).
    unfold interpolated_cogging, cogmap_index, cogmap_idxf. rewrite Hc. reflexivity.
Qed.

Lemma scheduled_gains_stage (a : Axis) (c : Controller) (pe : float) :
    scheduled_gains a (fst (setpoint_stage K a c pe)) = scheduled_gains a c.
Proof.
    destruct (setpoint_stage_frame a c pe) as (_ & _ & _ & _ & m & Hc & _).
    unfold scheduled_gains. rewrite Hc. reflexivity.
Qed.

Lemma overspeed_stage (a : Axis) (c : Controller) (pe ve : float) :
    overspeed (fst (setpoint_stage K a c pe)) ve = overspeed c ve.
Proof.
    destruct (setpoint_stage_frame a c pe) as (_ & _ & _ & _ & m & Hc & _).
    unfold overspeed. rewrite Hc. reflexivity.
Qed.

  (** The aborted cycle. *)
Lemma update_overspeed (a : Axis) (c : Controller) (pe ve : float) (o : bool) :
    overspeed c ve = true ->
    update K a c pe ve o
    = Returned false
        (with_error (Z.lor (error_ c) (ERROR_OVERSPEED_of K)) (fst (setpoint_stage K a c pe)))
        (with_axis_error (Z.lor (axis_error_ a) (ERROR_CONTROLLER_FAILED_of K)) a)
        None.
Proof.
    intros H. rewrite <- (overspeed_stage a c pe) in H. unfold update.
    destruct (setpoint_stage_frame a c pe) as (He & _).
    destruct (setpoint_stage K a c pe) as [c1 vd]; simpl in *.
    rewrite H. unfold with_error. rewrite He. reflexivity.
Qed.

  (** The cycle that is not aborted. *)
Lemma update_proceeds (a : Axis) (c : Controller) (pe ve : float) (o : bool) :
    overspeed c ve = false ->
    anticogging_defined a c = true ->
    exists c' w,
      update K a c pe ve o = Returned true c' a w /\ error_ c' = error_ c.
Proof.
    intros Hov Hd.
    unfold anticogging_defined in Hd. rewrite <- (interpolated_cogging_stage a c pe) in Hd.
    destruct (current_stage_defined a (fst (setpoint_stage K a c pe))
                (vel_demand K a c pe) ve Hd) as (c2 & Iq & Hc).
    rewrite <- (overspeed_stage a c pe) in Hov.
    rewrite (update_true_intro _ _ _ _ o _ _ _ _ Hov Hc).
    do 2 eexists; split; [reflexivity|].
    destruct (current_stage_inv _ _ _ _ _ _ _ _ Hc) as (cog & _ & _ & _ & _ & _ & _ & He & _).
    destruct (setpoint_stage_frame a c pe) as (He1 & _).
    rewrite <- He1, <- He. unfold integrator_step.
    repeat break_if; reflexivity.
Qed.

Lemma update_never_false_without_overspeed
      (a : Axis) (c : Controller) (pe ve : float) (o : bool)
      (ok : bool) (c' : Controller) (a' : Axis) (w : option float) :
    overspeed c ve = false ->
    update K a c pe ve o = Returned ok c' a' w ->
    ok = true /\ error_ c' = error_ c /\ a' = a.
Proof.
    intros Hov H.
    assert (Hok : ok = true).
    { revert H. unfold update. rewrite <- (overspeed_stage a c pe) in Hov.
      destruct (setpoint_stage K a c pe) as [c1 vd]; simpl in *. rewrite Hov.
      destruct (current_stage K a c1 vd ve) as [[[[c2 vig] v_err] Iq]|]; [|discriminate].
      destruct (limit_current _ _). intros H; inversion H; reflexivity. }
    subst ok. split; [reflexivity|].
    destruct (update_true_inv _ _ _ _ _ _ _ _ H)
      as (c2 & vig & v_err & Iq & _ & Hc & Hc' & Ha & _).
    destruct (current_stage_inv _ _ _ _ _ _ _ _ Hc) as (cog & _ & _ & _ & _ & _ & _ & He & _).
    destruct (setpoint_stage_frame a c pe) as (He1 & _).
    split; [|assumption]. subst c'. rewrite <- He1, <- He. unfold integrator_step.
    repeat break_if; reflexivity.
Qed.

Lemma leb_gtb_false (x y : float) : (x <=? y) = true -> (x >? y) = false.
Proof.
  unfold F32.leb, F32.gtb, SFleb, SFltb. rewrite (SFcompare_antisym x y).
  destruct (SFcompare x y) as [[]|]; simpl; congruence.
Qed.

Lemma eqb_gtb_false (x y : float) : F32.eqb x y = true -> (x >? y) = false.
Proof.
  unfold F32.eqb, F32.gtb, SFeqb, SFltb. rewrite (SFcompare_antisym x y).
  destruct (SFcompare x y) as [[]|]; simpl; congruence.
Qed.

Lemma Z_land_lor_flag (e flag : Z) : Z.land (Z.lor e flag) flag = flag.
Proof.
  apply Z.bits_inj'. intros n Hn. rewrite Z.land_spec, Z.lor_spec.
  destruct (Z.testbit e n), (Z.testbit flag n); reflexivity.
Qed.

(** C2.  With a positive tolerance, a velocity estimate whose magnitude
    exceeds [vel_limit_tolerance * vel_limit] makes [update] return
    [false], set the overspeed bit in the controller's error set (the bits
    already there stay) and raise the controller-failed flag on the axis;
    an estimate within that bound lets the cycle proceed and return
    [true].  With a zero tolerance [update] never returns [false] and
    touches neither error set. *)
Theorem update_overspeed_check
    (a : Axis) (c : Controller) (pe ve : float) (o : bool) :
  let tol := vel_limit_tolerance (config_ c) in
  let lim := vel_limit (config_ c) in
  ((tol >? F32.zero) = true -> (F32.fabsf ve >? tol * lim) = true ->
   exists c' a',
     update K a c pe ve o = Returned false c' a' None /\
     error_ c' = Z.lor (error_ c) (ERROR_OVERSPEED_of K) /\
     Z.land (error_ c') (ERROR_OVERSPEED_of K) = ERROR_OVERSPEED_of K /\
     axis_error_ a' = Z.lor (axis_error_ a) (ERROR_CONTROLLER_FAILED_of K) /\
     Z.land (axis_error_ a') (ERROR_CONTROLLER_FAILED_of K) = ERROR_CONTROLLER_FAILED_of K)
  /\
  ((tol >? F32.zero) = true -> (F32.fabsf ve <=? tol * lim) = true ->
   anticogging_defined a c = true ->
   exists c' w,
     update K a c pe ve o = Returned true c' a w /\ error_ c' = error_ c)
  /\
  (F32.eqb tol F32.zero = true ->
   (forall ok c' a' w,
      update K a c pe ve o = Returned ok c' a' w ->
      ok = true /\ error_ c' = error_ c /\ a' = a) /\
   (anticogging_defined a c = true ->
    exists c' w, update K a c pe ve o = Returned true c' a w /\ error_ c' = error_ c)).
Proof.
  intros tol lim. split; [|split].
  - intros Ht Hv.
    assert (Hov : overspeed c ve = true).
    { unfold overspeed. fold tol lim. rewrite Ht, Hv. reflexivity. }
    rewrite (update_overspeed a c pe ve o Hov).
    do 2 eexists. split; [reflexivity|]. cbn.
    repeat split; try reflexivity; apply Z_land_lor_flag.
  - intros Ht Hv Hd. apply update_proceeds; [|assumption].
    unfold overspeed. fold tol lim. rewrite (leb_gtb_false _ _ Hv).
    apply andb_false_r.
  - intros Ht.
    assert (Hov : overspeed c ve = false).
    { unfold overspeed. fold tol. rewrite (eqb_gtb_false _ _ Ht). reflexivity. }
    split.
    + intros ok c' a' w H. eapply update_never_false_without_overspeed; eassumption.
    + intros Hd. apply update_proceeds; assumption.
Qed.

(** C1 (as amended).  A call that returns [true] and writes a current
      that is a number writes one whose magnitude is at most the motor's
      effective current limit, provided that limit is non-negative. *)
Theorem update_output_within_current_limit
      (a : Axis) (c : Controller) (pe ve : float) (o : bool)
      (c' : Controller) (a' : Axis) (out : float) :
    update K a c pe ve o = Returned true c' a' (Some out) ->
    (F32.zero <=? effective_current_lim a) = true ->
    F32.is_nan out = false ->
    (F32.fabsf out <=? effective_current_lim a) = true.
Proof.
    intros H Hl Hn.
    destruct (update_true_inv _ _ _ _ _ _ _ _ H) as (c2 & vig & v_err & Iq & _ & _ & _ & _ & Hw).
    destruct o; [|discriminate]. inversion Hw; subst.
    apply limit_current_bound; assumption.
Qed.

Lemma limit_current_unclamped (Ilim Iq : float) :
  fst (limit_current Ilim Iq) = false -> snd (limit_current Ilim Iq) = Iq.
Proof.
  unfold limit_current. destruct (Iq >? Ilim).
  - destruct (Ilim <? - Ilim); simpl; congruence.
  - destruct (Iq <? - Ilim); simpl; congruence.
Qed.

Lemma add_zero_same_value (x i : float) :
  same_value (x + i) ((x + F32.zero) + i).
Proof.
  destruct x as [sx|sx| |sx mx ex]; try (left; reflexivity).
  - destruct sx, i as [[]|[]| |[] mi ei]; try (left; reflexivity);
      right; do 2 eexists; split; reflexivity.
Qed.

Lemma mode_stage (a : Axis) (c : Controller) (pe : float) :
  mode_geb (control_mode (config_ (fst (setpoint_stage K a c pe)))) CTRL_MODE_VELOCITY_CONTROL
  = mode_geb (control_mode (config_ c)) CTRL_MODE_VELOCITY_CONTROL.
Proof.
  destruct (setpoint_stage_frame a c pe) as (_ & _ & _ & _ & m & Hc & Hm).
  rewrite Hc. exact Hm.
Qed.

(** The accumulated current of a cycle that returns [true]. *)
Lemma update_true_accumulated (a : Axis) (c : Controller) (pe ve : float) (o : bool)
    (c' : Controller) (a' : Axis) (w : option float) :
  update K a c pe ve o = Returned true c' a' w ->
  exists cog Iq limited,
    interpolated_cogging a c = Some cog /\
    accumulated_current K a c pe ve = Some Iq /\
    clamp_fires K a c pe ve = Some limited /\
    limited = fst (limit_current (effective_current_lim a) Iq) /\
    Iq = (if mode_geb (control_mode (config_ c)) CTRL_MODE_VELOCITY_CONTROL
          then (feed_forward K a c pe + cog)
               + fst (scheduled_gains a c) * (vel_demand K a c pe - ve)
          else feed_forward K a c pe + cog)
         + vel_integrator_current_ c /\
    w = (if o then Some (snd (limit_current (effective_current_lim a) Iq)) else None) /\
    cogmap_current_ c' = cog /\
    vel_integrator_current_ c'
    = (if mode_ltb (control_mode (config_ c)) CTRL_MODE_VELOCITY_CONTROL then F32.zero
       else if limited then vel_integrator_current_ c * F32.lit_0_99
       else vel_integrator_current_ c
            + (snd (scheduled_gains a c) * current_meas_period_of K)
              * (vel_demand K a c pe - ve)).
Proof.
  intros H.
  destruct (update_true_inv _ _ _ _ _ _ _ _ H)
    as (c2 & vig & v_err & Iq & _ & Hc & Hc' & _ & Hw).
  destruct (accumulated_current_spec _ _ _ _ _ _ _ _ Hc) as (Hacc & Hcl).
  destruct (current_stage_inv _ _ _ _ _ _ _ _ Hc)
    as (cog & Hcog & Hvig & Hverr & HIq & Hmode & Hint & _ & _ & _ & _ & Hcc & _).
  destruct (setpoint_stage_frame a c pe) as (_ & Hi1 & _).
  rewrite interpolated_cogging_stage in Hcog.
  rewrite scheduled_gains_stage in Hvig, HIq.
  rewrite mode_stage in HIq. rewrite Hi1 in HIq.
  exists cog, Iq, (fst (limit_current (effective_current_lim a) Iq)).
  repeat split; try assumption.
  - subst v_err. exact HIq.
  - subst c'. unfold integrator_step. repeat break_if; assumption.
  - subst c'. unfold integrator_step.
    rewrite !mode_ltb_geb, Hmode, mode_stage.
    destruct (mode_geb (control_mode (config_ c)) CTRL_MODE_VELOCITY_CONTROL); simpl.
    + destruct (fst (limit_current (effective_current_lim a) Iq)); simpl;
        rewrite Hint, Hi1; subst; reflexivity.
    + reflexivity.
Qed.

(** C3.  When [update] returns [true] and neither clamp of the current
    limiter fires, the current written is the sum, taken in this order, of
    the current feed-forward, the interpolated cogging value, the
    proportional term [vel_gain * (vel_demand - vel_estimate)] with the
    scheduled gain (present from velocity mode upwards; below it the sum
    is the same number as with a zero term) and the integrator as it was
    before the call. *)
Theorem update_unclamped_output_sum
    (a : Axis) (c : Controller) (pe ve : float)
    (c' : Controller) (a' : Axis) (out : float) :
  update K a c pe ve true = Returned true c' a' (Some out) ->
  clamp_fires K a c pe ve = Some false ->
  exists cog,
    interpolated_cogging a c = Some cog /\
    let p := fst (scheduled_gains a c) * (vel_demand K a c pe - ve) in
    let velocity := mode_geb (control_mode (config_ c)) CTRL_MODE_VELOCITY_CONTROL in
    out = (if velocity
           then (feed_forward K a c pe + cog) + p
           else feed_forward K a c pe + cog)
          + vel_integrator_current_ c /\
    same_value out
      (((feed_forward K a c pe + cog) + (if velocity then p else F32.zero))
       + vel_integrator_current_ c).
Proof.
  intros H Hcl.
  destruct (update_true_accumulated _ _ _ _ _ _ _ _ H)
    as (cog & Iq & limited & Hcog & _ & Hcl' & Hlim & HIq & Hw & _).
  rewrite Hcl in Hcl'. injection Hcl' as Hl. rewrite <- Hl in Hlim. symmetry in Hlim.
  rewrite (limit_current_unclamped _ _ Hlim) in Hw. injection Hw as Hw. subst out.
  exists cog. split; [assumption|]. cbv zeta. split; [exact HIq|].
  rewrite HIq.
  destruct (mode_geb (control_mode (config_ c)) CTRL_MODE_VELOCITY_CONTROL).
  - left; reflexivity.
  - apply add_zero_same_value.
Qed.

(** C5.  After a call that is not aborted: from velocity mode upwards the
    integrator is its previous value times [0.99f] if a clamp of the
    current limiter fired, and otherwise its previous value plus
    [(vel_integrator_gain * current_meas_period) * (vel_demand - vel_estimate)]
    with the scheduled gain; below velocity mode it is zero. *)
Theorem update_integrator
    (a : Axis) (c : Controller) (pe ve : float) (o : bool)
    (c' : Controller) (a' : Axis) (w : option float) :
  update K a c pe ve o = Returned true c' a' w ->
  let m := control_mode (config_ c) in
  (mode_geb m CTRL_MODE_VELOCITY_CONTROL = true ->
   clamp_fires K a c pe ve = Some true ->
   vel_integrator_current_ c' = vel_integrator_current_ c * F32.lit_0_99) /\
  (mode_geb m CTRL_MODE_VELOCITY_CONTROL = true ->
   clamp_fires K a c pe ve = Some false ->
   vel_integrator_current_ c'
   = vel_integrator_current_ c
     + (snd (scheduled_gains a c) * current_meas_period_of K)
       * (vel_demand K a c pe - ve)) /\
  (mode_ltb m CTRL_MODE_VELOCITY_CONTROL = true ->
   vel_integrator_current_ c' = F32.zero) /\
  (exists limited, clamp_fires K a c pe ve = Some limited).
Proof.
  intros H m.
  destruct (update_true_accumulated _ _ _ _ _ _ _ _ H)
    as (cog & Iq & limited & _ & _ & Hcl & _ & _ & _ & _ & Hint).
  fold m in Hint. rewrite mode_ltb_geb in *.
  repeat split.
  - intros Hm Hf. rewrite Hcl in Hf. inversion Hf; subst.
    rewrite Hm in Hint. exact Hint.
  - intros Hm Hf. rewrite Hcl in Hf. inversion Hf; subst.
    rewrite Hm in Hint. exact Hint.
  - intros Hm. rewrite Hm in Hint. exact Hint.
  - eauto.
Qed.

(** C9.  A null [current_setpoint_output] changes nothing but the write:
    with and without it the call returns the same flag and leaves the same
    controller and axis, and a value is written exactly when the pointer is
    non-null and the call returns [true]. *)
Theorem update_null_output (a : Axis) (c : Controller) (pe ve : float) :
  match update K a c pe ve true, update K a c pe ve false with
  | Undefined, Undefined => True
  | Returned ok1 c1 a1 w1, Returned ok2 c2 a2 w2 =>
      ok1 = ok2 /\ c1 = c2 /\ a1 = a2 /\ w2 = None /\
      (ok1 = true <-> exists v, w1 = Some v)
  | _, _ => False
  end.
Proof.
  unfold update.
  destruct (setpoint_stage K a c pe) as [c1 vd].
  destruct (overspeed c1 ve).
  - cbn. repeat split; try reflexivity; try discriminate.
    intros [v Hv]; discriminate.
  - destruct (current_stage K a c1 vd ve) as [[[[c2 vig] v_err] Iq]|]; [|exact I].
    destruct (limit_current (effective_current_lim a) Iq) as [limited Iq'].
    repeat split; eauto.
Qed.

(** Nothing after the setpoint part of the cycle touches the mode or the
    setpoints. *)
Lemma integrator_step_frame (c : Controller) (limited : bool) (vig v_err : float) :
  let c' := integrator_step K c limited vig v_err in
  config_ c' = config_ c /\ pos_setpoint_ c' = pos_setpoint_ c /\
  vel_setpoint_ c' = vel_setpoint_ c /\ current_setpoint_ c' = current_setpoint_ c /\
  cogmap_current_ c' = cogmap_current_ c /\ error_ c' = error_ c.
Proof.
  unfold integrator_step. repeat break_if; repeat split; reflexivity.
Qed.

Lemma update_setpoints (a : Axis) (c : Controller) (pe ve : float) (o : bool)
    (ok : bool) (c' : Controller) (a' : Axis) (w : option float) :
  update K a c pe ve o = Returned ok c' a' w ->
  let c1 := fst (setpoint_stage K a c pe) in
  control_mode (config_ c') = control_mode (config_ c1) /\
  pos_setpoint_ c' = pos_setpoint_ c1 /\
  vel_setpoint_ c' = vel_setpoint_ c1 /\
  current_setpoint_ c' = current_setpoint_ c1.
Proof.
  destruct ok.
  - intros H.
    destruct (update_true_inv _ _ _ _ _ _ _ _ H)
      as (c2 & vig & v_err & Iq & _ & Hc & Hc' & _ & _).
    destruct (current_stage_inv _ _ _ _ _ _ _ _ Hc)
      as (cog & _ & _ & _ & _ & Hm & _ & _ & Hp & Hv & Hi & _).
    destruct (integrator_step_frame c2 (fst (limit_current (effective_current_lim a) Iq))
                vig v_err) as (Hcfg & Hp' & Hv' & Hi' & _).
    cbv zeta. subst c'. rewrite Hcfg, Hp', Hv', Hi'. auto.
  - unfold update.
    destruct (setpoint_stage K a c pe) as [c1 vd]; simpl.
    destruct (overspeed c1 ve).
    + intros H; inversion H; subst. auto.
    + destruct (current_stage K a c1 vd ve) as [[[[c2 vig] v_err] Iq]|]; [|discriminate].
      destruct (limit_current _ _); discriminate.
Qed.

(** The setpoint part of the cycle in trajectory mode. *)
Lemma setpoint_stage_trajectory (a : Axis) (c : Controller) (pe : float) :
  control_mode (config_ c) = CTRL_MODE_TRAJECTORY_CONTROL ->
  let c0 := trajectory_step K a c in
  let c1 := fst (setpoint_stage K a c pe) in
  control_mode (config_ c1) = control_mode (config_ c0) /\
  vel_setpoint_ c1 = vel_setpoint_ c0 /\
  current_setpoint_ c1 = current_setpoint_ c0 /\
  pos_setpoint_ c1
  = (if setpoints_in_cpr (config_ c)
     then fmodf_pos (pos_setpoint_ c0) (F32.of_Z (encoder_cpr a))
     else pos_setpoint_ c0).
Proof.
  intros Hm. unfold setpoint_stage, trajectory_step, ramp_step, position_step,
    position_error.
  destruct c as [[m pg vg vig vl vlt vre vrr sic cm cs cig cmc] e ps vs vi cu vrt gp ts cc ccp].
  cbn in Hm. subst m.
  cbn -[F32.add F32.sub F32.mul F32.gtb F32.ltb fmodf_pos wrap_pm
          clamp_bidirf limit_velocity traj_time F32.of_Z].
  destruct (traj_time K a _ >? trap_Tf_ a);
    cbn -[F32.add F32.sub F32.mul F32.gtb F32.ltb fmodf_pos wrap_pm
            clamp_bidirf limit_velocity traj_time F32.of_Z];
    destruct sic; cbn -[F32.add F32.sub F32.mul F32.gtb F32.ltb fmodf_pos wrap_pm
            clamp_bidirf limit_velocity traj_time F32.of_Z];
    repeat split; reflexivity.
Qed.

(** C4 (as amended).  In trajectory mode, once the elapsed time exceeds
    the planner's duration the trajectory step switches to position mode,
    zeroes the velocity and current setpoints and leaves the position
    setpoint as it is; otherwise it takes the position and velocity
    setpoints from the planner's sample and the current setpoint from the
    sampled acceleration times [A_per_css].  At the end of the call the
    mode, velocity setpoint and current setpoint are those, and the
    position setpoint is that of the trajectory step, reduced modulo [cpr]
    by the position loop when [setpoints_in_cpr] is set. *)
Theorem update_trajectory
    (a : Axis) (c : Controller) (pe ve : float) (o : bool)
    (ok : bool) (c' : Controller) (a' : Axis) (w : option float) :
  control_mode (config_ c) = CTRL_MODE_TRAJECTORY_CONTROL ->
  update K a c pe ve o = Returned ok c' a' w ->
  let t := traj_time K a c in
  let c0 := trajectory_step K a c in
  let normalised x :=
    if setpoints_in_cpr (config_ c) then fmodf_pos x (F32.of_Z (encoder_cpr a)) else x in
  ((t >? trap_Tf_ a) = true ->
   (control_mode (config_ c0) = CTRL_MODE_POSITION_CONTROL /\
    vel_setpoint_ c0 = F32.zero /\ current_setpoint_ c0 = F32.zero /\
    pos_setpoint_ c0 = pos_setpoint_ c) /\
   (control_mode (config_ c') = CTRL_MODE_POSITION_CONTROL /\
    vel_setpoint_ c' = F32.zero /\ current_setpoint_ c' = F32.zero /\
    pos_setpoint_ c' = normalised (pos_setpoint_ c)))
  /\
  ((t >? trap_Tf_ a) = false ->
   let s := trap_eval a t in
   (control_mode (config_ c0) = CTRL_MODE_TRAJECTORY_CONTROL /\
    vel_setpoint_ c0 = Yd s /\ current_setpoint_ c0 = Ydd s * trap_A_per_css a /\
    pos_setpoint_ c0 = Y s) /\
   (control_mode (config_ c') = CTRL_MODE_TRAJECTORY_CONTROL /\
    vel_setpoint_ c' = Yd s /\ current_setpoint_ c' = Ydd s * trap_A_per_css a /\
    pos_setpoint_ c' = normalised (Y s))).
Proof.
  intros Hm H t c0 normalised.
  destruct (update_setpoints _ _ _ _ _ _ _ _ _ H) as (Hm' & Hp' & Hv' & Hi').
  destruct (setpoint_stage_trajectory a c pe Hm) as (Hm1 & Hv1 & Hi1 & Hp1).
  rewrite Hm1 in Hm'. rewrite Hp1 in Hp'. rewrite Hv1 in Hv'. rewrite Hi1 in Hi'.
  fold c0 in Hm', Hp', Hv', Hi'. fold (normalised (pos_setpoint_ c0)) in Hp'.
  rewrite Hm', Hp', Hv', Hi'.
  subst c0. unfold trajectory_step. rewrite Hm. fold t.
  split; intros Ht; rewrite Ht; cbn; rewrite ?Hm; auto.
Qed.

(** The setpoint part of the cycle in current mode changes nothing. *)
Lemma setpoint_stage_current (a : Axis) (c : Controller) (pe : float) :
  control_mode (config_ c) = CTRL_MODE_CURRENT_CONTROL ->
  setpoint_stage K a c pe
  = (c, limit_velocity (vel_limit (config_ c)) (vel_setpoint_ c)).
Proof.
  intros Hm. unfold setpoint_stage.
  assert (H1 : trajectory_step K a c = c) by (unfold trajectory_step; rewrite Hm; reflexivity).
  rewrite H1.
  assert (H2 : ramp_step K c = c) by (unfold ramp_step; rewrite Hm; reflexivity).
  rewrite H2. unfold position_step. rewrite Hm. reflexivity.
Qed.

Lemma with_cogmap_current_idem (x : float) (c : Controller) :
  cogmap_current_ c = x -> with_cogmap_current x c = c.
Proof. destruct c; cbn; intros ->; reflexivity. Qed.

Lemma with_vel_integrator_current_idem (x : float) (c : Controller) :
  vel_integrator_current_ c = x -> with_vel_integrator_current x c = c.
Proof. destruct c; cbn; intros ->; reflexivity. Qed.

(** One cycle in current mode. *)
Lemma update_current_mode (a : Axis) (c : Controller) (pe ve : float) (o : bool)
    (c' : Controller) (a' : Axis) (w : option float) :
  control_mode (config_ c) = CTRL_MODE_CURRENT_CONTROL ->
  update K a c pe ve o = Returned true c' a' w ->
  exists cog,
    interpolated_cogging a c = Some cog /\
    overspeed c ve = false /\
    a' = a /\
    c' = with_vel_integrator_current F32.zero (with_cogmap_current cog c) /\
    w = (if o then Some (snd (limit_current (effective_current_lim a)
                                ((current_setpoint_ c + cog) + vel_integrator_current_ c)))
         else None).
Proof.
  intros Hm H.
  destruct (update_true_inv _ _ _ _ _ _ _ _ H)
    as (c2 & vig & v_err & Iq & Hov & Hc & Hc' & Ha & Hw).
  unfold vel_demand in Hc. rewrite (setpoint_stage_current a c pe Hm) in Hc, Hov.
  cbn [fst snd] in Hc, Hov.
  destruct (current_stage_inv _ _ _ _ _ _ _ _ Hc)
    as (cog & Hcog & _ & _ & HIq & Hm2 & _ & _ & _ & _ & _ & _ & Hc2).
  rewrite Hm in HIq, Hc2. cbn in HIq, Hc2. specialize (Hc2 eq_refl).
  exists cog. repeat split; try assumption.
  - subst c' c2. unfold integrator_step. cbn [config_ with_cogmap_current].
    rewrite Hm. reflexivity.
  - subst Iq. exact Hw.
Qed.

Lemma update_current_mode_intro (a : Axis) (c : Controller) (pe ve : float) (o : bool)
    (cog : float) :
  control_mode (config_ c) = CTRL_MODE_CURRENT_CONTROL ->
  interpolated_cogging a c = Some cog ->
  overspeed c ve = false ->
  update K a c pe ve o
  = Returned true (with_vel_integrator_current F32.zero (with_cogmap_current cog c)) a
      (if o then Some (snd (limit_current (effective_current_lim a)
                              ((current_setpoint_ c + cog) + vel_integrator_current_ c)))
       else None).
Proof.
  intros Hm Hcog Hov.
  assert (Hd : anticogging_defined a c = true)
    by (unfold anticogging_defined; rewrite Hcog; reflexivity).
  destruct (update_proceeds a c pe ve o Hov Hd) as (c' & w & H & _).
  destruct (update_current_mode _ _ _ _ _ _ _ _ Hm H) as (cog' & Hcog' & _ & _ & Hc' & Hw).
  rewrite Hcog in Hcog'. injection Hcog' as <-. subst c' w. exact H.
Qed.

(** C7 (as amended).  In current mode a call that returns [true] leaves
    the axis alone and the integrator at zero, and the controller it
    leaves is a fixed point: every later call with the same estimates
    returns [true] with one and the same written current and changes
    nothing.  When the integrator was zero to begin with, that current is
    also the one of the first call. *)
Theorem update_current_mode_repeat
    (a : Axis) (c : Controller) (pe ve : float) (o : bool)
    (c1 : Controller) (a1 : Axis) (w : option float) :
  control_mode (config_ c) = CTRL_MODE_CURRENT_CONTROL ->
  update K a c pe ve o = Returned true c1 a1 w ->
  a1 = a /\
  vel_integrator_current_ c1 = F32.zero /\
  exists w',
    (forall n, update_nth K n a c1 pe ve o = Returned true c1 a w') /\
    (vel_integrator_current_ c = F32.zero -> w' = w).
Proof.
  intros Hm H.
  destruct (update_current_mode _ _ _ _ _ _ _ _ Hm H)
    as (cog & Hcog & Hov & Ha & Hc1 & Hw).
  assert (Hm1 : control_mode (config_ c1) = CTRL_MODE_CURRENT_CONTROL)
    by (subst c1; exact Hm).
  assert (Hcog1 : interpolated_cogging a c1 = Some cog) by (subst c1; exact Hcog).
  assert (Hov1 : overspeed c1 ve = false) by (subst c1; exact Hov).
  assert (Hi1 : vel_integrator_current_ c1 = F32.zero) by (subst c1; reflexivity).
  assert (Hcc1 : cogmap_current_ c1 = cog) by (subst c1; reflexivity).
  assert (Hcs1 : current_setpoint_ c1 = current_setpoint_ c) by (subst c1; reflexivity).
  pose proof (update_current_mode_intro a c1 pe ve o cog Hm1 Hcog1 Hov1) as Hstep.
  rewrite (with_cogmap_current_idem cog c1 Hcc1) in Hstep.
  rewrite (with_vel_integrator_current_idem F32.zero c1 Hi1) in Hstep.
  split; [assumption|]. split; [assumption|].
  eexists. split.
  - intros n. induction n as [|n IH]; simpl.
    + exact Hstep.
    + rewrite Hstep. exact IH.
  - intros Hz. rewrite Hi1, Hcs1. rewrite Hw, Hz. reflexivity.
Qed.

(** ** The position loop *)

Lemma trajectory_step_mode (a : Axis) (c : Controller) :
  mode_geb (control_mode (config_ c)) CTRL_MODE_POSITION_CONTROL = true ->
  let c0 := trajectory_step K a c in
  mode_geb (control_mode (config_ c0)) CTRL_MODE_POSITION_CONTROL = true /\
  mode_eqb (control_mode (config_ c0)) CTRL_MODE_VELOCITY_CONTROL = false /\
  setpoints_in_cpr (config_ c0) = setpoints_in_cpr (config_ c) /\
  pos_gain (config_ c0) = pos_gain (config_ c) /\
  vel_limit (config_ c0) = vel_limit (config_ c).
Proof.
  unfold trajectory_step.
  destruct c as [[m pg vg vig vl vlt vre vrr sic cm cs cig cmc] e ps vs vi cu vrt gp ts cc ccp].
  destruct m; cbn -[traj_time F32.gtb F32.mul]; try discriminate; intros _;
    try destruct (traj_time K a _ >? trap_Tf_ a); cbn; auto.
Qed.

(** From position mode upwards the setpoint part of the cycle is the
    trajectory step, the position loop and the velocity limiter. *)
Lemma setpoint_stage_position (a : Axis) (c : Controller) (pe : float) :
  mode_geb (control_mode (config_ c)) CTRL_MODE_POSITION_CONTROL = true ->
  let c0 := trajectory_step K a c in
  setpoint_stage K a c pe
  = (fst (position_error a c0 pe),
     limit_velocity (vel_limit (config_ c))
       (vel_setpoint_ c0 + pos_gain (config_ c) * snd (position_error a c0 pe))).
Proof.
  intros Hm c0. destruct (trajectory_step_mode a c Hm) as (Hm0 & Hv0 & _ & Hpg & Hvl).
  fold c0 in Hm0, Hv0, Hpg, Hvl.
  unfold setpoint_stage. fold c0.
  assert (Hr : ramp_step K c0 = c0) by (unfold ramp_step; rewrite Hv0; reflexivity).
  rewrite Hr. unfold position_step. rewrite Hm0.
  unfold position_error.
  destruct (setpoints_in_cpr (config_ c0)); cbn [fst snd config_ with_pos_setpoint];
    rewrite Hpg, Hvl; reflexivity.
Qed.

(** ** Adaptation of the cogging map *)

Lemma cogmap_adapt_Some_inv (m : list float) (k : Cog_index) (corr mx : float)
    (m' : list float) :
  cogmap_adapt m k corr mx = Some m' ->
  exists m0 m1, arr_get m (idx k) = Some m0 /\ arr_get m (idx1 k) = Some m1.
Proof.
  unfold cogmap_adapt, arr_modify.
  destruct (arr_get m (idx k)) as [m0|] eqn:H0; [|discriminate].
  destruct (arr_get (arr_set m (idx k) _) (idx1 k)) as [x|] eqn:H1; [|discriminate].
  intros _. apply arr_get_Some_bounds in H1. rewrite length_arr_set in H1.
  destruct (arr_get_in_bounds m (idx1 k) H1) as [m1 Hm1]. eauto.
Qed.

Lemma within_sval (v mx : float) :
  F32.valid v = true -> wf mx = true -> (F32.fabsf v <=? mx) = true ->
  wf v = true /\ (Z.abs (sval v) <= sval mx)%Z.
Proof.
  intros Hv Hmx Hb.
  assert (Hn : F32.is_nan v = false).
  { apply leb_not_nan in Hb. destruct v; try reflexivity. cbn in Hb. tauto. }
  assert (Hw : wf v = true) by (unfold wf; rewrite Hv, Hn; reflexivity).
  split; [exact Hw|].
  apply leb_sval in Hb; [|rewrite wf_fabsf; assumption|assumption].
  rewrite sval_fabsf in Hb. exact Hb.
Qed.

Lemma sval_within (v mx : float) :
  wf v = true -> wf mx = true -> (Z.abs (sval v) <= sval mx)%Z ->
  F32.valid v = true /\ (F32.fabsf v <=? mx) = true.
Proof.
  intros Hv Hmx Hb. split.
  - unfold wf in Hv. apply andb_true_iff in Hv. tauto.
  - apply leb_sval; [rewrite wf_fabsf; assumption|assumption|].
    rewrite sval_fabsf. exact Hb.
Qed.

(** The map that a cycle from velocity mode upwards leaves. *)
Lemma update_cogmap (a : Axis) (c : Controller) (pe ve : float) (o : bool)
    (c' : Controller) (a' : Axis) (w : option float) :
  update K a c pe ve o = Returned true c' a' w ->
  mode_geb (control_mode (config_ c)) CTRL_MODE_VELOCITY_CONTROL = true ->
  exists k m',
    cogmap_index a c = Some k /\
    cogmap_adapt (cogmap (config_ c)) k (cogmap_correction K a c pe ve)
      (cogmap_max_current (config_ c)) = Some m' /\
    cogmap (config_ c') = m' /\
    cogmap_max_current (config_ c') = cogmap_max_current (config_ c).
Proof.
  intros H Hm.
  destruct (update_true_inv _ _ _ _ _ _ _ _ H)
    as (c2 & vig & v_err & Iq & _ & Hc & Hc' & _ & _).
  destruct (integrator_step_frame c2 (fst (limit_current (effective_current_lim a) Iq))
              vig v_err) as (Hcfg & _).
  rewrite <- Hc' in Hcfg. rewrite Hcfg. clear Hc' Hcfg.
  unfold cogmap_correction.
  destruct (setpoint_stage_frame a c pe) as (_ & _ & _ & _ & m & Hcf & Hmm).
  rewrite Hm in Hmm.
  revert Hc. unfold current_stage, velocity_step.
  set (c1 := fst (setpoint_stage K a c pe)) in *.
  destruct (scheduled_gains a c1) as [vg vig0].
  assert (Hix : cogmap_index a c1 = cogmap_index a c)
    by (unfold cogmap_index, cogmap_idxf; rewrite Hcf; reflexivity).
  rewrite Hix.
  destruct (cogmap_index a c) as [k|]; [|discriminate].
  destruct (arr_get (cogmap (config_ c1)) (idx k)) as [m0|]; [|discriminate].
  destruct (arr_get (cogmap (config_ c1)) (idx1 k)) as [m1|]; [|discriminate].
  cbn [config_ with_cogmap_current cogmap_current_ control_mode].
  rewrite Hcf. cbn [control_mode set_control_mode cogmap cogmap_integrator_gain
                      cogmap_max_current].
  rewrite Hmm.
  destruct (cogmap_adapt _ _ _ _) as [m'|] eqn:Ha; [|discriminate].
  intros Hc. injection Hc as <- _ _ _.
  exists k, m'. split; [reflexivity|]. split; [exact Ha|]. split; reflexivity.
Qed.

End Properties.

(** ** The properties on the sample controllers *)

(** The claim of C1 as stated fails: all inputs are finite floats, the
    limit is 10 A, the call returns [true], and the current written is not
    within the limit (the feed-forward and cogging value add up to
    [+inf], the proportional term is [-inf], and their sum passes both
    comparisons of the limiter). *)
Lemma update_output_exceeds_current_limit :
  let a := sample_axis 0 8192 0 F32.zero in
  (F32.zero <=? effective_current_lim a) = true /\
  forallb fin (cogmap (config_ saturated_controller)) = true /\
  fin (vel_gain (config_ saturated_controller)) = true /\
  fin (current_setpoint_ saturated_controller) = true /\
  match update sample_constants a saturated_controller F32.zero (F32.of_Z 2) true with
  | Returned true _ _ (Some out) => (F32.fabsf out <=? effective_current_lim a) = false
  | _ => False
  end.
Proof. vm_compute. repeat split; reflexivity. Qed.

Lemma update_output_within_current_limit_witness :
  let a := sample_axis 0 8192 0 F32.zero in
  let c := sample_controller CTRL_MODE_VELOCITY_CONTROL false F32.zero F32.zero in
  exists c' a' out,
    update sample_constants a c F32.zero (F32.of_Z 11) true = Returned true c' a' (Some out) /\
    (F32.fabsf out <=? effective_current_lim a) = true.
Proof.
  intros a c. do 3 eexists. split.
  - vm_compute. reflexivity.
  - eapply (update_output_within_current_limit sample_constants a c F32.zero (F32.of_Z 11) true);
      vm_compute; reflexivity.
Defined.

(** The example of the specification: with [vel_limit = 10] and
    [vel_limit_tolerance = 1.2], an estimate of 13 aborts the cycle with
    both flags raised and an estimate of 11 lets it proceed. *)
Lemma update_overspeed_check_witness :
  let a := sample_axis 0 8192 0 F32.zero in
  let c := sample_controller CTRL_MODE_VELOCITY_CONTROL false F32.zero F32.zero in
  (exists c' a',
     update sample_constants a c F32.zero (F32.of_Z 13) true = Returned false c' a' None /\
     error_ c' = 1%Z /\ axis_error_ a' = 512%Z) /\
  (exists c' w,
     update sample_constants a c F32.zero (F32.of_Z 11) true = Returned true c' a w /\
     error_ c' = 0%Z).
Proof.
  intros a c. split.
  - destruct (update_overspeed_check sample_constants a c F32.zero (F32.of_Z 13) true)
      as (H & _ & _).
    destruct H as (c' & a' & H1 & H2 & _ & H4 & _); [vm_compute; reflexivity ..|].
    exists c', a'. repeat split; assumption.
  - destruct (update_overspeed_check sample_constants a c F32.zero (F32.of_Z 11) true)
      as (_ & H & _).
    apply H; vm_compute; reflexivity.
Defined.

(** The claim of C2 as stated fails for its second part: with the numbers
    of the specification (a velocity limit of 10, a tolerance of 1.2 and
    a velocity estimate of 11) the estimate is within the tolerance, yet
    on an encoder of 2^25 counts per revolution standing on its last count
    the cycle reads outside the cogging map and does not return. *)
Lemma update_within_tolerance_undefined :
  let a := sample_axis 0 33554432 33554431 F32.zero in
  let c := sample_controller CTRL_MODE_CURRENT_CONTROL false F32.zero F32.zero in
  let ve := F32.of_Z 11 in
  (vel_limit_tolerance (config_ c) >? F32.zero) = true /\
  (F32.fabsf ve <=? vel_limit_tolerance (config_ c) * vel_limit (config_ c)) = true /\
  (0 <= encoder_count_in_cpr_ a < encoder_cpr a)%Z /\
  Z.of_nat (length (cogmap (config_ c))) = cogmap_size (config_ c) /\
  anticogging_defined a c = false /\
  update sample_constants a c F32.zero ve true = Undefined.
Proof. vm_compute. repeat split; try reflexivity; discriminate. Qed.

Lemma update_unclamped_output_sum_witness :
  let a := sample_axis 0 8192 0 F32.zero in
  let c := sample_controller CTRL_MODE_VELOCITY_CONTROL false F32.zero (F32.of_Z 1) in
  exists c' a' out,
    update sample_constants a c F32.zero (F32.of_Z 2) true = Returned true c' a' (Some out) /\
    out = F32.of_Z (-1) /\
    out = ((F32.zero + F32.zero) + F32.of_Z 1 * (F32.zero - F32.of_Z 2)) + F32.of_Z 1.
Proof.
  intros a c. do 3 eexists. split; [vm_compute; reflexivity|]. split; [vm_compute; reflexivity|].
  edestruct (update_unclamped_output_sum sample_constants a c F32.zero (F32.of_Z 2))
    as (cog & Hcog & Hout & _); [vm_compute; reflexivity ..|].
  vm_compute in Hcog. injection Hcog as <-. exact Hout.
Defined.

Lemma update_integrator_witness :
  let a := sample_axis 0 8192 0 F32.zero in
  let c := sample_controller CTRL_MODE_VELOCITY_CONTROL false F32.zero (F32.of_Z 1) in
  (exists c' a' w,
     update sample_constants a c F32.zero (F32.of_Z (-11)) true = Returned true c' a' w /\
     vel_integrator_current_ c' = F32.of_Z 1 * F32.lit_0_99) /\
  (exists c' a' w,
     update sample_constants a c F32.zero (F32.of_Z 2) true = Returned true c' a' w /\
     vel_integrator_current_ c'
     = F32.of_Z 1
       + (F32.of_Z 1 * current_meas_period_of sample_constants) * (F32.zero - F32.of_Z 2)).
Proof.
  intros a c. split; do 3 eexists.
  - split; [vm_compute; reflexivity|].
    edestruct (update_integrator sample_constants a c F32.zero (F32.of_Z (-11)) true)
      as (H & _); [vm_compute; reflexivity|].
    apply H; vm_compute; reflexivity.
  - split; [vm_compute; reflexivity|].
    edestruct (update_integrator sample_constants a c F32.zero (F32.of_Z 2) true)
      as (_ & H & _); [vm_compute; reflexivity|].
    apply H; vm_compute; reflexivity.
Defined.

(** The claim of C4 as stated fails for the position setpoint: in
    trajectory mode past the planner's duration, with [setpoints_in_cpr]
    set, a position setpoint of 8200 counts on an encoder of 8192 counts
    per revolution is 8 after the call. *)
Lemma update_trajectory_done_moves_pos_setpoint :
  let a := sample_axis 8000 8192 0 F32.zero in
  let c := sample_controller CTRL_MODE_TRAJECTORY_CONTROL true (F32.of_Z 8200) F32.zero in
  control_mode (config_ c) = CTRL_MODE_TRAJECTORY_CONTROL /\
  (traj_time sample_constants a c >? trap_Tf_ a) = true /\
  match update sample_constants a c F32.zero F32.zero true with
  | Returned true c' _ _ =>
      control_mode (config_ c') = CTRL_MODE_POSITION_CONTROL /\
      pos_setpoint_ c' = F32.of_Z 8 /\
      pos_setpoint_ c' <> pos_setpoint_ c
  | _ => False
  end.
Proof. vm_compute. repeat split; try reflexivity. discriminate. Qed.

Lemma update_trajectory_witness :
  let c := sample_controller CTRL_MODE_TRAJECTORY_CONTROL true (F32.of_Z 8200) F32.zero in
  (exists ok c' a' w,
     update sample_constants (sample_axis 8000 8192 0 F32.zero) c F32.zero F32.zero true
     = Returned ok c' a' w /\
     control_mode (config_ c') = CTRL_MODE_POSITION_CONTROL /\
     vel_setpoint_ c' = F32.zero /\ current_setpoint_ c' = F32.zero /\
     pos_setpoint_ c' = fmodf_pos (F32.of_Z 8200) (F32.of_Z 8192)) /\
  (exists ok c' a' w,
     update sample_constants (sample_axis 2000 8192 0 F32.zero) c F32.zero F32.zero true
     = Returned ok c' a' w /\
     control_mode (config_ c') = CTRL_MODE_TRAJECTORY_CONTROL /\
     vel_setpoint_ c' = F32.of_Z 1 /\ current_setpoint_ c' = F32.of_Z 2 * F32.of_Z 3 /\
     pos_setpoint_ c' = fmodf_pos (F32.of_Z 100) (F32.of_Z 8192)).
Proof.
  intros c. split; do 4 eexists.
  - split; [vm_compute; reflexivity|].
    edestruct (update_trajectory sample_constants (sample_axis 8000 8192 0 F32.zero) c
                 F32.zero F32.zero true) as (H & _);
      [reflexivity | vm_compute; reflexivity |].
    destruct H as (_ & H); [vm_compute; reflexivity|]. exact H.
  - split; [vm_compute; reflexivity|].
    edestruct (update_trajectory sample_constants (sample_axis 2000 8192 0 F32.zero) c
                 F32.zero F32.zero true) as (_ & H);
      [reflexivity | vm_compute; reflexivity |].
    destruct H as (_ & H); [vm_compute; reflexivity|]. exact H.
Defined.

(** The claim of C7 as stated fails: in current mode with an integrator
    left at 1 A, the first call writes 1 A and resets the integrator, the
    second call writes 0 A. *)
Lemma update_current_mode_first_call_differs :
  let a := sample_axis 0 8192 0 F32.zero in
  let c := sample_controller CTRL_MODE_CURRENT_CONTROL false F32.zero (F32.of_Z 1) in
  match update sample_constants a c F32.zero F32.zero true,
        update_nth sample_constants 1 a c F32.zero F32.zero true with
  | Returned true c1 _ (Some w1), Returned true _ _ (Some w2) =>
      w1 = F32.of_Z 1 /\ w2 = F32.zero /\ w1 <> w2 /\
      vel_integrator_current_ c1 <> vel_integrator_current_ c
  | _, _ => False
  end.
Proof. vm_compute. repeat split; discriminate. Qed.

Lemma update_current_mode_repeat_witness :
  let a := sample_axis 0 8192 0 F32.zero in
  let c := sample_controller CTRL_MODE_CURRENT_CONTROL false F32.zero (F32.of_Z 1) in
  exists c1 w w',
    update sample_constants a c F32.zero F32.zero true = Returned true c1 a w /\
    vel_integrator_current_ c1 = F32.zero /\
    update_nth sample_constants 5 a c1 F32.zero F32.zero true = Returned true c1 a w'.
Proof.
  intros a c.
  destruct (update sample_constants a c F32.zero F32.zero true) as [|[] c1 a1 w] eqn:H;
    try (vm_compute in H; discriminate).
  destruct (update_current_mode_repeat sample_constants a c F32.zero F32.zero true c1 a1 w
              eq_refl H) as (Ha & Hi & w' & Hn & _).
  subst a1. exists c1, w, w'. repeat split; [assumption|apply Hn].
Defined.

(** ** The anticogging table index *)

(** The second index is always the modular successor of the first and
    lies within the table size. *)
Lemma cogmap_index_successor (a : Axis) (c : Controller) (k : Cog_index) :
  cogmap_index a c = Some k ->
  (0 <= idx k < size_t_mod)%Z /\
  idx1 k = (((idx k + 1) mod size_t_mod) mod cogmap_size (config_ c))%Z /\
  ((0 < cogmap_size (config_ c))%Z -> (0 <= idx1 k < cogmap_size (config_ c))%Z).
Proof.
  unfold cogmap_index, to_size_t.
  destruct (F32.trunc (cogmap_idxf a c)) as [z|]; [|discriminate].
  destruct ((0 <=? z)%Z && (z <? size_t_mod)%Z) eqn:Hz; [|discriminate].
  destruct (cogmap_size (config_ c) =? 0)%Z; [discriminate|].
  intros H; injection H as <-. cbn [idx idx1].
  apply andb_true_iff in Hz. destruct Hz as [H0 H1].
  apply Z.leb_le in H0. apply Z.ltb_lt in H1.
  repeat split; try assumption; intros; apply Z.mod_pos_bound; assumption.
Qed.

(** C10, at an encoder of 2^25 counts per revolution standing on its last
    count: the preconditions hold, yet the conversion of the count to
    [float] rounds up to [cpr], the position ratio is 1, the first table
    index equals the table size, and the cycle reads outside the map. *)
Lemma cogmap_index_out_of_bounds :
  let a := sample_axis 0 33554432 33554431 F32.zero in
  let c := sample_controller CTRL_MODE_VELOCITY_CONTROL false F32.zero F32.zero in
  (0 <= encoder_count_in_cpr_ a < encoder_cpr a)%Z /\
  (0 < cogmap_size (config_ c))%Z /\
  Z.of_nat (length (cogmap (config_ c))) = cogmap_size (config_ c) /\
  F32.of_Z (encoder_count_in_cpr_ a) = F32.of_Z (encoder_cpr a) /\
  cogmap_index a c = Some (mkCog (cogmap_size (config_ c)) 1 F32.zero) /\
  arr_get (cogmap (config_ c)) (cogmap_size (config_ c)) = None /\
  update sample_constants a c F32.zero F32.zero true = Undefined.
Proof. vm_compute. repeat split; try reflexivity; discriminate. Qed.

(** * The rest of the controller

    The command handlers, the velocity ramp, the velocity limiter, the
    gain scheduling, the table lookup and what a cycle leaves alone. *)

(** ** Division

    The quotient of two floats is rounded from an integer quotient and the
    location of its remainder; the lemmas on shifting and rounding are
    those of the exact case, with the divisor carried along. *)

Local Open Scope Z_scope.

Lemma shr_1_den (D N k : Z) (r : shr_record) :
  0 < D -> 0 <= k -> shr_den D N k r -> shr_den D N (k + 1) (shr_1 r).
Proof.
  intros HD Hk (Hm & rem & Heq & Hrem & Hrs & Hhalf). unfold shr_den.
  destruct r as [mm r s]. cbn [shr_m shr_r shr_s] in *.
  assert (H2k : 0 < 2 ^ k) by (apply pow2_pos; lia).
  assert (Hp : 2 ^ (k + 1) * D = 2 * (2 ^ k * D)) by (rewrite Z.pow_add_r by lia; lia).
  rewrite Hp. set (U := 2 ^ k * D) in *. assert (HU : 0 < U) by (unfold U; nia).
  destruct mm as [|[p|p|]|p]; try lia; cbn [shr_1 shr_m shr_r shr_s]; split; try lia.
  - exists rem. split; [lia|]. split; [lia|].
    rewrite orb_false_l. split; [exact Hrs|]. discriminate.
  - exists (U + rem). split; [lia|]. split; [lia|].
    rewrite orb_true_l. split; [split; intros; [lia|reflexivity]|]. intros _. lia.
  - exists rem. split; [lia|]. split; [lia|].
    rewrite orb_false_l. split; [exact Hrs|]. discriminate.
  - exists (U + rem). split; [lia|]. split; [lia|].
    rewrite orb_true_l. split; [split; intros; [lia|reflexivity]|]. intros _. lia.
Qed.

Lemma iter_shr_1_den (D N : Z) (p : positive) :
  0 < D ->
  forall (k : Z) (r : shr_record),
    0 <= k -> shr_den D N k r -> shr_den D N (k + Zpos p) (iter_pos shr_1 p r).
Proof.
  intros HD. induction p as [p IH|p IH|]; intros k r Hk H; cbn [iter_pos].
  - replace (k + Zpos p~1) with (((k + 1) + Zpos p) + Zpos p) by lia.
    apply IH; [lia|]. apply IH; [lia|]. apply shr_1_den; assumption.
  - replace (k + Zpos p~0) with ((k + Zpos p) + Zpos p) by lia.
    apply IH; [lia|]. apply IH; assumption.
  - apply shr_1_den; assumption.
Qed.

(** The location that the division computes from its remainder. *)
Lemma new_location_den (D r m : Z) :
  0 < D -> 0 <= r < D -> 0 <= m ->
  shr_den D (m * D + r) 0 (shr_record_of_loc m (new_location D r)).
Proof.
  intros HD Hr Hm. unfold shr_den. change (2 ^ 0) with 1.
  assert (Hgen : forall rec, shr_m rec = m ->
                   (orb (shr_r rec) (shr_s rec) = true <-> 0 < r) ->
                   (shr_r rec = true -> D <= 2 * r) ->
                   0 <= shr_m rec /\
                   exists rem, m * D + r = shr_m rec * (1 * D) + rem /\
                               0 <= rem < 1 * D /\
                               (orb (shr_r rec) (shr_s rec) = true <-> 0 < rem) /\
                               (shr_r rec = true -> 1 * D <= 2 * rem)).
  { intros rec -> H1 H2. split; [assumption|]. exists r.
    split; [lia|]. split; [lia|]. split; [assumption|]. intros H. specialize (H2 H). lia. }
  assert (Hc : forall c, orb (shr_r (shr_record_of_loc m (loc_Inexact c)))
                           (shr_s (shr_record_of_loc m (loc_Inexact c))) = true)
    by (intros []; reflexivity).
  apply Hgen.
  - destruct (new_location D r) as [|[]]; reflexivity.
  - unfold new_location.
    destruct (Z.even D); unfold new_location_even, new_location_odd;
      destruct (Z.eqb_spec r 0) as [Hz|Hz];
      try (cbn [shr_record_of_loc shr_r shr_s orb]; split; intros; [discriminate|lia]);
      rewrite Hc; split; intros; try reflexivity; lia.
  - unfold new_location.
    destruct (Z.even D); unfold new_location_even, new_location_odd;
      destruct (Z.eqb_spec r 0) as [Hz|Hz]; try (cbn [shr_record_of_loc shr_r]; discriminate).
    + destruct (Z.compare_spec (2 * r) D); cbn [shr_record_of_loc shr_r]; intros;
        try discriminate; lia.
    + destruct (Z.compare_spec (2 * r + 1) D); cbn [shr_record_of_loc shr_r]; intros;
        try discriminate; lia.
Qed.

Lemma Zdigits2_bounds (m : Z) :
  0 < m -> 2 ^ (Zdigits2 m - 1) <= m < 2 ^ Zdigits2 m.
Proof.
  intros H. destruct m as [|p|p]; try lia. apply digits2_pos_bounds.
Qed.

(** Rounding of a quotient [(m * D + r) / D] at exponent [e], given by its
    integer part [m] and the location of the remainder [r]. *)
Lemma binary_round_aux_den_spec (s : bool) (m e D r : Z) :
  0 <= m -> 0 < D -> 0 <= r < D ->
  let T := fexp F32.prec F32.emax (Zdigits2 m + e) in
  e <= T ->
  exists m1 q rem,
    m * D + r = q * (2 ^ (T - e) * D) + rem /\ 0 <= rem < 2 ^ (T - e) * D /\
    q <= m1 <= q + 1 /\ (rem = 0 -> m1 = q) /\ 0 <= q < 2 ^ 24 /\
    (-149 < T -> 2 ^ 23 <= q) /\
    binary_round_aux F32.prec F32.emax s m e (new_location D r) = rounded s m1 T.
Proof.
  intros Hm HD Hr T HT.
  assert (HTeq : T = Z.max (Zdigits2 m + e - 24) (-149)) by (subst T; apply fexp_eq).
  assert (HTd : Zdigits2 m + e - 24 <= T /\ -149 <= T) by lia.
  assert (Hd0 : 0 <= Zdigits2 m) by (destruct m; cbn; lia).
  unfold binary_round_aux, shr_fexp. fold T.
  assert (Hrec : exists r1,
             shr (shr_record_of_loc m (new_location D r)) e (T - e) = (r1, T) /\
             shr_den D (m * D + r) (T - e) r1).
  { pose proof (new_location_den D r m HD Hr Hm) as H0.
    unfold shr. destruct (T - e) as [|p|p] eqn:Hn; [| |lia].
    - eexists. split; [f_equal; lia|exact H0].
    - eexists. split; [f_equal; lia|].
      apply (iter_shr_1_den D _ p HD 0 _ (Z.le_refl 0) H0). }
  destruct Hrec as (r1 & Hshr & Hq0 & rem & Heq & Hrem & Hrs & Hhalf).
  rewrite Hshr.
  destruct (round_nearest_even_bounds r1) as (Hm1 & Hex & _).
  set (m1 := round_nearest_even (shr_m r1) (loc_of_shr_record r1)) in *.
  assert (HN : 0 < 2 ^ (T - e)) by (apply pow2_pos; lia).
  assert (Hqm : shr_m r1 * 2 ^ (T - e) <= m).
  { assert (shr_m r1 * (2 ^ (T - e) * D) < (m + 1) * D) by nia.
    assert (shr_m r1 * 2 ^ (T - e) < m + 1) by nia. lia. }
  assert (Hmq : m < (shr_m r1 + 1) * 2 ^ (T - e)).
  { assert (m * D < (shr_m r1 + 1) * 2 ^ (T - e) * D) by nia. nia. }
  assert (Hq24 : shr_m r1 < 2 ^ 24).
  { destruct (Z.eq_dec m 0) as [->|Hne]; [nia|].
    destruct (Zdigits2_bounds m ltac:(lia)) as [_ Hhi].
    assert (2 ^ Zdigits2 m <= 2 ^ (24 + (T - e))) by (apply Z.pow_le_mono_r; lia).
    rewrite pow2_split in H by lia. nia. }
  exists m1, (shr_m r1), rem.
  split; [exact Heq|]. split; [exact Hrem|]. split; [exact Hm1|].
  split.
  { intros Hz. apply Hex. destruct (shr_r r1 || shr_s r1); [|reflexivity].
    assert (0 < rem) by (apply Hrs; reflexivity). lia. }
  split; [lia|].
  split.
  { intros Hn1.
    assert (Hd : Zdigits2 m - 1 = 23 + (T - e)) by lia.
    assert (Hmpos : 0 < m).
    { destruct (Z.eq_dec m 0) as [Hm0|]; [|lia]. exfalso.
      rewrite Hm0 in Hd. change (Zdigits2 0) with 0 in Hd. lia. }
    destruct (Zdigits2_bounds m Hmpos) as [Hlo _].
    rewrite Hd, pow2_split in Hlo by lia. nia. }
  unfold rounded.
  destruct (Z.eqb_spec m1 0) as [Hz|Hz].
  { rewrite Hz. cbn [Zdigits2]. rewrite fexp_eq.
    unfold shr. destruct (Z.max (0 + T - 24) (-149) - T) eqn:Hs; try reflexivity. lia. }
  destruct (Z.eqb_spec m1 (2 ^ 24)) as [Hc|Hc].
  { rewrite Hc. change (Zdigits2 (2 ^ 24)) with 25. rewrite fexp_eq.
    replace (Z.max (25 + T - 24) (-149) - T) with 1 by lia.
    cbn [shr iter_pos shr_1 shr_m shr_record_of_loc]. reflexivity. }
  destruct m1 as [|pm|pm]; try lia.
  assert (Hd1 : Zdigits2 (Zpos pm) <= 24) by (apply Zdigits2_nonneg_le; lia).
  rewrite fexp_eq. unfold shr.
  destruct (Z.max (Zdigits2 (Zpos pm) + T - 24) (-149) - T) eqn:Hs; try reflexivity.
  lia.
Qed.

(** The quotient of two finite numbers: a valid number of the sign of the
    exact quotient, and no representable magnitude lies strictly between
    the exact magnitude and the rounded one. *)
Lemma div_mono (sx sy : bool) (mx my : positive) (ex ey : Z) :
  bounded F32.prec F32.emax mx ex = true -> bounded F32.prec F32.emax my ey = true ->
  let x := S754_finite sx mx ex in
  let y := S754_finite sy my ey in
  let z := (x / y)%f32 in
  wf z = true /\ sval z = cond_Zopp (xorb sx sy) (aval z) /\
  (forall f, wf f = true -> aval f * aval y <= aval x * 2 ^ 298 -> aval f <= aval z) /\
  (forall f, wf f = true -> aval x * 2 ^ 298 <= aval f * aval y -> aval z <= aval f).
Proof.
  intros Bx By x y z.
  destruct (bounded_inv _ _ Bx) as (Hex & Hmx & Hnx).
  destruct (bounded_inv _ _ By) as (Hey & Hmy & Hny).
  destruct (digits2_pos_bounds mx) as [Hd1lo Hd1hi].
  destruct (digits2_pos_bounds my) as [Hd2lo Hd2hi].
  assert (Hax : aval x = Zpos mx * 2 ^ (ex - ebase)).
  { unfold aval, x. cbn [sval]. apply aval_cond_Zopp.
    assert (0 < 2 ^ (ex - ebase)) by (apply pow2_pos; unfold ebase; lia). lia. }
  assert (Hay : aval y = Zpos my * 2 ^ (ey - ebase)).
  { unfold aval, y. cbn [sval]. apply aval_cond_Zopp.
    assert (0 < 2 ^ (ey - ebase)) by (apply pow2_pos; unfold ebase; lia). lia. }
  rewrite Hax, Hay. clear Hax Hay.
  unfold z, x, y, F32.div, SFdiv, SFdiv_core_binary. cbn [Zdigits2].
  set (d1 := Zpos (digits2_pos mx)) in *. set (d2 := Zpos (digits2_pos my)) in *.
  rewrite fexp_eq.
  set (e' := Z.min (Z.max (d1 + ex - (d2 + ey) - 24) (-149)) (ex - ey)).
  set (s := ex - ey - e').
  assert (Hs : 0 <= s) by (unfold s, e'; lia).
  assert (He' : -253 <= e') by (unfold e'; lia).
  set (m' := match s with Z0 => Zpos mx | Zpos _ => Z.shiftl (Zpos mx) s | Zneg _ => 0 end).
  assert (Hm' : m' = Zpos mx * 2 ^ s).
  { unfold m'. destruct s as [|p|p] eqn:Hse; [change (2 ^ 0) with 1; lia| |lia].
    apply Z.shiftl_mul_pow2. lia. }
  assert (H2s : 0 < 2 ^ s) by (apply pow2_pos; assumption).
  pose proof (Z_div_mod m' (Zpos my) ltac:(lia)) as Hdm.
  destruct (Z.div_eucl m' (Zpos my)) as [q0 r0]. destruct Hdm as [Hdiv Hr0].
  assert (Hq0 : 0 <= q0) by nia.
  assert (HT : e' <= fexp F32.prec F32.emax (Zdigits2 q0 + e')).
  { rewrite fexp_eq. destruct (Z_le_gt_dec e' (-149)) as [|Hg]; [lia|].
    assert (Hk : 24 <= d1 - d2 + s) by (unfold s, e' in *; lia).
    assert (Hq23 : 2 ^ 23 <= q0).
    { assert (Hp : 2 ^ (d2 + 23) <= 2 ^ (d1 - 1 + s)) by (apply Z.pow_le_mono_r; lia).
      rewrite !pow2_split in Hp by lia.
      assert (2 ^ (d1 - 1) * 2 ^ s <= m') by nia.
      assert (0 < 2 ^ d2) by (apply pow2_pos; lia).
      assert (2 ^ d2 * 2 ^ 23 < (q0 + 1) * 2 ^ d2) by nia.
      assert (2 ^ 23 < q0 + 1) by nia. lia. }
    assert (24 <= Zdigits2 q0); [|lia].
    destruct q0 as [|pq|pq]; try lia. cbn [Zdigits2]. apply digits2_pos_ge. exact Hq23. }
  destruct (binary_round_aux_den_spec (xorb sx sy) q0 e' (Zpos my) r0 Hq0 ltac:(lia) Hr0 HT)
    as (m1 & q & rem & Heq & Hrem & Hm1 & Hexact & Hq & Hn & Hx).
  set (T := fexp F32.prec F32.emax (Zdigits2 q0 + e')) in *.
  assert (HT149 : -149 <= T) by (subst T; rewrite fexp_eq; lia).
  destruct (rounded_props (xorb sx sy) m1 q T Hm1 Hq HT149 Hn) as [Hwf Hsv].
  rewrite <- Hx in Hwf, Hsv.
  set (res := binary_round_aux F32.prec F32.emax (xorb sx sy) q0 e'
                (new_location (Zpos my) r0)) in *.
  unfold ebase in *.
  assert (HP : 0 < 2 ^ (T - -298)) by (apply pow2_pos; lia).
  assert (HE : 0 < 2 ^ (e' - -298)) by (apply pow2_pos; lia).
  assert (HN : 0 < 2 ^ (T - e')) by (apply pow2_pos; lia).
  assert (HPs : 2 ^ (T - -298) = 2 ^ (T - e') * 2 ^ (e' - -298)).
  { rewrite <- pow2_split by lia. f_equal. lia. }
  assert (HA : 0 < 2 ^ (ey - -298)) by (apply pow2_pos; lia).
  assert (Hxs : 2 ^ (ex - -298) * 2 ^ 298 = 2 ^ s * 2 ^ (e' - -298) * 2 ^ (ey - -298)).
  { rewrite <- !pow2_split by lia. f_equal. unfold s. lia. }
  pose proof sval_inf_pos as Hinf.
  assert (Hav : aval res = Z.min (m1 * 2 ^ (T - -298)) sval_inf).
  { unfold aval. rewrite Hsv. apply aval_cond_Zopp. apply Z.min_glb; nia. }
  set (P := 2 ^ (T - -298)) in *. set (E := 2 ^ (e' - -298)) in *.
  set (A := 2 ^ (ey - -298)) in *. set (D := Zpos my) in *.
  assert (HD : 0 < D) by (unfold D; lia).
  assert (HW : m' * E = q * P * D + rem * E).
  { rewrite Hdiv. replace (D * q0 + r0) with (q0 * D + r0) by ring. rewrite Heq, HPs. ring. }
  assert (Hrho : 0 <= rem * E < P * D).
  { rewrite HPs. split; [apply Z.mul_nonneg_nonneg; lia|].
    replace (2 ^ (T - e') * E * D) with (2 ^ (T - e') * D * E) by ring.
    apply Z.mul_lt_mono_pos_r; lia. }
  assert (H149 : 2 ^ 149 <= P) by (apply Z.pow_le_mono_r; lia).
  assert (H1P : 1 < P) by (assert (1 < 2 ^ 149) by reflexivity; lia).
  split; [exact Hwf|]. split; [rewrite Hsv, Hav; reflexivity|].
  assert (Hcross : Zpos mx * 2 ^ (ex - -298) * 2 ^ 298 = m' * E * A).
  { rewrite Hm'. replace (Zpos mx * 2 ^ s * E * A) with (Zpos mx * (2 ^ s * E * A)) by ring.
    rewrite <- Hxs. ring. }
  rewrite Hcross, Hav.
  assert (HPdef : 2 ^ (T - -298) = P) by reflexivity.
  clear Hcross Hxs Hav Hsv Hwf Hx Heq Hdiv Hm' HPs HT Bx By Hd1lo Hd1hi Hd2lo Hd2hi.
  clearbody P E A D res T m' s e' d1 d2.
  split.
  - intros f Hf Hle. destruct (aval_repr f Hf) as (Hfi & mf & ef & Hmf & Hef & Hfa).
    apply Z.min_glb; [|assumption].
    assert (HF : aval f * D <= m' * E).
    { apply (Z.mul_le_mono_pos_r _ _ A HA). lia. }
    unfold ebase in Hfa. rewrite Hfa in HF |- *. clear Hle Hfa Hfi.
    assert (HF1 : mf * 2 ^ (ef - -298) * D < (q + 1) * P * D) by lia.
    assert (HF2 : mf * 2 ^ (ef - -298) < (q + 1) * P)
      by (apply (Z.mul_lt_mono_pos_r D); assumption).
    rewrite <- HPdef in *.
    apply (round_lower q (2 ^ (T - -298) - 1) m1 T mf ef); unfold ebase; lia.
  - intros f Hf Hle. destruct (aval_repr f Hf) as (Hfi & mf & ef & Hmf & Hef & Hfa).
    etransitivity; [apply Z.le_min_l|].
    assert (HF : m' * E <= aval f * D).
    { apply (Z.mul_le_mono_pos_r _ _ A HA). lia. }
    unfold ebase in Hfa. rewrite Hfa in HF |- *. clear Hle Hfa Hfi.
    destruct (Z.eq_dec rem 0) as [Hz|Hz].
    + rewrite (Hexact Hz). rewrite Hz in HW.
      apply (Z.mul_le_mono_pos_r _ _ D HD). lia.
    + assert (0 < rem * E) by (apply Z.mul_pos_pos; lia).
      assert (HF1 : q * P * D < mf * 2 ^ (ef - -298) * D) by lia.
      assert (HF2 : q * P < mf * 2 ^ (ef - -298))
        by (apply (Z.mul_lt_mono_pos_r D); assumption).
      rewrite <- HPdef in *.
      apply (round_upper q 1 m1 T mf ef); unfold ebase; lia.
Qed.

(** ** Nearness of rounding, exact conversions and truncation *)

(** Rounding to nearest raises a magnitude by at most one part in
    [2 ^ 24], or by half the spacing of the subnormal numbers. *)
Lemma binary_round_aux_near (s : bool) (m : positive) (e : Z) :
  ebase <= e -> e <= fexp F32.prec F32.emax (Zpos (digits2_pos m) + e) ->
  let x := binary_round_aux F32.prec F32.emax s (Zpos m) e loc_Exact in
  let V := Zpos m * 2 ^ (e - ebase) in
  2 ^ 24 * (aval x - V) <= Z.max V (2 ^ 172).
Proof.
  intros He HT x V.
  destruct (binary_round_aux_spec s m e HT)
    as (m1 & q & rem & Heq & Hrem & Hm1 & Hex & Hq & Hn & Hdown & Hx).
  set (T := fexp F32.prec F32.emax (Zpos (digits2_pos m) + e)) in *.
  assert (HT149 : -149 <= T) by (subst T; rewrite fexp_eq; lia).
  destruct (rounded_props s m1 q T Hm1 Hq HT149 Hn) as [Hwf Hsv].
  fold x in Hx. rewrite <- Hx in Hsv.
  unfold ebase in *.
  assert (HP : 0 < 2 ^ (T - -298)) by (apply pow2_pos; lia).
  assert (HE : 0 < 2 ^ (e - -298)) by (apply pow2_pos; lia).
  assert (HN : 0 < 2 ^ (T - e)) by (apply pow2_pos; lia).
  assert (HPs : 2 ^ (T - -298) = 2 ^ (T - e) * 2 ^ (e - -298)).
  { rewrite <- pow2_split by lia. f_equal. lia. }
  pose proof sval_inf_pos as Hinf.
  assert (Hav : aval x <= m1 * 2 ^ (T - -298)).
  { unfold aval. rewrite Hsv, aval_cond_Zopp; [apply Z.le_min_l|].
    apply Z.min_glb; [apply Z.mul_nonneg_nonneg; lia|lia]. }
  assert (HV : V = q * 2 ^ (T - -298) + rem * 2 ^ (e - -298)).
  { unfold V, ebase. rewrite Heq, HPs. ring. }
  assert (H149 : T = -149 \/ 2 ^ 23 <= q) by (destruct (Z.eq_dec T (-149)); [left|right]; auto; apply Hn; lia).
  assert (HP149 : T = -149 -> 2 ^ (T - -298) = 2 ^ 149) by (intros ->; reflexivity).
  set (P := 2 ^ (T - -298)) in *. set (E := 2 ^ (e - -298)) in *.
  set (N := 2 ^ (T - e)) in *.
  clear Hx Hsv Hwf Heq HT He.
  clearbody P E N V x T.
  assert (HrE : 0 <= rem * E) by (apply Z.mul_nonneg_nonneg; lia).
  assert (Hmax : V <= Z.max V (2 ^ 172) /\ 2 ^ 172 <= Z.max V (2 ^ 172)) by lia.
  set (M := Z.max V (2 ^ 172)) in *. clearbody M.
  destruct (Z.eq_dec m1 q) as [Hmq|Hmq].
  - rewrite Hmq in Hav. assert (0 <= V) by (rewrite HV; apply Z.add_nonneg_nonneg; [apply Z.mul_nonneg_nonneg|]; lia). lia.
  - assert (Hm1q : m1 = q + 1) by lia.
    assert (Hhalf : N <= 2 * rem) by (destruct (Z_lt_le_dec (2 * rem) N) as [Hlt|]; [specialize (Hdown Hlt); lia|assumption]).
    assert (H2 : N * E <= 2 * rem * E) by (apply Z.mul_le_mono_nonneg_r; lia).
    assert (Hd : 2 * (aval x - V) <= P).
    { rewrite Hm1q in Hav. rewrite HV, HPs in *. lia. }
    destruct H149 as [Ht|Hq23].
    + rewrite (HP149 Ht) in Hd. change (2 ^ 172) with (2 ^ 23 * 2 ^ 149) in Hmax. lia.
    + assert (2 ^ 23 * P <= q * P) by (apply Z.mul_le_mono_nonneg_r; lia). lia.
Qed.

(** The same for the product of two non-negative finite numbers. *)
Lemma mul_near (x y : float) :
  fin x = true -> fin y = true -> 0 <= sval x -> 0 <= sval y ->
  2 ^ 24 * (sval (x * y)%f32 * 2 ^ 298 - sval x * sval y)
  <= Z.max (sval x * sval y) (2 ^ 470).
Proof.
  intros Hx Hy Hx0 Hy0.
  assert (H298 : 0 < 2 ^ 298) by (apply pow2_pos; lia).
  assert (H470 : 0 < 2 ^ 470) by (apply pow2_pos; lia).
  destruct x as [sx|sx| |sx mx ex]; try discriminate;
    destruct y as [sy|sy| |sy my ey]; try discriminate;
    try (cbn [F32.mul SFmul sval]; rewrite ?Z.mul_0_l, ?Z.mul_0_r; cbn [Z.sub Z.opp Z.add Z.mul]; lia).
  pose proof (fin_finite _ _ _ Hx) as Bx. pose proof (fin_finite _ _ _ Hy) as By.
  destruct (bounded_inv _ _ Bx) as (Hex & Hmx & Hnx).
  destruct (bounded_inv _ _ By) as (Hey & Hmy & Hny).
  assert (Hsx : sx = false).
  { destruct sx; [|reflexivity]. cbn [sval cond_Zopp] in Hx0.
    pose proof (finite_mag_bounds mx ex Bx). lia. }
  assert (Hsy : sy = false).
  { destruct sy; [|reflexivity]. cbn [sval cond_Zopp] in Hy0.
    pose proof (finite_mag_bounds my ey By). lia. }
  subst sx sy.
  assert (He : ebase <= ex + ey) by (unfold ebase; lia).
  assert (HT : ex + ey <= fexp F32.prec F32.emax (Zpos (digits2_pos (mx * my)) + (ex + ey))).
  { rewrite fexp_eq.
    destruct (Z_le_gt_dec (ex + ey) (-149)) as [|Hg]; [lia|].
    assert (24 <= Zpos (digits2_pos (mx * my))); [|lia].
    apply digits2_pos_ge. rewrite Pos2Z.inj_mul. change (2 ^ (24 - 1)) with (2 ^ 23).
    destruct (Z_le_gt_dec ex (-149)); [specialize (Hny ltac:(lia))|specialize (Hnx ltac:(lia))]; nia. }
  pose proof (binary_round_aux_near false (mx * my) (ex + ey) He HT) as Hnear.
  destruct (binary_round_aux_mono false (mx * my) (ex + ey) He HT) as (_ & Hs & _).
  cbv zeta in *. cbn [cond_Zopp] in Hs.
  unfold F32.mul, SFmul. cbn [xorb].
  set (z := binary_round_aux F32.prec F32.emax false (Zpos (mx * my)) (ex + ey) loc_Exact) in *.
  rewrite Hs. cbn [sval cond_Zopp].
  set (V := Zpos (mx * my) * 2 ^ (ex + ey - ebase)) in *.
  assert (Hprod : Zpos mx * 2 ^ (ex - ebase) * (Zpos my * 2 ^ (ey - ebase)) = V * 2 ^ 298).
  { unfold V, ebase. rewrite Pos2Z.inj_mul.
    replace (ex + ey - -298) with ((ex - -298) + (ey - -298) - 298) by lia.
    assert (Hsplit : 2 ^ (ex - -298) * 2 ^ (ey - -298)
                     = 2 ^ (ex - -298 + (ey - -298) - 298) * 2 ^ 298).
    { rewrite <- !pow2_split by lia. f_equal. lia. }
    replace (Zpos mx * 2 ^ (ex - -298) * (Zpos my * 2 ^ (ey - -298)))
      with (Zpos mx * Zpos my * (2 ^ (ex - -298) * 2 ^ (ey - -298))) by ring.
    rewrite Hsplit. ring. }
  rewrite Hprod.
  assert (HV0 : 0 <= V).
  { unfold V. apply Z.mul_nonneg_nonneg; [lia|]. apply Z.pow_nonneg. lia. }
  clearbody V z. clear Hprod Hs.
  replace (aval z * 2 ^ 298 - V * 2 ^ 298) with ((aval z - V) * 2 ^ 298) by ring.
  change (2 ^ 470) with (2 ^ 172 * 2 ^ 298).
  rewrite Z.mul_max_distr_nonneg_r by lia.
  rewrite Z.mul_assoc. apply Z.mul_le_mono_nonneg_r; lia.
Qed.

(** Integers of at most 24 bits convert to [float] exactly. *)
Lemma of_Z_exact (z : Z) :
  0 <= z <= 2 ^ 24 ->
  fin (F32.of_Z z) = true /\ sval (F32.of_Z z) = z * 2 ^ 298.
Proof.
  intros Hz.
  destruct (Z.eq_dec z 0) as [->|Hz0]; [split; reflexivity|].
  destruct (Z.eq_dec z (2 ^ 24)) as [->|Hz24]; [split; reflexivity|].
  destruct z as [|p|p]; try lia.
  destruct (digits2_pos_bounds p) as [Hlo Hhi].
  set (d := Zpos (digits2_pos p)) in *.
  assert (Hd1 : 1 <= d) by (unfold d; lia).
  assert (Hd24 : d <= 24) by (apply digits2_pos_le; lia).
  assert (H2 : 0 < 2 ^ (24 - d)) by (apply pow2_pos; lia).
  assert (Hsplit : 2 ^ 24 = 2 ^ d * 2 ^ (24 - d))
    by (rewrite <- pow2_split by lia; f_equal; lia).
  assert (Hsplit' : 2 ^ 23 = 2 ^ (d - 1) * 2 ^ (24 - d))
    by (rewrite <- pow2_split by lia; f_equal; lia).
  set (mz := Zpos p * 2 ^ (24 - d)).
  assert (Hmz : 2 ^ 23 <= mz < 2 ^ 24) by (unfold mz; nia).
  set (f := S754_finite false (Z.to_pos mz) (d - 24)).
  assert (Hpm : Zpos (Z.to_pos mz) = mz) by (apply Z2Pos.id; lia).
  assert (Hf : fin f = true).
  { apply fin_intro. apply bounded_intro; rewrite ?Hpm; lia. }
  assert (Hfv : sval f = Zpos p * 2 ^ 298).
  { unfold f. cbn [sval cond_Zopp]. rewrite Hpm. unfold mz, ebase.
    rewrite <- Z.mul_assoc, <- pow2_split by lia. f_equal. f_equal. lia. }
  destruct (of_Z_mono (Zpos p)) as (Hwf & Hl & Hu). cbv zeta in *.
  pose proof (fin_wf f Hf) as Hwff.
  assert (H1 : sval f <= sval (F32.of_Z (Zpos p))) by (apply Hl; [assumption|lia]).
  assert (H3 : sval (F32.of_Z (Zpos p)) <= sval f) by (apply Hu; [assumption|lia]).
  split; [|lia].
  apply (wf_bounded_fin _ f f); try assumption. lia.
Qed.

(** The integral part of a non-negative finite number. *)
Lemma trunc_spec (x : float) :
  fin x = true -> 0 <= sval x -> F32.trunc x = Some (sval x / 2 ^ 298).
Proof.
  intros Hx H0.
  assert (H298 : 0 < 2 ^ 298) by (apply pow2_pos; lia).
  destruct x as [s|s| |s m e]; try discriminate.
  - reflexivity.
  - pose proof (fin_finite _ _ _ Hx) as B.
    destruct (bounded_inv _ _ B) as (He & _).
    pose proof (finite_mag_bounds m e B) as Hmag.
    destruct s; [cbn [sval cond_Zopp] in H0; lia|].
    cbn [F32.trunc sval cond_Zopp]. f_equal. unfold ebase.
    destruct e as [|p|p].
    + cbn [Z.shiftl]. change (0 - -298) with 298. rewrite Z.div_mul by lia. reflexivity.
    + rewrite Z.shiftl_mul_pow2 by lia.
      replace (Zpos p - -298) with (Zpos p + 298) by lia.
      rewrite pow2_split, Z.mul_assoc, Z.div_mul by lia. reflexivity.
    + rewrite Z.shiftr_div_pow2 by lia.
      assert (Hs : 2 ^ 298 = 2 ^ Zpos p * 2 ^ (Zneg p - -298)).
      { rewrite <- pow2_split by lia. f_equal. lia. }
      rewrite Hs. rewrite Z.div_mul_cancel_r; [reflexivity| |].
      * assert (0 < 2 ^ Zpos p) by (apply pow2_pos; lia). lia.
      * assert (0 < 2 ^ (Zneg p - -298)) by (apply pow2_pos; lia). lia.
Qed.

(** The position ratio [count / cpr] of an encoder of at most [2 ^ 24]
    counts per revolution stays below one. *)
Lemma pos_ratio_below_one (count cpr : Z) :
  0 <= count < cpr -> cpr <= 2 ^ 24 ->
  let r := (F32.of_Z count / F32.of_Z cpr)%f32 in
  fin r = true /\ 0 <= sval r <= (2 ^ 24 - 1) * 2 ^ 274.
Proof.
  intros Hc Hcpr r.
  destruct (of_Z_exact count ltac:(lia)) as [Hx Hxv].
  destruct (of_Z_exact cpr ltac:(lia)) as [Hy Hyv].
  assert (H298 : 0 < 2 ^ 298) by (apply pow2_pos; lia).
  set (pred1 := S754_finite false 16777215 (-24)).
  assert (Hp1 : fin pred1 = true) by reflexivity.
  assert (Hp1v : sval pred1 = (2 ^ 24 - 1) * 2 ^ 274) by reflexivity.
  assert (Hz : fin F32.zero = true) by reflexivity.
  assert (Hc298 : 0 <= count * 2 ^ 298) by (apply Z.mul_nonneg_nonneg; lia).
  assert (Hp298 : 0 < cpr * 2 ^ 298) by (apply Z.mul_pos_pos; lia).
  assert (Hgoal : wf r = true /\ 0 <= sval r <= sval pred1).
  { unfold r.
    destruct (F32.of_Z cpr) as [sy|sy| |sy my ey] eqn:Ey;
      [cbn [sval] in Hyv; lia|discriminate Hy|discriminate Hy|].
    assert (Hsy : sy = false).
    { destruct sy; [|reflexivity]. cbn [sval cond_Zopp] in Hyv.
      pose proof (finite_mag_bounds my ey (fin_finite _ _ _ Hy)). lia. }
    subst sy.
    destruct (F32.of_Z count) as [sx|sx| |sx mx ex] eqn:Ex;
      [|discriminate Hx|discriminate Hx|].
    - cbn [F32.div SFdiv xorb sval]. split; [reflexivity|]. split; [lia|].
      rewrite Hp1v. apply Z.leb_le. reflexivity.
    - assert (Hsx : sx = false).
      { destruct sx; [|reflexivity]. cbn [sval cond_Zopp] in Hxv.
        pose proof (finite_mag_bounds mx ex (fin_finite _ _ _ Hx)). lia. }
      subst sx.
      destruct (div_mono false false mx my ex ey (fin_finite _ _ _ Hx) (fin_finite _ _ _ Hy))
        as (Hw & Hs & _ & Hu). cbv zeta in *. cbn [xorb cond_Zopp] in Hs.
      split; [exact Hw|]. rewrite Hs.
      split; [apply Z.abs_nonneg|].
      replace (sval pred1) with (aval pred1) by reflexivity.
      apply Hu; [reflexivity|].
      unfold aval. rewrite Hxv, Hyv, Hp1v.
      rewrite (Z.abs_eq (count * 2 ^ 298)), (Z.abs_eq (cpr * 2 ^ 298)) by lia.
      rewrite (Z.abs_eq ((2 ^ 24 - 1) * 2 ^ 274)) by (apply Z.leb_le; reflexivity).
      change (2 ^ 298) with (2 ^ 24 * 2 ^ 274).
      assert (H274 : 0 < 2 ^ 274) by (apply pow2_pos; lia).
      assert (Hk : count * 2 ^ 24 <= (2 ^ 24 - 1) * cpr) by lia.
      set (A := 2 ^ 274) in *. clearbody A.
      replace (count * (2 ^ 24 * A) * (2 ^ 24 * A))
        with (count * 2 ^ 24 * (A * (2 ^ 24 * A))) by ring.
      replace ((2 ^ 24 - 1) * A * (cpr * (2 ^ 24 * A)))
        with ((2 ^ 24 - 1) * cpr * (A * (2 ^ 24 * A))) by ring.
      apply Z.mul_le_mono_nonneg_r; [|assumption].
      apply Z.mul_nonneg_nonneg; lia. }
  destruct Hgoal as [Hw Hb]. split; [|rewrite <- Hp1v; exact Hb].
  apply (wf_bounded_fin _ F32.zero pred1); assumption.
Qed.

(** ** The table lookup *)

(** The fractional table index of an encoder of at most [2 ^ 24] counts
    per revolution and a map of at most [2 ^ 24] entries is a finite
    number from zero to below the size of the map. *)
Lemma cogmap_idxf_range (a : Axis) (c : Controller) :
  0 <= encoder_count_in_cpr_ a < encoder_cpr a -> encoder_cpr a <= 2 ^ 24 ->
  0 < cogmap_size (config_ c) <= 2 ^ 24 ->
  fin (cogmap_idxf a c) = true /\
  0 <= sval (cogmap_idxf a c) < cogmap_size (config_ c) * 2 ^ 298.
Proof.
  intros Hc Hcpr Hn. unfold cogmap_idxf.
  destruct (pos_ratio_below_one _ _ Hc Hcpr) as (Hr & Hr0 & Hr1). cbv zeta in *.
  set (r := (F32.of_Z (encoder_count_in_cpr_ a) / F32.of_Z (encoder_cpr a))%f32) in *.
  set (N := cogmap_size (config_ c)) in *.
  destruct (of_Z_exact N ltac:(lia)) as [Hy Hyv].
  set (y := F32.of_Z N) in *.
  assert (H298 : 0 < 2 ^ 298) by (apply pow2_pos; lia).
  assert (Hy0 : 0 <= sval y) by (rewrite Hyv; apply Z.mul_nonneg_nonneg; lia).
  destruct (mul_mono r y Hr Hy) as (Hw & Hlo & _). cbv zeta in *.
  pose proof (mul_near r y Hr Hy Hr0 Hy0) as Hnear.
  set (z := (r * y)%f32) in *.
  assert (Hz0 : 0 <= sval z).
  { apply (Hlo F32.zero); [reflexivity|]. cbn [sval F32.zero].
    rewrite Z.mul_0_l. apply Z.mul_nonneg_nonneg; assumption. }
  assert (Hlt : sval z < N * 2 ^ 298).
  { rewrite Hyv in Hnear.
    assert (HuN : sval r * N <= (2 ^ 24 - 1) * 2 ^ 274 * N)
      by (apply Z.mul_le_mono_nonneg_r; lia).
    assert (HuN0 : 0 <= sval r * N) by (apply Z.mul_nonneg_nonneg; lia).
    replace (sval r * (N * 2 ^ 298)) with (sval r * N * 2 ^ 298) in Hnear by ring.
    set (u := sval r * N) in *. set (v := sval z) in *. clearbody u v z r y.
    change (2 ^ 470) with (2 ^ 172 * 2 ^ 298) in Hnear.
    rewrite Z.mul_max_distr_nonneg_r in Hnear by lia.
    replace (v * 2 ^ 298 - u * 2 ^ 298) with ((v - u) * 2 ^ 298) in Hnear by ring.
    rewrite Z.mul_assoc in Hnear.
    apply Z.mul_le_mono_pos_r in Hnear; [|assumption].
    change (2 ^ 298) with (2 ^ 24 * 2 ^ 274).
    assert (H274 : 0 < 2 ^ 274) by (apply pow2_pos; lia).
    assert (H172 : 2 ^ 172 < 2 ^ 274) by reflexivity.
    set (A := 2 ^ 274) in *. set (B := 2 ^ 172) in *. clearbody A B.
    assert (HAN : A <= A * N) by nia.
    assert (HuA : u <= (2 ^ 24 - 1) * (A * N)) by lia.
    replace (N * (2 ^ 24 * A)) with (2 ^ 24 * (A * N)) by ring.
    set (AN := A * N) in *. clearbody AN.
    lia. }
  split; [|split; assumption].
  apply wf_le_max_fin; [assumption|].
  unfold aval. rewrite Z.abs_eq by assumption.
  assert (N * 2 ^ 298 <= 2 ^ 24 * 2 ^ 298) by (apply Z.mul_le_mono_nonneg_r; lia).
  assert (2 ^ 24 * 2 ^ 298 <= max_sval) by (apply Z.leb_le; reflexivity).
  lia.
Qed.

(** Both table indices of such an encoder and map are within the map, and
    the interpolation weights [frac] and [1 - frac] are numbers from zero
    to one. *)
Lemma cogmap_index_bounds (a : Axis) (c : Controller) :
  0 <= encoder_count_in_cpr_ a < encoder_cpr a -> encoder_cpr a <= 2 ^ 24 ->
  0 < cogmap_size (config_ c) <= 2 ^ 24 ->
  exists k, cogmap_index a c = Some k /\
            0 <= idx k < cogmap_size (config_ c) /\
            0 <= idx1 k < cogmap_size (config_ c) /\
            idx1 k = (idx k + 1) mod cogmap_size (config_ c) /\
            (F32.zero <=? frac k)%f32 = true /\ (frac k <=? F32.one)%f32 = true /\
            (F32.zero <=? F32.one - frac k)%f32 = true /\
            (F32.one - frac k <=? F32.one)%f32 = true.
Proof.
  intros Hc Hcpr Hn.
  destruct (cogmap_idxf_range a c Hc Hcpr Hn) as (Hf & H0 & H1).
  assert (H298 : 0 < 2 ^ 298) by (apply pow2_pos; lia).
  unfold cogmap_index, to_size_t. rewrite (trunc_spec _ Hf H0).
  set (x := cogmap_idxf a c) in *.
  set (t := sval x / 2 ^ 298).
  assert (Ht : 0 <= t < cogmap_size (config_ c)).
  { unfold t. split; [apply Z.div_pos; lia|].
    apply Z.div_lt_upper_bound; [assumption|]. lia. }
  assert (H2432 : 2 ^ 24 < 2 ^ 32) by reflexivity.
  assert (Ht32 : ((0 <=? t) && (t <? size_t_mod))%bool = true).
  { apply andb_true_iff. split; [apply Z.leb_le; lia|].
    apply Z.ltb_lt. change size_t_mod with (2 ^ 32). lia. }
  rewrite Ht32.
  destruct (Z.eqb_spec (cogmap_size (config_ c)) 0) as [Hz|Hz]; [lia|].
  eexists. split; [reflexivity|]. cbn [idx idx1 frac].
  split; [exact Ht|]. split; [apply Z.mod_pos_bound; lia|].
  split; [change size_t_mod with (2 ^ 32); rewrite (Z.mod_small (t + 1)) by lia; reflexivity|].
  (* the weights *)
  destruct (of_Z_exact t ltac:(lia)) as [Hft Htv].
  assert (Hrem : 0 <= sval x - t * 2 ^ 298 < 2 ^ 298).
  { pose proof (Z.div_mod (sval x) (2 ^ 298) ltac:(lia)) as Hdm.
    pose proof (Z.mod_pos_bound (sval x) (2 ^ 298) H298) as Hmb.
    fold t in Hdm. lia. }
  assert (Hz0 : wf F32.zero = true) by reflexivity.
  assert (Ho : fin F32.one = true) by reflexivity.
  assert (Hov : sval F32.one = 2 ^ 298) by reflexivity.
  destruct (sub_mono x (F32.of_Z t) Hf Hft) as (Hw & Hlo & Hhi). cbv zeta in *.
  set (fr := (x - F32.of_Z t)%f32) in *.
  assert (Hfr0 : 0 <= sval fr).
  { apply (Hlo F32.zero Hz0). cbn [sval F32.zero]. lia. }
  assert (Hfr1 : sval fr <= 2 ^ 298).
  { rewrite <- Hov. apply (Hhi F32.one (fin_wf _ Ho)). lia. }
  assert (Hffr : fin fr = true).
  { apply (wf_bounded_fin _ F32.zero F32.one); try assumption; try reflexivity.
    cbn [sval F32.zero]. lia. }
  destruct (sub_mono F32.one fr Ho Hffr) as (Hw1 & Hlo1 & Hhi1). cbv zeta in *.
  repeat split.
  - apply (leb_sval _ _ Hz0 Hw). cbn [sval F32.zero]. lia.
  - apply (leb_sval _ _ Hw (fin_wf _ Ho)). lia.
  - apply (leb_sval _ _ Hz0 Hw1). apply (Hlo1 F32.zero Hz0). cbn [sval F32.zero]. lia.
  - apply (leb_sval _ _ Hw1 (fin_wf _ Ho)). apply (Hhi1 F32.one (fin_wf _ Ho)). lia.
Qed.


(** ** Comparisons, NaN and small steps *)

Local Open Scope f32_scope.

Lemma limit_velocity_clamp (l v : float) : limit_velocity l v = clamp_bidirf v l.
Proof. reflexivity. Qed.

Lemma leb_fabsf_self (x : float) : F32.is_nan x = false -> (x <=? F32.fabsf x) = true.
Proof.
  destruct x as [[]|[]| |[] m e]; intros H; try discriminate; try reflexivity;
    unfold F32.leb, SFleb; simpl; rewrite Z.compare_refl, Pos.compare_cont_refl; reflexivity.
Qed.

Lemma fabsf_copysignf (x y : float) : F32.fabsf (F32.copysignf x y) = F32.fabsf x.
Proof.
  unfold F32.copysignf. destruct (F32.sign_bit y); destruct x as [[]|[]| |[] m e]; reflexivity.
Qed.

Lemma fabsf_not_nan (x : float) : F32.is_nan (F32.fabsf x) = F32.is_nan x.
Proof. destruct x as [[]|[]| |[] m e]; reflexivity. Qed.

Lemma sign_bit_copysignf (x y : float) :
  F32.is_nan x = false -> F32.is_nan y = false ->
  F32.sign_bit (F32.copysignf x y) = F32.sign_bit y.
Proof.
  unfold F32.copysignf.
  destruct y as [[]|[]| |[] my ey]; destruct x as [[]|[]| |[] m e]; intros; try discriminate;
    reflexivity.
Qed.

Lemma eqb_sval (x y : float) :
  wf x = true -> wf y = true -> (F32.eqb x y = true <-> sval x = sval y).
Proof.
  intros Hx Hy. unfold F32.eqb, SFeqb. rewrite (SFcompare_sval x y Hx Hy).
  destruct (Z.compare_spec (sval x) (sval y)); split; intros; try lia; try reflexivity;
    discriminate.
Qed.

Lemma fin_above_neg_inf (x : float) : fin x = true -> (- sval_inf < sval x < sval_inf)%Z.
Proof.
  intros Hx. pose proof (fin_le_max x Hx) as H. pose proof max_sval_lt_inf.
  assert (0 < 2 ^ 401)%Z by reflexivity. unfold aval in H. lia.
Qed.

(** NaN is absorbing, and passes the current limiter. *)
Lemma sub_nan_r (x : float) : x - S754_nan = S754_nan.
Proof. destruct x as [[]|[]| |[] m e]; reflexivity. Qed.

Lemma mul_nan_r (x : float) : x * S754_nan = S754_nan.
Proof. destruct x as [[]|[]| |[] m e]; reflexivity. Qed.

Lemma add_nan_r (x : float) : x + S754_nan = S754_nan.
Proof. destruct x as [[]|[]| |[] m e]; reflexivity. Qed.

Lemma add_nan_l (x : float) : S754_nan + x = S754_nan.
Proof. destruct x as [[]|[]| |[] m e]; reflexivity. Qed.

Lemma limit_current_nan (l : float) : limit_current l S754_nan = (false, S754_nan).
Proof. destruct l as [[]|[]| |[] m e]; reflexivity. Qed.

Lemma cogmap_adapt_length (m : list float) (k : Cog_index) (corr mx : float)
    (m' : list float) :
  cogmap_adapt m k corr mx = Some m' -> length m' = length m.
Proof.
  assert (Hm : forall l i f l', arr_modify l i f = Some l' -> length l' = length l).
  { unfold arr_modify. intros l i f l'. destruct (arr_get l i); [|discriminate].
    intros H. injection H as <-. apply length_arr_set. }
  unfold cogmap_adapt.
  destruct (arr_modify m (idx k) _) as [l1|] eqn:H1; [|discriminate].
  destruct (arr_modify l1 (idx1 k) _) as [l2|] eqn:H2; [|discriminate].
  destruct (arr_modify l2 (idx k) _) as [l3|] eqn:H3; [|discriminate].
  intros H4. rewrite (Hm _ _ _ _ H4), (Hm _ _ _ _ H3), (Hm _ _ _ _ H2), (Hm _ _ _ _ H1).
  reflexivity.
Qed.

Lemma set_cogmap_same (k : Config_t) : set_cogmap (cogmap k) k = k.
Proof. destruct k; reflexivity. Qed.

Lemma with_axis_error_same (a : Axis) : with_axis_error (axis_error_ a) a = a.
Proof. destruct a; reflexivity. Qed.

(** The step of the velocity ramp: a number on the side of zero where
    the target lies. *)
Lemma ramp_increment_sign (sp tg ms : float) :
  fin sp = true -> fin tg = true -> wf ms = true -> (0 <= sval ms)%Z ->
  let step := clamp_bidirf (tg - sp) ms in
  wf step = true /\
  (sval sp <= sval tg -> 0 <= sval step)%Z /\
  (sval tg <= sval sp -> sval step <= 0)%Z.
Proof.
  intros Hsp Htg Hms Hms0 step.
  destruct (sub_mono tg sp Htg Hsp) as (Hw & Hlo & Hhi). cbv zeta in *.
  assert (Hz : wf F32.zero = true) by reflexivity.
  destruct (clamp_bidirf_mono F32.zero (tg - sp) ms Hz Hw Hms) as (Hws & _ & Hup & Hdn).
  { cbn. lia. }
  split; [exact Hws|]. split; intros Hle.
  - apply Hup. apply (Hlo F32.zero Hz). cbn [sval F32.zero]. lia.
  - apply Hdn. apply (Hhi F32.zero Hz). cbn [sval F32.zero]. lia.
Qed.

(** Multiplying by the literal [0.99f] brings a finite number no further
    from zero and keeps it on its side of zero. *)
Lemma mul_0_99_shrinks (x : float) :
  fin x = true ->
  wf (x * F32.lit_0_99) = true /\
  (0 <= sval x -> 0 <= sval (x * F32.lit_0_99)%f32 <= sval x)%Z /\
  (sval x <= 0 -> sval x <= sval (x * F32.lit_0_99)%f32 <= 0)%Z.
Proof.
  intros Hx. assert (Hy : fin F32.lit_0_99 = true) by reflexivity.
  destruct (mul_mono x F32.lit_0_99 Hx Hy) as (Hw & Hlo & Hhi). cbv zeta in *.
  assert (Hv : sval F32.lit_0_99 = (16609444 * 2 ^ 274)%Z) by reflexivity.
  assert (H298 : (2 ^ 298 = 16777216 * 2 ^ 274)%Z) by reflexivity.
  assert (H274 : (0 < 2 ^ 274)%Z) by reflexivity.
  assert (Hz : wf F32.zero = true) by reflexivity.
  pose proof (fin_wf x Hx) as Hwx.
  split; [exact Hw|]. rewrite Hv in *. split; intros H0; split.
  - apply (Hlo F32.zero Hz). cbn [sval F32.zero]. nia.
  - apply (Hhi x Hwx). rewrite H298. nia.
  - apply (Hlo x Hwx). rewrite H298. nia.
  - apply (Hhi F32.zero Hz). cbn [sval F32.zero]. nia.
Qed.

(** One step of the filter [p += 0.001f * (t - p)] on a non-negative
    finite [p] towards a non-negative finite [t]: the result is a
    non-negative number, and not further from [t] on the side of [p]. *)
Lemma filter_step (p t : float) :
  fin p = true -> fin t = true -> (0 <= sval p)%Z -> (0 <= sval t)%Z ->
  let p' := p + F32.lit_0_001 * (t - p) in
  wf p' = true /\ (0 <= sval p')%Z /\
  (sval p <= sval t -> sval p <= sval p')%Z /\
  (sval t <= sval p -> sval p' <= sval p)%Z.
Proof.
  intros Hp Ht Hp0 Ht0 p'.
  pose proof (fin_wf p Hp) as Hwp. pose proof (fin_wf t Ht) as Hwt.
  assert (Hz : wf F32.zero = true) by reflexivity.
  assert (Hop : wf (- p) = true) by (rewrite wf_opp; assumption).
  pose proof (fin_le_max p Hp) as Hpm. pose proof (fin_le_max t Ht) as Htm.
  unfold aval in Hpm, Htm. rewrite Z.abs_eq in Hpm, Htm by assumption.
  assert (H401 : (0 < 2 ^ 401)%Z) by reflexivity.
  (* the difference *)
  assert (Hd : fin (t - p) = true) by (apply sub_fin; try assumption; lia).
  destruct (sub_mono t p Ht Hp) as (_ & Hdlo & Hdhi). cbv zeta in *.
  set (d := t - p) in *.
  assert (Hd1 : (- sval p <= sval d)%Z).
  { rewrite <- sval_opp. apply Hdlo; [assumption|]. rewrite sval_opp. lia. }
  assert (Hd2 : (sval d <= sval t)%Z) by (apply Hdhi; [assumption|lia]).
  assert (Hd3 : (sval p <= sval t -> 0 <= sval d)%Z).
  { intros H. apply (Hdlo F32.zero Hz). cbn [sval F32.zero]. lia. }
  assert (Hd4 : (sval t <= sval p -> sval d <= 0)%Z).
  { intros H. apply (Hdhi F32.zero Hz). cbn [sval F32.zero]. lia. }
  (* the increment *)
  assert (Hl : fin F32.lit_0_001 = true) by reflexivity.
  destruct (mul_mono F32.lit_0_001 d Hl Hd) as (Hwi & Hilo & Hihi). cbv zeta in *.
  set (i := F32.lit_0_001 * d) in *.
  assert (Hlv : sval F32.lit_0_001 = (8589935 * 2 ^ 265)%Z) by reflexivity.
  assert (H298 : (2 ^ 298 = 8589934592 * 2 ^ 265)%Z) by reflexivity.
  assert (H265 : (0 < 2 ^ 265)%Z) by reflexivity.
  rewrite Hlv in Hilo, Hihi. rewrite H298 in Hilo, Hihi.
  set (A := (2 ^ 265)%Z) in *. clearbody A.
  assert (Hi1 : (- sval p <= sval i)%Z).
  { rewrite <- sval_opp. apply Hilo; [assumption|]. rewrite sval_opp. nia. }
  assert (Hi2 : (sval i <= sval t)%Z) by (apply Hihi; [assumption|nia]).
  assert (Hi3 : (0 <= sval d -> 0 <= sval i)%Z).
  { intros H. apply (Hilo F32.zero Hz). cbn [sval F32.zero]. nia. }
  assert (Hi4 : (sval d <= 0 -> sval i <= 0)%Z).
  { intros H. apply (Hihi F32.zero Hz). cbn [sval F32.zero]. nia. }
  assert (Hfi : fin i = true).
  { apply wf_le_max_fin; [assumption|]. unfold aval. lia. }
  (* the sum *)
  destruct (add_mono p i Hp Hfi) as (Hw & Hslo & Hshi). cbv zeta in *.
  split; [exact Hw|]. split; [|split].
  - apply (Hslo F32.zero Hz). cbn [sval F32.zero]. lia.
  - intros H. apply (Hslo p Hwp). specialize (Hd3 H). specialize (Hi3 Hd3). lia.
  - intros H. apply (Hshi p Hwp). specialize (Hd4 H). specialize (Hi4 Hd4). lia.
Qed.

Lemma square_nonneg (x : float) : fin x = true -> (0 <= sval (x * x)%f32)%Z.
Proof.
  intros Hx. destruct (mul_mono x x Hx Hx) as (_ & Hlo & _).
  apply (Hlo F32.zero); [reflexivity|]. cbn [sval F32.zero]. nia.
Qed.


(** ** The cycle, stage by stage *)

Ltac stage_cbn :=
  cbn -[F32.add F32.sub F32.mul F32.gtb F32.ltb fmodf_pos wrap_pm
        clamp_bidirf limit_velocity traj_time F32.of_Z].

Section Cycle.

Variable K : Constants.

(** The velocity demand comes out of the velocity limiter, whose limit the
    setpoint part of the cycle does not change. *)
Lemma vel_demand_limit (a : Axis) (c : Controller) (pe : float) :
  exists v, vel_demand K a c pe = limit_velocity (vel_limit (config_ c)) v.
Proof.
  unfold vel_demand.
  destruct (setpoint_stage_frame K a c pe) as (_ & _ & _ & _ & m & Hc & _).
  revert Hc. unfold setpoint_stage.
  destruct (position_step a (ramp_step K (trajectory_step K a c)) pe) as [c1 vd].
  cbn [fst snd]. intros ->. exists vd. reflexivity.
Qed.

(** What else the setpoint part of the cycle leaves alone, and the only
    change of mode it makes. *)
Lemma setpoint_stage_keeps (a : Axis) (c : Controller) (pe : float) :
  let c1 := fst (setpoint_stage K a c pe) in
  vel_ramp_target_ c1 = vel_ramp_target_ c /\
  goal_point_ c1 = goal_point_ c /\
  traj_start_loop_count_ c1 = traj_start_loop_count_ c /\
  exists m, config_ c1 = set_control_mode m (config_ c) /\
            (m = control_mode (config_ c) \/
             control_mode (config_ c) = CTRL_MODE_TRAJECTORY_CONTROL /\
             m = CTRL_MODE_POSITION_CONTROL).
Proof.
  unfold setpoint_stage, trajectory_step, ramp_step, position_step, position_error.
  destruct c as [[m pg vg vig vl vlt vre vrr sic cm cs cig cmc] e ps vs vi cu vrt gp ts cc ccp].
  destruct m; stage_cbn; repeat (break_if; stage_cbn);
    repeat split; try reflexivity; eexists; (split; [reflexivity|]); auto.
Qed.

Lemma setpoint_stage_pos_estimate (a : Axis) (c : Controller) (pe pe' : float) :
  mode_geb (control_mode (config_ c)) CTRL_MODE_POSITION_CONTROL = false \/
  setpoints_in_cpr (config_ c) = true ->
  setpoint_stage K a c pe = setpoint_stage K a c pe'.
Proof.
  unfold setpoint_stage, trajectory_step, ramp_step, position_step, position_error.
  destruct c as [[m pg vg vig vl vlt vre vrr sic cm cs cig cmc] e ps vs vi cu vrt gp ts cc ccp].
  destruct m; stage_cbn; intros [H|H]; try discriminate; try subst sic;
    repeat (break_if; stage_cbn); try reflexivity; try discriminate.
Qed.

(** The setpoint part of the cycle in velocity mode is the ramp and the
    velocity limiter. *)
Lemma setpoint_stage_velocity (a : Axis) (c : Controller) (pe : float) :
  control_mode (config_ c) = CTRL_MODE_VELOCITY_CONTROL ->
  setpoint_stage K a c pe
  = (ramp_step K c, limit_velocity (vel_limit (config_ c)) (vel_setpoint_ (ramp_step K c))).
Proof.
  intros Hm. unfold setpoint_stage.
  assert (H1 : trajectory_step K a c = c) by (unfold trajectory_step; rewrite Hm; reflexivity).
  rewrite H1.
  assert (H2 : config_ (ramp_step K c) = config_ c)
    by (unfold ramp_step; break_if; reflexivity).
  unfold position_step. rewrite H2, Hm.
  change (mode_geb CTRL_MODE_VELOCITY_CONTROL CTRL_MODE_POSITION_CONTROL) with false.
  cbv iota. rewrite H2. reflexivity.
Qed.

(** A NaN estimate passes the overspeed check. *)
Lemma overspeed_nan (c : Controller) : overspeed c S754_nan = false.
Proof.
  unfold overspeed, F32.gtb. cbn [F32.fabsf SFabs].
  destruct (vel_limit_tolerance (config_ c) * vel_limit (config_ c)) as [[]|[]| |[] m e];
    cbn; apply andb_false_r.
Qed.

(** A call that returned [false] was aborted by the overspeed check. *)
Lemma update_false_inv (a : Axis) (c : Controller) (pe ve : float) (o : bool)
    (c' : Controller) (a' : Axis) (w : option float) :
  update K a c pe ve o = Returned false c' a' w ->
  overspeed c ve = true /\
  c' = with_error (Z.lor (error_ c) (ERROR_OVERSPEED_of K)) (fst (setpoint_stage K a c pe)) /\
  a' = with_axis_error (Z.lor (axis_error_ a) (ERROR_CONTROLLER_FAILED_of K)) a /\
  w = None.
Proof.
  intros H. destruct (overspeed c ve) eqn:Hov.
  - rewrite (update_overspeed K a c pe ve o Hov) in H. injection H as <- <- <-. auto.
  - destruct (update_never_false_without_overspeed K a c pe ve o _ _ _ _ Hov H) as [Hok _].
    discriminate.
Qed.

Lemma current_stage_keeps (a : Axis) (c : Controller) (vd ve : float)
    (c2 : Controller) (vig v_err Iq : float) :
  current_stage K a c vd ve = Some (c2, vig, v_err, Iq) ->
  vel_ramp_target_ c2 = vel_ramp_target_ c /\
  goal_point_ c2 = goal_point_ c /\
  traj_start_loop_count_ c2 = traj_start_loop_count_ c /\
  exists l, config_ c2 = set_cogmap l (config_ c) /\
            length l = length (cogmap (config_ c)).
Proof.
  unfold current_stage, velocity_step.
  destruct (scheduled_gains a c) as [vg vig0].
  destruct (cogmap_index a c) as [k|]; [|discriminate].
  destruct (arr_get (cogmap (config_ c)) (idx k)) as [m0|]; [|discriminate].
  destruct (arr_get (cogmap (config_ c)) (idx1 k)) as [m1|]; [|discriminate].
  cbn [config_ with_cogmap_current cogmap_current_ control_mode].
  destruct (mode_geb (control_mode (config_ c)) CTRL_MODE_VELOCITY_CONTROL).
  - destruct (cogmap_adapt _ _ _ _) as [m'|] eqn:Ha; [|discriminate].
    apply cogmap_adapt_length in Ha.
    intros H; inversion H; subst; clear H. cbn.
    repeat split; try reflexivity. exists m'. split; [reflexivity|assumption].
  - intros H; inversion H; subst; clear H. cbn.
    repeat split; try reflexivity. exists (cogmap (config_ c)).
    split; [symmetry; apply set_cogmap_same|reflexivity].
Qed.

Lemma integrator_step_keeps (c : Controller) (limited : bool) (vig v_err : float) :
  let c' := integrator_step K c limited vig v_err in
  vel_ramp_target_ c' = vel_ramp_target_ c /\
  goal_point_ c' = goal_point_ c /\
  traj_start_loop_count_ c' = traj_start_loop_count_ c /\
  cogmap_correction_pwr_ c' = cogmap_correction_pwr_ c.
Proof.
  unfold integrator_step. repeat break_if; repeat split; reflexivity.
Qed.

(** What a whole cycle leaves alone. *)
Lemma update_keeps (a : Axis) (c : Controller) (pe ve : float) (o : bool)
    (ok : bool) (c' : Controller) (a' : Axis) (w : option float) :
  update K a c pe ve o = Returned ok c' a' w ->
  vel_ramp_target_ c' = vel_ramp_target_ c /\
  goal_point_ c' = goal_point_ c /\
  traj_start_loop_count_ c' = traj_start_loop_count_ c /\
  exists m l,
    config_ c' = set_cogmap l (set_control_mode m (config_ c)) /\
    length l = length (cogmap (config_ c)) /\
    (m = control_mode (config_ c) \/
     control_mode (config_ c) = CTRL_MODE_TRAJECTORY_CONTROL /\
     m = CTRL_MODE_POSITION_CONTROL).
Proof.
  intros H.
  destruct (setpoint_stage_keeps a c pe) as (Hr1 & Hg1 & Ht1 & m & Hc1 & Hm).
  destruct ok.
  - destruct (update_true_inv K _ _ _ _ _ _ _ _ H)
      as (c2 & vig & v_err & Iq & _ & Hc & Hc' & _ & _).
    destruct (current_stage_keeps _ _ _ _ _ _ _ _ Hc) as (Hr2 & Hg2 & Ht2 & l & Hc2 & Hl).
    destruct (integrator_step_frame K c2 (fst (limit_current (effective_current_lim a) Iq))
                vig v_err) as (Hcfg & _).
    destruct (integrator_step_keeps c2 (fst (limit_current (effective_current_lim a) Iq))
                vig v_err) as (Hr3 & Hg3 & Ht3 & _).
    rewrite <- Hc' in Hcfg, Hr3, Hg3, Ht3.
    split; [congruence|]. split; [congruence|]. split; [congruence|].
    exists m, l. rewrite Hcfg, Hc2, Hc1. split; [reflexivity|]. split; [|exact Hm].
    rewrite Hl, Hc1. destruct (config_ c); reflexivity.
  - destruct (update_false_inv _ _ _ _ _ _ _ _ H) as (_ & -> & _).
    cbn [config_ with_error vel_ramp_target_ goal_point_ traj_start_loop_count_].
    split; [assumption|]. split; [assumption|]. split; [assumption|].
    exists m, (cogmap (config_ c)). rewrite Hc1. split; [|split; [reflexivity|exact Hm]].
    destruct (config_ c); reflexivity.
Qed.
(** The correction power that a cycle leaves. *)
Lemma update_correction_pwr (a : Axis) (c : Controller) (pe ve : float) (o : bool)
    (c' : Controller) (a' : Axis) (w : option float) :
  update K a c pe ve o = Returned true c' a' w ->
  cogmap_correction_pwr_ c'
  = (if mode_geb (control_mode (config_ c)) CTRL_MODE_VELOCITY_CONTROL
     then
       let rate := cogmap_integrator_gain (config_ c) * (vel_demand K a c pe - ve) in
       cogmap_correction_pwr_ c
       + F32.lit_0_001 * (rate * rate - cogmap_correction_pwr_ c)
     else cogmap_correction_pwr_ c).
Proof.
  intros H.
  destruct (update_true_inv K _ _ _ _ _ _ _ _ H)
    as (c2 & vig & v_err & Iq & _ & Hc & Hc' & _ & _).
  destruct (integrator_step_keeps c2 (fst (limit_current (effective_current_lim a) Iq))
              vig v_err) as (_ & _ & _ & Hp).
  rewrite <- Hc' in Hp. rewrite Hp. clear Hc' Hp.
  destruct (setpoint_stage_frame K a c pe) as (_ & _ & _ & Hpw & m & Hcf & Hmm).
  revert Hc. unfold current_stage, velocity_step.
  set (c1 := fst (setpoint_stage K a c pe)) in *.
  destruct (scheduled_gains a c1) as [vg vig0].
  destruct (cogmap_index a c1) as [k|]; [|discriminate].
  destruct (arr_get (cogmap (config_ c1)) (idx k)) as [m0|]; [|discriminate].
  destruct (arr_get (cogmap (config_ c1)) (idx1 k)) as [m1|]; [|discriminate].
  cbn [config_ with_cogmap_current cogmap_current_ control_mode cogmap_correction_pwr_].
  rewrite Hcf. cbn [control_mode set_control_mode cogmap cogmap_integrator_gain
                      cogmap_max_current].
  rewrite Hmm.
  destruct (mode_geb (control_mode (config_ c)) CTRL_MODE_VELOCITY_CONTROL).
  - destruct (cogmap_adapt _ _ _ _) as [m'|] eqn:Ha; [|discriminate].
    intros Hc. injection Hc as <- _ _ _.
    cbn [cogmap_correction_pwr_ with_cogmap_correction_pwr with_config with_cogmap_current].
    rewrite Hpw. reflexivity.
  - intros Hc. injection Hc as <- _ _ _.
    cbn [cogmap_correction_pwr_ with_cogmap_current]. exact Hpw.
Qed.

(** ** Velocity limiting and the velocity ramp *)

(** X1.  The velocity demand that a cycle works with, when it is a number,
    has a magnitude of at most [vel_limit], provided that limit is
    non-negative. *)
Theorem velocity_demand_within_limit (a : Axis) (c : Controller) (pe : float) :
  (F32.zero <=? vel_limit (config_ c)) = true ->
  F32.is_nan (vel_demand K a c pe) = false ->
  (F32.fabsf (vel_demand K a c pe) <=? vel_limit (config_ c)) = true.
Proof.
  destruct (vel_demand_limit a c pe) as [v ->]. rewrite limit_velocity_clamp.
  apply clamp_bidirf_bound.
Qed.

(** X2.  In velocity mode a cycle leaves the velocity setpoint alone when
    the ramp is disabled; when it is enabled the setpoint moves by the
    difference to the ramp target clamped to [current_meas_period *
    vel_ramp_rate], a step that, when it is a number and that bound is
    non-negative, has a magnitude of at most the bound. *)
Theorem update_velocity_ramp_rate
    (a : Axis) (c : Controller) (pe ve : float) (o : bool)
    (ok : bool) (c' : Controller) (a' : Axis) (w : option float) :
  update K a c pe ve o = Returned ok c' a' w ->
  control_mode (config_ c) = CTRL_MODE_VELOCITY_CONTROL ->
  let max_step_size := current_meas_period_of K * vel_ramp_rate (config_ c) in
  let step := clamp_bidirf (vel_ramp_target_ c - vel_setpoint_ c) max_step_size in
  (vel_ramp_enable (config_ c) = false -> vel_setpoint_ c' = vel_setpoint_ c) /\
  (vel_ramp_enable (config_ c) = true ->
   vel_setpoint_ c' = vel_setpoint_ c + step /\
   ((F32.zero <=? max_step_size) = true -> F32.is_nan step = false ->
    (F32.fabsf step <=? max_step_size) = true)).
Proof.
  intros H Hm ms step.
  destruct (update_setpoints K _ _ _ _ _ _ _ _ _ H) as (_ & _ & Hv & _).
  rewrite (setpoint_stage_velocity a c pe Hm) in Hv. cbn [fst] in Hv. rewrite Hv.
  unfold ramp_step. rewrite Hm. cbn [mode_eqb mode_rank Z.eqb andb Pos.eqb].
  split; intros ->; [reflexivity|].
  split; [reflexivity|]. apply clamp_bidirf_bound.
Qed.

(** X3.  With the ramp enabled, finite setpoint, target, period and rate,
    and a non-negative step bound, a cycle in velocity mode never moves
    the velocity setpoint away from the ramp target: a setpoint at or
    below the target does not decrease, one at or above it does not
    increase, and one equal to it keeps its value. *)
Theorem update_velocity_ramp_direction
    (a : Axis) (c : Controller) (pe ve : float) (o : bool)
    (ok : bool) (c' : Controller) (a' : Axis) (w : option float) :
  update K a c pe ve o = Returned ok c' a' w ->
  control_mode (config_ c) = CTRL_MODE_VELOCITY_CONTROL ->
  vel_ramp_enable (config_ c) = true ->
  fin (vel_setpoint_ c) = true -> fin (vel_ramp_target_ c) = true ->
  fin (current_meas_period_of K) = true -> fin (vel_ramp_rate (config_ c)) = true ->
  (F32.zero <=? current_meas_period_of K * vel_ramp_rate (config_ c)) = true ->
  ((vel_setpoint_ c <=? vel_ramp_target_ c) = true ->
   (vel_setpoint_ c <=? vel_setpoint_ c') = true) /\
  ((vel_ramp_target_ c <=? vel_setpoint_ c) = true ->
   (vel_setpoint_ c' <=? vel_setpoint_ c) = true) /\
  (F32.eqb (vel_setpoint_ c) (vel_ramp_target_ c) = true ->
   F32.eqb (vel_setpoint_ c') (vel_setpoint_ c) = true).
Proof.
  intros H Hm He Hsp Htg Hp Hr Hms0.
  destruct (update_setpoints K _ _ _ _ _ _ _ _ _ H) as (_ & _ & Hv & _).
  rewrite (setpoint_stage_velocity a c pe Hm) in Hv. cbn [fst] in Hv. rewrite Hv.
  unfold ramp_step. rewrite Hm, He. cbn [mode_eqb mode_rank Z.eqb andb Pos.eqb].
  cbn [vel_setpoint_ with_vel_setpoint].
  set (ms := current_meas_period_of K * vel_ramp_rate (config_ c)) in *.
  set (sp := vel_setpoint_ c) in *. set (tg := vel_ramp_target_ c) in *.
  assert (Hms : wf ms = true) by (apply (mul_mono _ _ Hp Hr)).
  assert (Hz : wf F32.zero = true) by reflexivity.
  apply (leb_sval _ _ Hz Hms) in Hms0. cbn [sval F32.zero] in Hms0.
  destruct (ramp_increment_sign sp tg ms Hsp Htg Hms Hms0) as (Hws & Hup & Hdn).
  pose proof (fin_wf _ Hsp) as Hwsp. pose proof (fin_wf _ Htg) as Hwtg.
  pose proof (fin_above_neg_inf sp Hsp) as Hb.
  set (step := clamp_bidirf (tg - sp) ms) in *.
  assert (Up : (sval sp <= sval tg ->
                wf (sp + step)%f32 = true /\ sval sp <= sval (sp + step)%f32)%Z).
  { intros Hle. apply add_up; try assumption; [apply Hup; assumption|lia]. }
  assert (Dn : (sval tg <= sval sp ->
                wf (sp + step)%f32 = true /\ sval (sp + step)%f32 <= sval sp)%Z).
  { intros Hle. apply add_down; try assumption; [apply Hdn; assumption|lia]. }
  split; [|split].
  - intros Hle. apply (leb_sval _ _ Hwsp Hwtg) in Hle. destruct (Up Hle) as [Hw Hs].
    apply leb_sval; assumption.
  - intros Hle. apply (leb_sval _ _ Hwtg Hwsp) in Hle. destruct (Dn Hle) as [Hw Hs].
    apply leb_sval; assumption.
  - intros Heq. apply (eqb_sval _ _ Hwsp Hwtg) in Heq.
    destruct (Up ltac:(lia)) as [Hw Hs1]. destruct (Dn ltac:(lia)) as [_ Hs2].
    apply eqb_sval; try assumption. lia.
Qed.

(** ** Gain scheduling *)

(** X4.  For a motor that is not an induction motor the gains of a cycle
    are the configured ones.  For an induction motor both are divided by
    one and the same flux, which, when the rotor flux and the configured
    floor are numbers, has a magnitude of at least the floor and the sign
    of the rotor flux. *)
Theorem scheduled_gains_flux_floor (a : Axis) (c : Controller) :
  (is_acim (motor_type a) = false ->
   scheduled_gains a c = (vel_gain (config_ c), vel_integrator_gain (config_ c)))
  /\
  (is_acim (motor_type a) = true ->
   scheduled_gains a c
   = (vel_gain (config_ c) / effective_flux a,
      vel_integrator_gain (config_ c) / effective_flux a) /\
   (F32.is_nan (acim_rotor_flux a) = false ->
    F32.is_nan (acim_gain_min_flux a) = false ->
    (acim_gain_min_flux a <=? F32.fabsf (effective_flux a)) = true /\
    F32.sign_bit (effective_flux a) = F32.sign_bit (acim_rotor_flux a))).
Proof.
  unfold scheduled_gains, effective_flux. split; intros ->; [reflexivity|].
  split; [reflexivity|]. intros Hf Hm.
  destruct (F32.fabsf (acim_rotor_flux a) <? acim_gain_min_flux a) eqn:Hlt.
  - rewrite fabsf_copysignf. split; [apply leb_fabsf_self; assumption|].
    apply sign_bit_copysignf; assumption.
  - split; [|reflexivity].
    apply ltb_false_leb; try assumption. rewrite fabsf_not_nan. assumption.
Qed.

(** ** What the estimates do not influence *)

(** X5.  Below position mode, and in any mode when [setpoints_in_cpr] is
    set, the outcome of a cycle does not depend on the position estimate
    it is given. *)
Theorem update_ignores_pos_estimate
    (a : Axis) (c : Controller) (pe pe' ve : float) (o : bool) :
  mode_geb (control_mode (config_ c)) CTRL_MODE_POSITION_CONTROL = false \/
  setpoints_in_cpr (config_ c) = true ->
  update K a c pe ve o = update K a c pe' ve o.
Proof.
  intros H. unfold update. rewrite (setpoint_stage_pos_estimate a c pe pe' H). reflexivity.
Qed.

(** X6.  In current mode the velocity estimate matters to the overspeed
    check only: two estimates that both pass it give the same outcome. *)
Theorem update_current_mode_ignores_vel_estimate
    (a : Axis) (c : Controller) (pe ve ve' : float) (o : bool) :
  control_mode (config_ c) = CTRL_MODE_CURRENT_CONTROL ->
  overspeed c ve = false -> overspeed c ve' = false ->
  update K a c pe ve o = update K a c pe ve' o.
Proof.
  intros Hm H1 H2.
  destruct (interpolated_cogging a c) as [cog|] eqn:Hcog.
  - rewrite (update_current_mode_intro K a c pe ve o cog Hm Hcog H1).
    rewrite (update_current_mode_intro K a c pe ve' o cog Hm Hcog H2). reflexivity.
  - unfold update. rewrite (setpoint_stage_current K a c pe Hm). rewrite H1, H2.
    unfold current_stage. unfold interpolated_cogging in Hcog.
    destruct (scheduled_gains a c) as [vg vig].
    destruct (cogmap_index a c) as [k|]; [|reflexivity].
    destruct (arr_get (cogmap (config_ c)) (idx k)) as [m0|]; [|reflexivity].
    destruct (arr_get (cogmap (config_ c)) (idx1 k)) as [m1|]; [discriminate|reflexivity].
Qed.

(** ** The aborted cycle, and a NaN estimate *)

(** X7.  A cycle returns [false] only when the tolerance is positive and
    the magnitude of the velocity estimate exceeds [vel_limit_tolerance *
    vel_limit].  It then writes no current and leaves the integrator, the
    cogging map, the interpolated cogging current and the correction power
    as they were; the controller it leaves is the one after the setpoint
    part of the cycle, with the overspeed flag added. *)
Theorem update_abort_frame
    (a : Axis) (c : Controller) (pe ve : float) (o : bool)
    (c' : Controller) (a' : Axis) (w : option float) :
  update K a c pe ve o = Returned false c' a' w ->
  (vel_limit_tolerance (config_ c) >? F32.zero) = true /\
  (F32.fabsf ve >? vel_limit_tolerance (config_ c) * vel_limit (config_ c)) = true /\
  w = None /\
  c' = with_error (Z.lor (error_ c) (ERROR_OVERSPEED_of K)) (fst (setpoint_stage K a c pe)) /\
  vel_integrator_current_ c' = vel_integrator_current_ c /\
  cogmap (config_ c') = cogmap (config_ c) /\
  cogmap_current_ c' = cogmap_current_ c /\
  cogmap_correction_pwr_ c' = cogmap_correction_pwr_ c.
Proof.
  intros H. destruct (update_false_inv _ _ _ _ _ _ _ _ H) as (Hov & -> & _ & ->).
  unfold overspeed in Hov. apply andb_true_iff in Hov. destruct Hov as [Ht Hv].
  destruct (setpoint_stage_frame K a c pe) as (_ & Hi & Hcc & Hp & m & Hc & _).
  split; [exact Ht|]. split; [exact Hv|]. split; [reflexivity|]. split; [reflexivity|].
  cbn [vel_integrator_current_ config_ cogmap_current_ cogmap_correction_pwr_ with_error].
  split; [exact Hi|]. split; [rewrite Hc; reflexivity|]. split; assumption.
Qed.

(** X8.  A NaN velocity estimate is never reported as overspeed: the
    cycle does not return [false] and touches no error flag.  From
    velocity mode upwards the current it writes is then NaN, and so is the
    integrator it leaves. *)
Theorem update_nan_vel_estimate
    (a : Axis) (c : Controller) (pe : float) (o : bool)
    (ok : bool) (c' : Controller) (a' : Axis) (w : option float) :
  update K a c pe S754_nan o = Returned ok c' a' w ->
  ok = true /\ error_ c' = error_ c /\ a' = a /\
  (mode_geb (control_mode (config_ c)) CTRL_MODE_VELOCITY_CONTROL = true ->
   w = (if o then Some S754_nan else None) /\
   vel_integrator_current_ c' = S754_nan).
Proof.
  intros H.
  destruct (update_never_false_without_overspeed K a c pe S754_nan o _ _ _ _
              (overspeed_nan c) H) as (-> & He & Ha).
  split; [reflexivity|]. split; [exact He|]. split; [exact Ha|]. intros Hmode.
  destruct (update_true_inv K _ _ _ _ _ _ _ _ H)
    as (c2 & vig & v_err & Iq & _ & Hc & Hc' & _ & Hw).
  destruct (current_stage_inv K _ _ _ _ _ _ _ _ Hc)
    as (cog & _ & _ & Hv & HIq & Hm2 & _).
  destruct (setpoint_stage_frame K a c pe) as (_ & _ & _ & _ & m & Hcf & Hmm).
  rewrite Hcf in HIq, Hm2. cbn [control_mode set_control_mode] in HIq, Hm2.
  rewrite Hmm, Hmode in HIq. rewrite sub_nan_r in Hv. subst v_err.
  rewrite mul_nan_r, add_nan_r, add_nan_l in HIq. subst Iq.
  rewrite limit_current_nan in Hw, Hc'. cbn [fst snd] in Hw, Hc'.
  split; [exact Hw|]. subst c'.
  unfold integrator_step. rewrite mode_ltb_geb, Hm2, Hmm, Hmode. cbn [negb].
  cbn [vel_integrator_current_ with_vel_integrator_current].
  rewrite mul_nan_r, add_nan_r. reflexivity.
Qed.

(** ** What a cycle leaves alone *)

(** X9.  Of the configuration a cycle changes nothing but the control
    mode, which only ever goes from trajectory to position mode, and the
    entries of the cogging map, whose length stays the same.  It leaves
    the ramp target, the goal point and the start count of the trajectory
    alone, and of the axis it changes nothing but the error flags. *)
Theorem update_preserves_configuration
    (a : Axis) (c : Controller) (pe ve : float) (o : bool)
    (ok : bool) (c' : Controller) (a' : Axis) (w : option float) :
  update K a c pe ve o = Returned ok c' a' w ->
  (exists m l,
     config_ c' = set_cogmap l (set_control_mode m (config_ c)) /\
     length l = length (cogmap (config_ c)) /\
     (m = control_mode (config_ c) \/
      control_mode (config_ c) = CTRL_MODE_TRAJECTORY_CONTROL /\
      m = CTRL_MODE_POSITION_CONTROL)) /\
  vel_ramp_target_ c' = vel_ramp_target_ c /\
  goal_point_ c' = goal_point_ c /\
  traj_start_loop_count_ c' = traj_start_loop_count_ c /\
  a' = with_axis_error (axis_error_ a') a.
Proof.
  intros H. destruct (update_keeps _ _ _ _ _ _ _ _ _ H) as (Hr & Hg & Ht & Hcfg).
  split; [exact Hcfg|]. split; [exact Hr|]. split; [exact Hg|]. split; [exact Ht|].
  destruct ok.
  - destruct (update_true_inv K _ _ _ _ _ _ _ _ H) as (_ & _ & _ & _ & _ & _ & _ & -> & _).
    symmetry. apply with_axis_error_same.
  - destruct (update_false_inv _ _ _ _ _ _ _ _ H) as (_ & _ & -> & _).
    destruct a; reflexivity.
Qed.

(** X10.  The setpoints that a cycle does not touch: in current mode none
    of the three; in velocity mode the position and current setpoints,
    and the velocity setpoint too when the ramp is disabled; in position
    mode the velocity and current setpoints, and the position setpoint too
    unless [setpoints_in_cpr] is set. *)
Theorem update_setpoints_untouched
    (a : Axis) (c : Controller) (pe ve : float) (o : bool)
    (ok : bool) (c' : Controller) (a' : Axis) (w : option float) :
  update K a c pe ve o = Returned ok c' a' w ->
  (control_mode (config_ c) = CTRL_MODE_CURRENT_CONTROL ->
   pos_setpoint_ c' = pos_setpoint_ c /\ vel_setpoint_ c' = vel_setpoint_ c /\
   current_setpoint_ c' = current_setpoint_ c) /\
  (control_mode (config_ c) = CTRL_MODE_VELOCITY_CONTROL ->
   pos_setpoint_ c' = pos_setpoint_ c /\ current_setpoint_ c' = current_setpoint_ c /\
   (vel_ramp_enable (config_ c) = false -> vel_setpoint_ c' = vel_setpoint_ c)) /\
  (control_mode (config_ c) = CTRL_MODE_POSITION_CONTROL ->
   vel_setpoint_ c' = vel_setpoint_ c /\ current_setpoint_ c' = current_setpoint_ c /\
   (setpoints_in_cpr (config_ c) = false -> pos_setpoint_ c' = pos_setpoint_ c)).
Proof.
  intros H.
  destruct (update_setpoints K _ _ _ _ _ _ _ _ _ H) as (_ & Hp & Hv & Hi).
  split; [|split]; intros Hm.
  - rewrite (setpoint_stage_current K a c pe Hm) in Hp, Hv, Hi. auto.
  - rewrite (setpoint_stage_velocity a c pe Hm) in Hp, Hv, Hi. cbn [fst] in Hp, Hv, Hi.
    unfold ramp_step in Hp, Hv, Hi. rewrite Hm in Hp, Hv, Hi.
    cbn [mode_eqb mode_rank Z.eqb andb Pos.eqb] in Hp, Hv, Hi.
    destruct (vel_ramp_enable (config_ c)); cbn in Hp, Hi; repeat split; auto; discriminate.
  - assert (Hg : mode_geb (control_mode (config_ c)) CTRL_MODE_POSITION_CONTROL = true)
      by (rewrite Hm; reflexivity).
    rewrite (setpoint_stage_position K a c pe Hg) in Hp, Hv, Hi. cbn [fst] in Hp, Hv, Hi.
    assert (Ht : trajectory_step K a c = c) by (unfold trajectory_step; rewrite Hm; reflexivity).
    rewrite Ht in Hp, Hv, Hi. unfold position_error in Hp, Hv, Hi.
    destruct (setpoints_in_cpr (config_ c)); cbn in Hp, Hv, Hi; repeat split; auto; discriminate.
Qed.

(** ** Commands *)

(** X11.  A trajectory started by [move_to_pos] is in trajectory mode and
    is evaluated, [n] counts of the axis' loop counter later, at the time
    [n * current_meas_period], also when the 32-bit counter has wrapped
    around in between: past the planner's duration the trajectory step
    switches to position mode, otherwise it samples the planner there. *)
Theorem move_to_pos_elapsed_time
    (planTrapezoidal : Planner) (goal_point : float) (c : Controller) (a a2 : Axis)
    (n : Z) :
  let c1 := fst (move_to_pos planTrapezoidal goal_point c a) in
  let a1 := snd (move_to_pos planTrapezoidal goal_point c a) in
  (0 <= n < 2 ^ 32)%Z ->
  loop_counter_ a2 = ((loop_counter_ a1 + n) mod 2 ^ 32)%Z ->
  control_mode (config_ c1) = CTRL_MODE_TRAJECTORY_CONTROL /\
  traj_time K a2 c1 = F32.of_Z n * current_meas_period_of K /\
  trajectory_step K a2 c1
  = (if F32.of_Z n * current_meas_period_of K >? trap_Tf_ a2
     then with_current_setpoint F32.zero
            (with_vel_setpoint F32.zero
               (with_config (set_control_mode CTRL_MODE_POSITION_CONTROL (config_ c1)) c1))
     else
       let s := trap_eval a2 (F32.of_Z n * current_meas_period_of K) in
       with_current_setpoint (Ydd s * trap_A_per_css a2)
         (with_vel_setpoint (Yd s) (with_pos_setpoint (Y s) c1))).
Proof.
  intros c1 a1 Hn Hl.
  assert (Hm : control_mode (config_ c1) = CTRL_MODE_TRAJECTORY_CONTROL) by reflexivity.
  assert (Ht : traj_time K a2 c1 = F32.of_Z n * current_meas_period_of K).
  { unfold traj_time. rewrite Hl. f_equal. f_equal.
    change (traj_start_loop_count_ c1) with (loop_counter_ a1).
    change uint32_mod with (2 ^ 32)%Z.
    rewrite Zminus_mod_idemp_l.
    replace (loop_counter_ a1 + n - loop_counter_ a1)%Z with n by lia.
    apply Z.mod_small. assumption. }
  split; [exact Hm|]. split; [exact Ht|].
  unfold trajectory_step. rewrite Hm, Ht. reflexivity.
Qed.

(** X12.  After any cycle, a relative move from the goal point aims at the
    goal point as it was before the cycle plus the displacement, whatever
    the cycle did to the position setpoint, and its plan starts from the
    position and velocity setpoints that the cycle left; a relative move
    from the position setpoint aims at that setpoint plus the
    displacement. *)
Theorem move_incremental_after_update
    (planTrapezoidal : Planner) (displacement : float)
    (a : Axis) (c : Controller) (pe ve : float) (o : bool)
    (ok : bool) (c' : Controller) (a' : Axis) (w : option float) :
  update K a c pe ve o = Returned ok c' a' w ->
  let from_goal := move_incremental planTrapezoidal displacement true c' a' in
  let from_setpoint := move_incremental planTrapezoidal displacement false c' a' in
  goal_point_ (fst from_goal) = goal_point_ c + displacement /\
  snd from_goal
  = planTrapezoidal (goal_point_ c + displacement) (pos_setpoint_ c') (vel_setpoint_ c') a' /\
  control_mode (config_ (fst from_goal)) = CTRL_MODE_TRAJECTORY_CONTROL /\
  traj_start_loop_count_ (fst from_goal) = loop_counter_ (snd from_goal) /\
  goal_point_ (fst from_setpoint) = pos_setpoint_ c' + displacement.
Proof.
  intros H. destruct (update_keeps _ _ _ _ _ _ _ _ _ H) as (_ & Hg & _).
  cbn. rewrite Hg. repeat split; reflexivity.
Qed.

(** X13.  A setpoint command takes effect on the next cycle whatever mode
    was active, a trajectory included: after [set_current_setpoint] the
    cycle runs in current mode with the commanded feed-forward and leaves
    the other two setpoints alone; after [set_vel_setpoint], the ramp
    being disabled, the velocity demand is the limited commanded
    velocity; after [set_pos_setpoint], [setpoints_in_cpr] being unset,
    it is the limited sum of the velocity feed-forward and [pos_gain]
    times the distance to the commanded position. *)
Theorem setpoint_commands_override_mode
    (a : Axis) (c : Controller) (pe ve : float) (o : bool)
    (ok : bool) (c' : Controller) (a' : Axis) (w : option float) :
  (forall i,
     update K a (set_current_setpoint i c) pe ve o = Returned ok c' a' w ->
     control_mode (config_ c') = CTRL_MODE_CURRENT_CONTROL /\
     current_setpoint_ c' = i /\
     pos_setpoint_ c' = pos_setpoint_ c /\ vel_setpoint_ c' = vel_setpoint_ c) /\
  (forall v i,
     vel_ramp_enable (config_ c) = false ->
     update K a (set_vel_setpoint v i c) pe ve o = Returned ok c' a' w ->
     control_mode (config_ c') = CTRL_MODE_VELOCITY_CONTROL /\
     vel_setpoint_ c' = v /\ current_setpoint_ c' = i /\
     pos_setpoint_ c' = pos_setpoint_ c /\
     vel_demand K a (set_vel_setpoint v i c) pe = limit_velocity (vel_limit (config_ c)) v) /\
  (forall p v i,
     setpoints_in_cpr (config_ c) = false ->
     update K a (set_pos_setpoint p v i c) pe ve o = Returned ok c' a' w ->
     control_mode (config_ c') = CTRL_MODE_POSITION_CONTROL /\
     pos_setpoint_ c' = p /\ vel_setpoint_ c' = v /\ current_setpoint_ c' = i /\
     vel_demand K a (set_pos_setpoint p v i c) pe
     = limit_velocity (vel_limit (config_ c)) (v + pos_gain (config_ c) * (p - pe))).
Proof.
  split; [|split].
  - intros i H.
    destruct (update_setpoints K _ _ _ _ _ _ _ _ _ H) as (Hm & Hp & Hv & Hi).
    rewrite (setpoint_stage_current K a (set_current_setpoint i c) pe eq_refl) in Hm, Hp, Hv, Hi.
    cbn in Hm, Hp, Hv, Hi. auto.
  - intros v i Hr H.
    destruct (update_setpoints K _ _ _ _ _ _ _ _ _ H) as (Hm & Hp & Hv & Hi).
    unfold vel_demand.
    rewrite (setpoint_stage_velocity a (set_vel_setpoint v i c) pe eq_refl) in *.
    assert (Hrs : ramp_step K (set_vel_setpoint v i c) = set_vel_setpoint v i c).
    { unfold ramp_step. cbn [config_ set_vel_setpoint with_config with_current_setpoint
                               with_vel_setpoint set_control_mode vel_ramp_enable control_mode].
      rewrite Hr. rewrite andb_false_r. reflexivity. }
    rewrite Hrs in *. cbn in Hm, Hp, Hv, Hi. cbn [fst snd]. repeat split; auto.
  - intros p v i Hs H.
    destruct (update_setpoints K _ _ _ _ _ _ _ _ _ H) as (Hm & Hp & Hv & Hi).
    unfold vel_demand.
    rewrite (setpoint_stage_position K a (set_pos_setpoint p v i c) pe eq_refl) in *.
    assert (Ht : trajectory_step K a (set_pos_setpoint p v i c) = set_pos_setpoint p v i c)
      by reflexivity.
    rewrite Ht in *. unfold position_error in *.
    cbn [config_ set_pos_setpoint with_config with_current_setpoint with_pos_setpoint
           with_vel_setpoint set_control_mode setpoints_in_cpr] in *.
    rewrite Hs in *. cbn in Hm, Hp, Hv, Hi. cbn. repeat split; auto.
Qed.

(** X14.  While a trajectory is running, [reset] only clears the
    integrator: the next cycle takes the three setpoints from the planner
    again, and its outcome is that of the same cycle on the controller
    with a zero integrator. *)
Theorem reset_during_trajectory
    (a : Axis) (c : Controller) (pe ve : float) (o : bool) :
  control_mode (config_ c) = CTRL_MODE_TRAJECTORY_CONTROL ->
  (traj_time K a c >? trap_Tf_ a) = false ->
  update K a (reset c) pe ve o
  = update K a (with_vel_integrator_current F32.zero c) pe ve o.
Proof.
  intros Hm Ht.
  assert (Hs : setpoint_stage K a (reset c) pe
               = setpoint_stage K a (with_vel_integrator_current F32.zero c) pe).
  { unfold setpoint_stage, trajectory_step.
    assert (H1 : traj_time K a (reset c) = traj_time K a c) by reflexivity.
    assert (H2 : traj_time K a (with_vel_integrator_current F32.zero c) = traj_time K a c)
      by reflexivity.
    cbn [config_ reset with_current_setpoint with_vel_integrator_current with_vel_setpoint
           with_pos_setpoint].
    rewrite Hm. cbn [mode_eqb mode_rank Z.eqb Pos.eqb]. rewrite H1, H2, Ht. reflexivity. }
  unfold update. rewrite Hs. reflexivity.
Qed.

(** ** Defined behaviour of the table lookup *)

(** X15.  With an encoder count from 0 to below [cpr], at most [2 ^ 24]
    counts per revolution, a map size from 1 to [2 ^ 24] and a map of at
    least that many entries, both table indices of a cycle are within the
    map, [idx1] is the successor of [idx] modulo the size, the weights
    [frac] and [1 - frac] are numbers from zero to one, and the cycle has
    defined behaviour: it returns. *)
Theorem update_defined (a : Axis) (c : Controller) (pe ve : float) (o : bool) :
  (0 <= encoder_count_in_cpr_ a < encoder_cpr a)%Z -> (encoder_cpr a <= 2 ^ 24)%Z ->
  (0 < cogmap_size (config_ c) <= 2 ^ 24)%Z ->
  (cogmap_size (config_ c) <= Z.of_nat (length (cogmap (config_ c))))%Z ->
  (exists k, cogmap_index a c = Some k /\
             (0 <= idx k < cogmap_size (config_ c))%Z /\
             (0 <= idx1 k < cogmap_size (config_ c))%Z /\
             idx1 k = ((idx k + 1) mod cogmap_size (config_ c))%Z /\
             (F32.zero <=? frac k) = true /\ (frac k <=? F32.one) = true /\
             (F32.zero <=? F32.one - frac k) = true /\
             (F32.one - frac k <=? F32.one) = true) /\
  anticogging_defined a c = true /\
  exists ok c' a' w, update K a c pe ve o = Returned ok c' a' w.
Proof.
  intros Hc Hcpr Hn Hlen.
  destruct (cogmap_index_bounds a c Hc Hcpr Hn) as (k & Hk & Hi0 & Hi1 & Hrest).
  assert (Hd : anticogging_defined a c = true).
  { unfold anticogging_defined, interpolated_cogging. rewrite Hk.
    destruct (arr_get_in_bounds (cogmap (config_ c)) (idx k) ltac:(lia)) as [m0 ->].
    destruct (arr_get_in_bounds (cogmap (config_ c)) (idx1 k) ltac:(lia)) as [m1 ->].
    reflexivity. }
  split; [exists k; auto|]. split; [exact Hd|].
  destruct (overspeed c ve) eqn:Hov.
  - rewrite (update_overspeed K a c pe ve o Hov). eauto.
  - destruct (update_proceeds K a c pe ve o Hov Hd) as (c' & w & H & _). eauto.
Qed.

(** ** The integrator under limiting, and the correction power *)

(** X16.  From velocity mode upwards, a cycle in which the current limiter
    fires leaves a finite integrator no larger in magnitude than it was,
    and on the same side of zero. *)
Theorem update_integrator_decay
    (a : Axis) (c : Controller) (pe ve : float) (o : bool)
    (c' : Controller) (a' : Axis) (w : option float) :
  update K a c pe ve o = Returned true c' a' w ->
  mode_geb (control_mode (config_ c)) CTRL_MODE_VELOCITY_CONTROL = true ->
  clamp_fires K a c pe ve = Some true ->
  fin (vel_integrator_current_ c) = true ->
  (F32.fabsf (vel_integrator_current_ c') <=? F32.fabsf (vel_integrator_current_ c)) = true /\
  ((F32.zero <=? vel_integrator_current_ c) = true ->
   (F32.zero <=? vel_integrator_current_ c') = true) /\
  ((vel_integrator_current_ c <=? F32.zero) = true ->
   (vel_integrator_current_ c' <=? F32.zero) = true).
Proof.
  intros H Hm Hf Hx.
  destruct (update_true_accumulated K _ _ _ _ _ _ _ _ H)
    as (cog & Iq & limited & _ & _ & Hcl & _ & _ & _ & _ & Hint).
  rewrite Hcl in Hf. injection Hf as ->.
  rewrite mode_ltb_geb, Hm in Hint. cbn [negb] in Hint. rewrite Hint.
  set (x := vel_integrator_current_ c) in *.
  destruct (mul_0_99_shrinks x Hx) as (Hw & Hpos & Hneg).
  pose proof (fin_wf x Hx) as Hwx.
  assert (Hz : wf F32.zero = true) by reflexivity.
  split; [|split].
  - apply leb_sval; rewrite ?wf_fabsf; try assumption. rewrite !sval_fabsf. lia.
  - intros H0. apply (leb_sval _ _ Hz Hwx) in H0. cbn [sval F32.zero] in H0.
    apply (leb_sval _ _ Hz Hw). cbn [sval F32.zero]. lia.
  - intros H0. apply (leb_sval _ _ Hwx Hz) in H0. cbn [sval F32.zero] in H0.
    apply (leb_sval _ _ Hw Hz). cbn [sval F32.zero]. lia.
Qed.

(** X17.  Below velocity mode a cycle that returns [true] leaves the
    correction power alone.  From velocity mode upwards it moves it by
    [0.001f] times its distance to the square of the correction rate
    [cogmap_integrator_gain * v_err]; a finite non-negative power, with a
    finite rate of finite square, then stays a non-negative number and
    does not move away from that square. *)
Theorem update_correction_power
    (a : Axis) (c : Controller) (pe ve : float) (o : bool)
    (c' : Controller) (a' : Axis) (w : option float) :
  update K a c pe ve o = Returned true c' a' w ->
  let p := cogmap_correction_pwr_ c in
  let rate := cogmap_integrator_gain (config_ c) * (vel_demand K a c pe - ve) in
  (mode_geb (control_mode (config_ c)) CTRL_MODE_VELOCITY_CONTROL = false ->
   cogmap_correction_pwr_ c' = p) /\
  (mode_geb (control_mode (config_ c)) CTRL_MODE_VELOCITY_CONTROL = true ->
   cogmap_correction_pwr_ c' = p + F32.lit_0_001 * (rate * rate - p) /\
   (fin p = true -> (F32.zero <=? p) = true ->
    fin rate = true -> fin (rate * rate) = true ->
    (F32.zero <=? cogmap_correction_pwr_ c') = true /\
    ((p <=? rate * rate) = true -> (p <=? cogmap_correction_pwr_ c') = true) /\
    ((rate * rate <=? p) = true -> (cogmap_correction_pwr_ c' <=? p) = true))).
Proof.
  intros H p rate. pose proof (update_correction_pwr a c pe ve o c' a' w H) as Hp.
  split; intros Hm; rewrite Hm in Hp; [exact Hp|].
  cbv zeta in Hp. fold rate p in Hp. split; [exact Hp|].
  intros Hfp Hp0 Hfr Hfr2. rewrite Hp.
  assert (Hz : wf F32.zero = true) by reflexivity.
  pose proof (fin_wf p Hfp) as Hwp. pose proof (fin_wf _ Hfr2) as Hwr.
  apply (leb_sval _ _ Hz Hwp) in Hp0. cbn [sval F32.zero] in Hp0.
  destruct (filter_step p (rate * rate) Hfp Hfr2 Hp0 (square_nonneg rate Hfr))
    as (Hw & H0 & Hup & Hdn).
  cbv zeta in *. split; [|split].
  - apply (leb_sval _ _ Hz Hw). exact H0.
  - intros Hle. apply (leb_sval _ _ Hwp Hwr) in Hle. apply (leb_sval _ _ Hwp Hw). auto.
  - intros Hle. apply (leb_sval _ _ Hwr Hwp) in Hle. apply (leb_sval _ _ Hw Hwp). auto.
Qed.

End Cycle.

(** ** The properties on the sample controllers *)

(** A position error of 1000 counts asks for 20000 counts/s, which the
    limiter brings down to the limit of 10. *)
Lemma velocity_demand_within_limit_witness :
  let a := sample_axis 0 8192 0 F32.zero in
  let c := sample_controller CTRL_MODE_POSITION_CONTROL false (F32.of_Z 1000) F32.zero in
  vel_demand sample_constants a c F32.zero = F32.of_Z 10 /\
  (F32.fabsf (vel_demand sample_constants a c F32.zero) <=? vel_limit (config_ c)) = true.
Proof.
  intros a c. split; [vm_compute; reflexivity|].
  apply velocity_demand_within_limit; vm_compute; reflexivity.
Defined.

(** Ramping from rest towards 5 counts/s: one cycle moves the setpoint by
    the full step of 1.25. *)
Lemma update_velocity_ramp_rate_witness :
  let a := sample_axis 0 8192 0 F32.zero in
  let c := ramp_controller (F32.of_Z 5) in
  let max_step_size := current_meas_period_of sample_constants * vel_ramp_rate (config_ c) in
  exists c' a' w,
    update sample_constants a c F32.zero F32.zero true = Returned true c' a' w /\
    vel_setpoint_ c' = F32.zero + max_step_size /\
    (F32.fabsf (clamp_bidirf (vel_ramp_target_ c - vel_setpoint_ c) max_step_size)
     <=? max_step_size) = true.
Proof.
  intros a c ms.
  destruct (update sample_constants a c F32.zero F32.zero true) as [|[] c' a' w] eqn:H;
    try (vm_compute in H; discriminate).
  destruct (update_velocity_ramp_rate sample_constants a c F32.zero F32.zero true
              true c' a' w H eq_refl) as (_ & Hr).
  destruct (Hr eq_refl) as (Hv & Hb).
  exists c', a', w. split; [reflexivity|]. split; [rewrite Hv; vm_compute; reflexivity|].
  apply Hb; vm_compute; reflexivity.
Defined.

Lemma update_velocity_ramp_direction_witness :
  let a := sample_axis 0 8192 0 F32.zero in
  let c := ramp_controller (F32.of_Z 5) in
  exists c' a' w,
    update sample_constants a c F32.zero F32.zero true = Returned true c' a' w /\
    (vel_setpoint_ c <=? vel_setpoint_ c') = true.
Proof.
  intros a c.
  destruct (update sample_constants a c F32.zero F32.zero true) as [|[] c' a' w] eqn:H;
    try (vm_compute in H; discriminate).
  exists c', a', w. split; [reflexivity|].
  destruct (update_velocity_ramp_direction sample_constants a c F32.zero F32.zero true
              true c' a' w H) as (Hup & _); [vm_compute; reflexivity ..|].
  apply Hup. vm_compute. reflexivity.
Defined.

(** An induction motor at zero flux with a floor of one: the gains are
    divided by one. *)
Lemma scheduled_gains_flux_floor_witness :
  let a := acim_axis F32.zero F32.one in
  let c := sample_controller CTRL_MODE_VELOCITY_CONTROL false F32.zero F32.zero in
  effective_flux a = F32.one /\
  scheduled_gains a c = (F32.of_Z 1 / F32.one, F32.of_Z 1 / F32.one) /\
  (acim_gain_min_flux a <=? F32.fabsf (effective_flux a)) = true.
Proof.
  intros a c. split; [reflexivity|].
  destruct (scheduled_gains_flux_floor a c) as (_ & H).
  destruct (H eq_refl) as (Hg & Hb). split; [exact Hg|].
  apply Hb; reflexivity.
Defined.

Lemma update_ignores_pos_estimate_witness :
  let a := sample_axis 0 8192 0 F32.zero in
  let c := sample_controller CTRL_MODE_VELOCITY_CONTROL false F32.zero F32.zero in
  update sample_constants a c F32.zero (F32.of_Z 2) true
  = update sample_constants a c (F32.of_Z 1000) (F32.of_Z 2) true.
Proof.
  intros a c. apply update_ignores_pos_estimate. left. reflexivity.
Defined.

Lemma update_current_mode_ignores_vel_estimate_witness :
  let a := sample_axis 0 8192 0 F32.zero in
  let c := sample_controller CTRL_MODE_CURRENT_CONTROL false F32.zero F32.zero in
  update sample_constants a c F32.zero F32.zero true
  = update sample_constants a c F32.zero (F32.of_Z 11) true.
Proof.
  intros a c. apply update_current_mode_ignores_vel_estimate; vm_compute; reflexivity.
Defined.

(** A velocity estimate of 13 against a limit of 10 and a tolerance of
    1.2: the cycle is aborted and the integrator of 1 stays. *)
Lemma update_abort_frame_witness :
  let a := sample_axis 0 8192 0 F32.zero in
  let c := sample_controller CTRL_MODE_VELOCITY_CONTROL false F32.zero (F32.of_Z 1) in
  exists c' a',
    update sample_constants a c F32.zero (F32.of_Z 13) true = Returned false c' a' None /\
    vel_integrator_current_ c' = F32.of_Z 1 /\
    cogmap (config_ c') = cogmap (config_ c).
Proof.
  intros a c.
  destruct (update sample_constants a c F32.zero (F32.of_Z 13) true) as [|[] c' a' w] eqn:H;
    try (vm_compute in H; discriminate).
  destruct (update_abort_frame sample_constants a c F32.zero (F32.of_Z 13) true c' a' w H)
    as (_ & _ & -> & _ & Hi & Hm & _).
  exists c', a'. split; [reflexivity|]. split; assumption.
Defined.

Lemma update_nan_vel_estimate_witness :
  let a := sample_axis 0 8192 0 F32.zero in
  let c := sample_controller CTRL_MODE_VELOCITY_CONTROL false F32.zero (F32.of_Z 1) in
  exists c',
    update sample_constants a c F32.zero S754_nan true = Returned true c' a (Some S754_nan) /\
    vel_integrator_current_ c' = S754_nan.
Proof.
  intros a c.
  destruct (update sample_constants a c F32.zero S754_nan true) as [|ok c' a' w] eqn:H;
    [vm_compute in H; discriminate|].
  destruct (update_nan_vel_estimate sample_constants a c F32.zero true ok c' a' w H)
    as (-> & _ & -> & Hm).
  destruct (Hm eq_refl) as (-> & Hi).
  exists c'. split; [reflexivity|exact Hi].
Defined.

(** A trajectory that is over (8000 cycles, one second, against half a
    second): the mode goes to position control and nothing else of the
    configuration moves. *)
Lemma update_preserves_configuration_witness :
  let a := sample_axis 8000 8192 0 F32.zero in
  let c := sample_controller CTRL_MODE_TRAJECTORY_CONTROL false F32.zero F32.zero in
  exists c' w,
    update sample_constants a c F32.zero F32.zero true = Returned true c' a w /\
    control_mode (config_ c') = CTRL_MODE_POSITION_CONTROL /\
    length (cogmap (config_ c')) = 4%nat /\
    goal_point_ c' = goal_point_ c.
Proof.
  intros a c.
  destruct (update sample_constants a c F32.zero F32.zero true) as [|[] c' a' w] eqn:H;
    try (vm_compute in H; discriminate).
  destruct (update_preserves_configuration sample_constants a c F32.zero F32.zero true
              true c' a' w H) as ((m & l & Hc & Hl & _) & _ & Hg & _ & Ha).
  assert (Ha' : a' = a) by (vm_compute in H; injection H as _ <- _; reflexivity).
  subst a'. exists c', w. split; [reflexivity|].
  split; [vm_compute in H; injection H as <- _; reflexivity|].
  split; [rewrite Hc; exact Hl|exact Hg].
Defined.

Lemma update_setpoints_untouched_witness :
  let a := sample_axis 0 8192 0 F32.zero in
  let c := sample_controller CTRL_MODE_VELOCITY_CONTROL false (F32.of_Z 7) F32.zero in
  exists c' a' w,
    update sample_constants a c F32.zero (F32.of_Z 2) true = Returned true c' a' w /\
    pos_setpoint_ c' = F32.of_Z 7 /\ vel_setpoint_ c' = F32.zero.
Proof.
  intros a c.
  destruct (update sample_constants a c F32.zero (F32.of_Z 2) true) as [|[] c' a' w] eqn:H;
    try (vm_compute in H; discriminate).
  destruct (update_setpoints_untouched sample_constants a c F32.zero (F32.of_Z 2) true
              true c' a' w H) as (_ & Hv & _).
  destruct (Hv eq_refl) as (Hp & _ & Hs).
  exists c', a', w. split; [reflexivity|]. split; [exact Hp|exact (Hs eq_refl)].
Defined.

(** A move started two counts before the loop counter wraps around, looked
    at five counts later. *)
Lemma move_to_pos_elapsed_time_witness :
  let a := sample_axis (2 ^ 32 - 2) 8192 0 F32.zero in
  let a2 := sample_axis 3 8192 0 F32.zero in
  let c := sample_controller CTRL_MODE_POSITION_CONTROL false F32.zero F32.zero in
  let c1 := fst (move_to_pos sample_planner (F32.of_Z 100) c a) in
  control_mode (config_ c1) = CTRL_MODE_TRAJECTORY_CONTROL /\
  traj_time sample_constants a2 c1 = F32.of_Z 5 * current_meas_period_of sample_constants.
Proof.
  intros a a2 c c1.
  destruct (move_to_pos_elapsed_time sample_constants sample_planner (F32.of_Z 100) c a a2 5)
    as (Hm & Ht & _); [split; [discriminate|reflexivity]|reflexivity|].
  split; [exact Hm|exact Ht].
Defined.

Lemma move_incremental_after_update_witness :
  let a := sample_axis 0 8192 0 F32.zero in
  let c := sample_controller CTRL_MODE_POSITION_CONTROL false (F32.of_Z 7) F32.zero in
  exists c' a' w,
    update sample_constants a c F32.zero F32.zero true = Returned true c' a' w /\
    goal_point_ (fst (move_incremental sample_planner (F32.of_Z 3) true c' a'))
    = goal_point_ c + F32.of_Z 3 /\
    goal_point_ (fst (move_incremental sample_planner (F32.of_Z 3) false c' a'))
    = pos_setpoint_ c' + F32.of_Z 3.
Proof.
  intros a c.
  destruct (update sample_constants a c F32.zero F32.zero true) as [|[] c' a' w] eqn:H;
    try (vm_compute in H; discriminate).
  destruct (move_incremental_after_update sample_constants sample_planner (F32.of_Z 3)
              a c F32.zero F32.zero true true c' a' w H) as (Hg & _ & _ & _ & Hs).
  exists c', a', w. split; [reflexivity|]. split; [exact Hg|exact Hs].
Defined.

(** A current command in the middle of a trajectory. *)
Lemma setpoint_commands_override_mode_witness :
  let a := sample_axis 0 8192 0 F32.zero in
  let c := sample_controller CTRL_MODE_TRAJECTORY_CONTROL false (F32.of_Z 7) F32.zero in
  exists c' a' w,
    update sample_constants a (set_current_setpoint (F32.of_Z 2) c) F32.zero F32.zero true
    = Returned true c' a' w /\
    control_mode (config_ c') = CTRL_MODE_CURRENT_CONTROL /\
    current_setpoint_ c' = F32.of_Z 2 /\ pos_setpoint_ c' = F32.of_Z 7.
Proof.
  intros a c.
  destruct (update sample_constants a (set_current_setpoint (F32.of_Z 2) c)
              F32.zero F32.zero true) as [|[] c' a' w] eqn:H;
    try (vm_compute in H; discriminate).
  destruct (setpoint_commands_override_mode sample_constants a c F32.zero F32.zero true
              true c' a' w) as (Hc & _).
  destruct (Hc (F32.of_Z 2) H) as (Hm & Hi & Hp & _).
  exists c', a', w. split; [reflexivity|]. split; [exact Hm|]. split; [exact Hi|exact Hp].
Defined.

Lemma reset_during_trajectory_witness :
  let a := sample_axis 0 8192 0 F32.zero in
  let c := sample_controller CTRL_MODE_TRAJECTORY_CONTROL false (F32.of_Z 7) (F32.of_Z 1) in
  update sample_constants a (reset c) F32.zero F32.zero true
  = update sample_constants a (with_vel_integrator_current F32.zero c) F32.zero F32.zero true.
Proof.
  intros a c. apply reset_during_trajectory; vm_compute; reflexivity.
Defined.

(** The last count of a revolution of 8192 counts on a map of four
    entries. *)
Lemma update_defined_witness :
  let a := sample_axis 0 8192 8191 F32.zero in
  let c := sample_controller CTRL_MODE_VELOCITY_CONTROL false F32.zero F32.zero in
  (exists k, cogmap_index a c = Some k /\ (0 <= idx k < 4)%Z /\ (0 <= idx1 k < 4)%Z) /\
  exists ok c' a' w,
    update sample_constants a c F32.zero (F32.of_Z 2) true = Returned ok c' a' w.
Proof.
  intros a c.
  destruct (update_defined sample_constants a c F32.zero (F32.of_Z 2) true)
    as ((k & Hk & H0 & H1 & _) & _ & Hu);
    [vm_compute; split; congruence|vm_compute; congruence|vm_compute; split; congruence
    |vm_compute; congruence|].
  split; [exists k; auto|exact Hu].
Defined.

(** An integrator of 1 in a cycle whose current is limited. *)
Lemma update_integrator_decay_witness :
  let a := sample_axis 0 8192 0 F32.zero in
  let c := sample_controller CTRL_MODE_VELOCITY_CONTROL false F32.zero (F32.of_Z 1) in
  exists c' a' w,
    update sample_constants a c F32.zero (F32.of_Z (-11)) true = Returned true c' a' w /\
    (F32.fabsf (vel_integrator_current_ c') <=? F32.fabsf (vel_integrator_current_ c)) = true /\
    (F32.zero <=? vel_integrator_current_ c') = true.
Proof.
  intros a c.
  destruct (update sample_constants a c F32.zero (F32.of_Z (-11)) true)
    as [|[] c' a' w] eqn:H; try (vm_compute in H; discriminate).
  destruct (update_integrator_decay sample_constants a c F32.zero (F32.of_Z (-11)) true
              c' a' w H) as (Hd & Hp & _); [reflexivity|vm_compute; reflexivity|reflexivity|].
  exists c', a', w. split; [reflexivity|]. split; [exact Hd|].
  apply Hp. vm_compute. reflexivity.
Defined.

(** A velocity error of -2 with a correction gain of 1: the power rises
    from zero. *)
Lemma update_correction_power_witness :
  let a := sample_axis 0 8192 0 F32.zero in
  let c := sample_controller CTRL_MODE_VELOCITY_CONTROL false F32.zero F32.zero in
  exists c' a' w,
    update sample_constants a c F32.zero (F32.of_Z 2) true = Returned true c' a' w /\
    (F32.zero <=? cogmap_correction_pwr_ c') = true /\
    (cogmap_correction_pwr_ c <=? cogmap_correction_pwr_ c') = true.
Proof.
  intros a c.
  destruct (update sample_constants a c F32.zero (F32.of_Z 2) true)
    as [|[] c' a' w] eqn:H; try (vm_compute in H; discriminate).
  destruct (update_correction_power sample_constants a c F32.zero (F32.of_Z 2) true
              c' a' w H) as (_ & Hv).
  destruct (Hv eq_refl) as (_ & Hb).
  destruct Hb as (H0 & Hup & _); [vm_compute; reflexivity ..|].
  exists c', a', w. split; [reflexivity|]. split; [exact H0|].
  apply Hup. vm_compute. reflexivity.
Defined.

(** * The cycle over utilities that meet the specification *)

(** The cycle over the modelled utilities is the cycle above. *)
Lemma update_with_modelled (K : Constants) (a : Axis) (c : Controller)
    (pe ve : float) (o : bool) :
  update_with K modelled_utilities a c pe ve o = update K a c pe ve o.
Proof. reflexivity. Qed.

(** ** The utilities *)

Local Open Scope Z_scope.

Lemma round_sval_spec (z : Z) :
  wf (round_sval z) = true /\
  (forall f, wf f = true -> sval f <= z -> sval f <= sval (round_sval z)) /\
  (forall f, wf f = true -> z <= sval f -> sval (round_sval z) <= sval f).
Proof.
  pose proof (binary_normalize_mono z ebase false (Z.le_refl _)) as H.
  cbv zeta in H. rewrite Z.sub_diag, Z.pow_0_r, Z.mul_1_r in H. exact H.
Qed.

(** Rounding a value that is a float returns it. *)
Lemma round_sval_exact (r : float) :
  wf r = true -> sval (round_sval (sval r)) = sval r.
Proof.
  intros Hr. destruct (round_sval_spec (sval r)) as (_ & Hlo & Hhi).
  pose proof (Hlo r Hr (Z.le_refl _)). pose proof (Hhi r Hr (Z.le_refl _)). lia.
Qed.

Lemma zero_ltb_sval (y : float) :
  fin y = true -> ((F32.zero <? y)%f32 = true <-> 0 < sval y).
Proof.
  intros Hy. rewrite (ltb_sval F32.zero y eq_refl (fin_wf _ Hy)). reflexivity.
Qed.

Lemma exact_fmodf_pos_normalises : normalises exact_fmodf_pos.
Proof.
  intros x y Hy Hpos. apply (zero_ltb_sval y Hy) in Hpos.
  assert (Hwy : wf y = true) by (apply fin_wf; assumption).
  unfold exact_fmodf_pos. rewrite Hy.
  assert (Hp : (0 <? sval y) = true) by (apply Z.ltb_lt; assumption).
  rewrite Hp, !andb_true_r.
  destruct (fin x) eqn:Hx.
  - set (z := sval x mod sval y).
    assert (Hz : 0 <= z < sval y) by (apply Z.mod_pos_bound; assumption).
    destruct (round_sval_spec z) as (Hw & Hlo & Hhi).
    assert (H0 : 0 <= sval (round_sval z)) by (apply (Hlo F32.zero); [reflexivity|cbn; lia]).
    assert (H1 : sval (round_sval z) <= sval y) by (apply (Hhi y); [assumption|lia]).
    assert (Hf : fin (round_sval z) = true).
    { apply (wf_bounded_fin _ F32.zero y); try assumption; [reflexivity|]. cbn [sval F32.zero]. lia. }
    cbv zeta.
    destruct (round_sval z <? y)%f32 eqn:Hlt.
    + split; [exact Hf|]. split; [apply leb_sval; [reflexivity|assumption|exact H0]|].
      split; [exact Hlt|].
      intros _ r Hr Hr0 Hr1 Hc.
      assert (Hwr : wf r = true) by (apply fin_wf; assumption).
      apply eqb_sval; try assumption.
      apply leb_sval in Hr0; [|reflexivity|assumption]. cbn [sval F32.zero] in Hr0.
      apply ltb_sval in Hr1; try assumption.
      assert (Hzr : z = sval r).
      { unfold z. apply Z.mod_divide in Hc; [|lia]. destruct Hc as [q Hq].
        replace (sval x) with (sval r + q * sval y) by lia.
        rewrite Z.mod_add by lia. apply Z.mod_small. lia. }
      rewrite Hzr. apply round_sval_exact. assumption.
    + split; [reflexivity|]. split; [reflexivity|]. split; [apply ltb_sval; auto|].
      intros _ r Hr Hr0 Hr1 Hc. exfalso.
      assert (Hwr : wf r = true) by (apply fin_wf; assumption).
      apply leb_sval in Hr0; [|reflexivity|assumption]. cbn [sval F32.zero] in Hr0.
      apply ltb_sval in Hr1; try assumption.
      assert (Hzr : z = sval r).
      { unfold z. apply Z.mod_divide in Hc; [|lia]. destruct Hc as [q Hq].
        replace (sval x) with (sval r + q * sval y) by lia.
        rewrite Z.mod_add by lia. apply Z.mod_small. lia. }
      assert (Hs : sval (round_sval z) = sval r) by (rewrite Hzr; apply round_sval_exact; assumption).
      assert (Hc' : sval (round_sval z) < sval y) by lia.
      apply (ltb_sval _ y Hw Hwy) in Hc'. congruence.
  - split; [reflexivity|]. split; [reflexivity|]. split; [apply ltb_sval; auto|].
    intros Hc. discriminate.
Qed.

Lemma exact_wrap_pm_wraps : wraps exact_wrap_pm.
Proof.
  intros x h Hh Hpos. apply (zero_ltb_sval h Hh) in Hpos.
  assert (Hwh : wf h = true) by (apply fin_wf; assumption).
  assert (Hwo : wf (- h)%f32 = true) by (rewrite wf_opp; assumption).
  assert (Hfo : fin (- h)%f32 = true) by (rewrite fin_opp; assumption).
  unfold exact_wrap_pm. rewrite Hh.
  assert (Hp : (0 <? sval h) = true) by (apply Z.ltb_lt; assumption).
  rewrite Hp, !andb_true_r.
  destruct (fin x) eqn:Hx.
  - set (z := (sval x + sval h) mod (2 * sval h) - sval h).
    assert (Hz : - sval h <= z < sval h).
    { pose proof (Z.mod_pos_bound (sval x + sval h) (2 * sval h) ltac:(lia)). unfold z. lia. }
    destruct (round_sval_spec z) as (Hw & Hlo & Hhi).
    assert (H0 : - sval h <= sval (round_sval z)).
    { rewrite <- sval_opp. apply Hlo; [assumption|rewrite sval_opp; lia]. }
    assert (H1 : sval (round_sval z) <= sval h) by (apply (Hhi h); [assumption|lia]).
    assert (Hf : fin (round_sval z) = true).
    { apply (wf_bounded_fin _ (- h)%f32 h); try assumption. rewrite sval_opp. lia. }
    assert (Huniq : forall r, fin r = true -> (- h <=? r)%f32 = true -> (r <? h)%f32 = true ->
                    (sval x - sval r) mod (2 * sval h) = 0 -> z = sval r).
    { intros r Hr Hr0 Hr1 Hc.
      assert (Hwr : wf r = true) by (apply fin_wf; assumption).
      apply leb_sval in Hr0; try assumption. rewrite sval_opp in Hr0.
      apply ltb_sval in Hr1; try assumption.
      unfold z. apply Z.mod_divide in Hc; [|lia]. destruct Hc as [q Hq].
      replace (sval x + sval h) with (sval r + sval h + q * (2 * sval h)) by lia.
      rewrite Z.mod_add by lia. rewrite Z.mod_small by lia. lia. }
    cbv zeta.
    destruct (round_sval z <? h)%f32 eqn:Hlt.
    + split; [exact Hf|]. split; [apply leb_sval; [assumption|assumption|rewrite sval_opp; exact H0]|].
      split; [exact Hlt|].
      intros _ r Hr Hr0 Hr1 Hc.
      assert (Hwr : wf r = true) by (apply fin_wf; assumption).
      apply eqb_sval; try assumption.
      rewrite (Huniq r Hr Hr0 Hr1 Hc). apply round_sval_exact. assumption.
    + split; [exact Hfo|].
      split; [apply leb_sval; [assumption|assumption|lia]|].
      split; [apply ltb_sval; [assumption|assumption|rewrite sval_opp; lia]|].
      intros _ r Hr Hr0 Hr1 Hc. exfalso.
      assert (Hwr : wf r = true) by (apply fin_wf; assumption).
      pose proof (Huniq r Hr Hr0 Hr1 Hc) as Hzr.
      apply ltb_sval in Hr1; try assumption.
      assert (Hs : sval (round_sval z) = sval r) by (rewrite Hzr; apply round_sval_exact; assumption).
      assert (Hc' : sval (round_sval z) < sval h) by lia.
      apply (ltb_sval _ h Hw Hwh) in Hc'. congruence.
  - split; [reflexivity|].
    split; [apply leb_sval; [assumption|reflexivity|rewrite sval_opp; cbn [sval F32.zero]; lia]|].
    split; [apply ltb_sval; auto|].
    intros Hc. discriminate.
Qed.

Local Open Scope f32_scope.

(** A clamp in the sense of the specification is the modelled one on every
    value that is a number. *)
Lemma clamps_number (f : float -> float -> float) (x l : float) :
  clamps f -> (F32.zero <=? l) = true -> F32.is_nan x = false ->
  f x l = clamp_bidirf x l.
Proof.
  intros Hf Hl Hx. destruct (Hf x l Hl) as (_ & Hin & Hhi & Hlo).
  destruct (leb_not_nan _ _ Hl) as [_ Hn].
  unfold clamp_bidirf.
  destruct (x >? l) eqn:H1.
  - unfold F32.gtb in *. rewrite (nonneg_ltb_opp l Hl). apply Hhi. reflexivity.
  - destruct (x <? - l) eqn:H2.
    + apply Hlo. reflexivity.
    + apply Hin. apply fabsf_le_of_between; assumption.
Qed.

Lemma fabsf_leb_between (x l : float) :
  (F32.fabsf x <=? l) = true -> (x <=? l) = true /\ (- l <=? x) = true.
Proof.
  intros H.
  destruct x as [sx|sx| |sx mx ex]; try discriminate.
  - destruct sx, l as [[]|[]| |[] ml el]; try discriminate; split; reflexivity.
  - destruct sx, l as [[]|[]| |[] ml el]; try discriminate; split; reflexivity.
  - destruct sx.
    + split.
      * destruct l as [[]|[]| |[] ml el]; try discriminate; reflexivity.
      * unfold F32.leb, SFleb in *.
        change (S754_finite true mx ex) with (SFopp (S754_finite false mx ex)).
        change (- l) with (SFopp l).
        rewrite SFcompare_opp. exact H.
    + split; [exact H|].
      destruct l as [[]|[]| |[] ml el]; try discriminate; reflexivity.
Qed.

Lemma below_opp_not_above (x l : float) :
  (F32.zero <=? l) = true -> (x <? - l) = true -> (x >? l) = false.
Proof.
  destruct l as [[]|[]| |[] ml el]; try discriminate; intros _;
    destruct x as [[]|[]| |[] mx ex]; try discriminate; intros _; reflexivity.
Qed.

Lemma total_clamp_bidirf_clamps : clamps total_clamp_bidirf.
Proof.
  intros x l Hl. destruct (leb_not_nan _ _ Hl) as [_ Hn].
  unfold total_clamp_bidirf, nan_clamp.
  destruct (F32.is_nan x) eqn:Hx.
  - destruct x; try discriminate.
    split; [exact Hl|]. split; [|split]; intros H; try discriminate.
    destruct l as [[]|[]| |[] m e]; discriminate.
  - assert (Hc : F32.is_nan (clamp_bidirf x l) = false).
    { unfold clamp_bidirf. destruct (x >? l).
      - destruct (l <? - l); [destruct l; try discriminate; reflexivity|assumption].
      - destruct (x <? - l); [destruct l; try discriminate; reflexivity|assumption]. }
    split; [apply clamp_bidirf_bound; assumption|].
    unfold clamp_bidirf. split; [|split]; intros H.
    + destruct (fabsf_leb_between x l H) as [H1 H2].
      rewrite (leb_gtb_false _ _ H1).
      pose proof (leb_gtb_false _ _ H2) as H3. unfold F32.gtb in H3.
      unfold F32.ltb. rewrite H3. reflexivity.
    + rewrite H. unfold F32.gtb in *. rewrite (nonneg_ltb_opp l Hl). reflexivity.
    + rewrite (below_opp_not_above x l Hl H), H. reflexivity.
Qed.

(** ** One cycle over the utilities *)

Section Cycle_with.

Variable K : Constants.
Variable U : Utilities.

Ltac stage_with_cbn :=
  cbn -[F32.add F32.sub F32.mul F32.gtb F32.ltb fmodf_pos_of wrap_pm_of
        clamp_bidirf_of limit_velocity traj_time F32.of_Z].

(** What the setpoint part of the cycle leaves alone. *)
Lemma setpoint_stage_with_frame (a : Axis) (c : Controller) (pe : float) :
  let c1 := fst (setpoint_stage_with K U a c pe) in
  exists m, config_ c1 = set_control_mode m (config_ c) /\
            mode_geb m CTRL_MODE_VELOCITY_CONTROL
            = mode_geb (control_mode (config_ c)) CTRL_MODE_VELOCITY_CONTROL.
Proof.
  unfold setpoint_stage_with, trajectory_step, ramp_step_with, position_step_with,
    position_error_with.
  destruct c as [[m pg vg vig vl vlt vre vrr sic cm cs cig cmc] e ps vs vi cu vrt gp ts cc ccp].
  destruct m; stage_with_cbn; repeat (break_if; stage_with_cbn); eexists; split; reflexivity.
Qed.

(** A call that returned [true] went through the current part of the
    cycle, the limiter and the integrator update. *)
Lemma update_with_true_inv (a : Axis) (c : Controller) (pe ve : float) (o : bool)
    (c' : Controller) (a' : Axis) (w : option float) :
  update_with K U a c pe ve o = Returned true c' a' w ->
  exists c2 vig v_err Iq,
    current_stage_with K U a (fst (setpoint_stage_with K U a c pe))
      (vel_demand_with K U a c pe) ve = Some (c2, vig, v_err, Iq) /\
    c' = integrator_step K c2 (fst (limit_current (effective_current_lim a) Iq)) vig v_err.
Proof.
  unfold update_with, vel_demand_with.
  destruct (setpoint_stage_with K U a c pe) as [c1 vd]; simpl.
  destruct (overspeed c1 ve); [discriminate|].
  destruct (current_stage_with K U a c1 vd ve) as [[[[c2 vig] v_err] Iq]|]; [|discriminate].
  destruct (limit_current (effective_current_lim a) Iq) as [limited Iq'] eqn:Hl.
  intros H; inversion H; subst. exists c2, vig, v_err, Iq.
  rewrite Hl. simpl. split; reflexivity.
Qed.

(** The current part of the cycle: the table cells it reads, and the
    configuration it leaves. *)
Lemma current_stage_with_inv (a : Axis) (c : Controller) (vd ve : float)
    (c2 : Controller) (vig v_err Iq : float) :
  current_stage_with K U a c vd ve = Some (c2, vig, v_err, Iq) ->
  pos_setpoint_ c2 = pos_setpoint_ c /\
  exists k m0 m1,
    cogmap_index a c = Some k /\
    arr_get (cogmap (config_ c)) (idx k) = Some m0 /\
    arr_get (cogmap (config_ c)) (idx1 k) = Some m1 /\
    (mode_geb (control_mode (config_ c)) CTRL_MODE_VELOCITY_CONTROL = true ->
     exists m',
       cogmap_adapt_with U (cogmap (config_ c)) k
         ((cogmap_integrator_gain (config_ c) * (vd - ve)) * current_meas_period_of K)
         (cogmap_max_current (config_ c)) = Some m' /\
       config_ c2 = set_cogmap m' (config_ c)) /\
    (mode_geb (control_mode (config_ c)) CTRL_MODE_VELOCITY_CONTROL = false ->
     config_ c2 = config_ c).
Proof.
  unfold current_stage_with, velocity_step_with.
  destruct (scheduled_gains a c) as [vg vig0].
  destruct (cogmap_index a c) as [k|]; [|discriminate].
  destruct (arr_get (cogmap (config_ c)) (idx k)) as [m0|] eqn:H0; [|discriminate].
  destruct (arr_get (cogmap (config_ c)) (idx1 k)) as [m1|] eqn:H1; [|discriminate].
  cbn [config_ with_cogmap_current cogmap_current_ control_mode].
  destruct (mode_geb (control_mode (config_ c)) CTRL_MODE_VELOCITY_CONTROL).
  - destruct (cogmap_adapt_with _ _ _ _ _) as [m'|] eqn:Ha; [|discriminate].
    intros H; inversion H; subst; clear H.
    split; [reflexivity|]. exists k, m0, m1.
    split; [reflexivity|]. split; [exact H0|]. split; [exact H1|]. split.
    + intros _. exists m'. split; [exact Ha|reflexivity].
    + discriminate.
  - intros H; inversion H; subst; clear H.
    split; [reflexivity|]. exists k, m0, m1.
    split; [reflexivity|]. split; [exact H0|]. split; [exact H1|]. split.
    + discriminate.
    + reflexivity.
Qed.

(** The position setpoint after a call is that of the setpoint part. *)
Lemma update_with_pos_setpoint (a : Axis) (c : Controller) (pe ve : float) (o : bool)
    (ok : bool) (c' : Controller) (a' : Axis) (w : option float) :
  update_with K U a c pe ve o = Returned ok c' a' w ->
  pos_setpoint_ c' = pos_setpoint_ (fst (setpoint_stage_with K U a c pe)).
Proof.
  destruct ok.
  - intros H.
    destruct (update_with_true_inv _ _ _ _ _ _ _ _ H) as (c2 & vig & v_err & Iq & Hc & Hc').
    destruct (current_stage_with_inv _ _ _ _ _ _ _ _ Hc) as (Hp & _).
    destruct (integrator_step_frame K c2 (fst (limit_current (effective_current_lim a) Iq))
                vig v_err) as (_ & Hp' & _).
    subst c'. rewrite Hp'. exact Hp.
  - unfold update_with.
    destruct (setpoint_stage_with K U a c pe) as [c1 vd]; cbn [fst].
    destruct (overspeed c1 ve).
    + intros H; inversion H; subst. reflexivity.
    + destruct (current_stage_with K U a c1 vd ve) as [[[[c2 vig] v_err] Iq]|]; [|discriminate].
      destruct (limit_current _ _); discriminate.
Qed.

(** From position mode upwards the setpoint part of the cycle is the
    trajectory step, the position loop and the velocity limiter. *)
Lemma setpoint_stage_with_position (a : Axis) (c : Controller) (pe : float) :
  mode_geb (control_mode (config_ c)) CTRL_MODE_POSITION_CONTROL = true ->
  let c0 := trajectory_step K a c in
  setpoint_stage_with K U a c pe
  = (fst (position_error_with U a c0 pe),
     limit_velocity (vel_limit (config_ c))
       (vel_setpoint_ c0 + pos_gain (config_ c) * snd (position_error_with U a c0 pe))).
Proof.
  intros Hm c0. destruct (trajectory_step_mode K a c Hm) as (Hm0 & Hv0 & _ & Hpg & Hvl).
  fold c0 in Hm0, Hv0, Hpg, Hvl.
  unfold setpoint_stage_with. fold c0.
  assert (Hr : ramp_step_with K U c0 = c0) by (unfold ramp_step_with; rewrite Hv0; reflexivity).
  rewrite Hr. unfold position_step_with. rewrite Hm0.
  unfold position_error_with.
  destruct (setpoints_in_cpr (config_ c0)); cbn [fst snd config_ with_pos_setpoint];
    rewrite Hpg, Hvl; reflexivity.
Qed.

(** The map that a cycle from velocity mode upwards leaves, and the
    configuration it keeps. *)
Lemma update_with_cogmap (a : Axis) (c : Controller) (pe ve : float) (o : bool)
    (c' : Controller) (a' : Axis) (w : option float) :
  update_with K U a c pe ve o = Returned true c' a' w ->
  mode_geb (control_mode (config_ c)) CTRL_MODE_VELOCITY_CONTROL = true ->
  exists k m0 m1 m',
    cogmap_index a c = Some k /\
    arr_get (cogmap (config_ c)) (idx k) = Some m0 /\
    arr_get (cogmap (config_ c)) (idx1 k) = Some m1 /\
    cogmap_adapt_with U (cogmap (config_ c)) k (cogmap_correction_with K U a c pe ve)
      (cogmap_max_current (config_ c)) = Some m' /\
    cogmap (config_ c') = m' /\
    cogmap_max_current (config_ c') = cogmap_max_current (config_ c) /\
    cogmap_integrator_gain (config_ c') = cogmap_integrator_gain (config_ c).
Proof.
  intros H Hm.
  destruct (update_with_true_inv _ _ _ _ _ _ _ _ H) as (c2 & vig & v_err & Iq & Hc & Hc').
  destruct (integrator_step_frame K c2 (fst (limit_current (effective_current_lim a) Iq))
              vig v_err) as (Hcfg & _).
  rewrite <- Hc' in Hcfg. rewrite Hcfg. clear Hc' Hcfg.
  destruct (setpoint_stage_with_frame a c pe) as (m & Hcf & Hmm).
  rewrite Hm in Hmm.
  destruct (current_stage_with_inv _ _ _ _ _ _ _ _ Hc) as (_ & k & m0 & m1 & Hk & H0 & H1 & Hv & _).
  assert (Hix : cogmap_index a (fst (setpoint_stage_with K U a c pe)) = cogmap_index a c)
    by (unfold cogmap_index, cogmap_idxf; rewrite Hcf; reflexivity).
  rewrite Hix in Hk. rewrite Hcf in H0, H1, Hv.
  cbn [control_mode set_control_mode cogmap cogmap_integrator_gain cogmap_max_current] in *.
  destruct (Hv Hmm) as (m' & Ha & Hc2).
  exists k, m0, m1, m'.
  split; [exact Hk|]. split; [exact H0|]. split; [exact H1|].
  split; [exact Ha|]. rewrite Hc2. repeat split.
Qed.

End Cycle_with.

(** ** The position loop *)

(** A half-open interval that starts at zero and has a member ends above
    zero. *)
Lemma half_open_range_positive (x y : float) :
  (F32.zero <=? x) = true -> (x <? y) = true -> (F32.zero <? y) = true.
Proof.
  destruct x as [[]|[]| |[] mx ex]; try discriminate; intros _;
    destruct y as [[]|[]| |[] my ey]; try discriminate; intros _; reflexivity.
Qed.

(** A float that compares equal to a finite number other than zero is
    that number. *)
Lemma eqb_finite_eq (x : float) (s : bool) (m : positive) (e : Z) :
  F32.eqb x (S754_finite s m e) = true -> x = S754_finite s m e.
Proof.
  unfold F32.eqb, SFeqb.
  destruct x as [sx|sx| |sx mx ex]; cbn [SFcompare];
    try (destruct sx; discriminate); try (destruct s; discriminate); try discriminate.
  destruct sx, s; try discriminate;
    destruct (Z.compare_spec ex e) as [He|He|He]; try discriminate;
    destruct (Pos.compare_cont Eq mx m) eqn:Hc; try discriminate; intros _;
    apply Pos.compare_eq in Hc; subst; reflexivity.
Qed.

Section Circular.

Variable K : Constants.

(** C6 (as amended).  From position mode upwards, with [setpoints_in_cpr]
    the position setpoint is first normalised by [fmodf_pos] modulo [cpr],
    the error is that setpoint minus the encoder's [pos_cpr_] whatever the
    [pos_estimate] argument, and the error is wrapped by [wrap_pm] with
    half range [0.5f * cpr], which is exactly half of [cpr].  With
    utilities that do what the specification says of them and a positive
    [cpr], the normalised setpoint lies in [[0, cpr)] and the wrapped error
    in [[-cpr/2, cpr/2)]; with 8192 counts per revolution, a setpoint of
    8100 and an encoder count of 50 the error is -142.  Without
    [setpoints_in_cpr] the error is [pos_setpoint - pos_estimate]. *)
Theorem update_circular_position_error
    (U : Utilities) (a : Axis) (c : Controller) (pe ve : float) (o : bool) :
  normalises (fmodf_pos_of U) -> wraps (wrap_pm_of U) ->
  mode_geb (control_mode (config_ c)) CTRL_MODE_POSITION_CONTROL = true ->
  let c0 := trajectory_step K a c in
  let cpr := F32.of_Z (encoder_cpr a) in
  let h := F32.half * cpr in
  let sp := fmodf_pos_of U (pos_setpoint_ c0) cpr in
  let err := wrap_pm_of U (sp - encoder_pos_cpr_ a) h in
  (setpoints_in_cpr (config_ c) = true ->
   position_error_with U a c0 pe = (with_pos_setpoint sp c0, err) /\
   vel_demand_with K U a c pe
   = limit_velocity (vel_limit (config_ c)) (vel_setpoint_ c0 + pos_gain (config_ c) * err) /\
   (forall ok c' a' w,
      update_with K U a c pe ve o = Returned ok c' a' w -> pos_setpoint_ c' = sp) /\
   ((0 < encoder_cpr a < 2 ^ 31)%Z ->
    (F32.zero <=? sp) = true /\ (sp <? cpr) = true /\
    (- h <=? err) = true /\ (err <? h) = true /\
    (sval cpr = 2 * sval h)%Z) /\
   (encoder_cpr a = 8192%Z -> pos_setpoint_ c0 = F32.of_Z 8100 ->
    encoder_pos_cpr_ a = F32.of_Z 50 ->
    sp = F32.of_Z 8100 /\ err = F32.of_Z (-142)))
  /\
  (setpoints_in_cpr (config_ c) = false ->
   position_error_with U a c0 pe = (c0, pos_setpoint_ c0 - pe) /\
   vel_demand_with K U a c pe
   = limit_velocity (vel_limit (config_ c))
       (vel_setpoint_ c0 + pos_gain (config_ c) * (pos_setpoint_ c0 - pe))).
Proof.
  intros Hn Hw Hm c0 cpr h sp err.
  destruct (trajectory_step_mode K a c Hm) as (_ & _ & Hsic & _). fold c0 in Hsic.
  pose proof (setpoint_stage_with_position K U a c pe Hm) as Hst. fold c0 in Hst.
  split; intros Hs.
  - assert (Hpe : position_error_with U a c0 pe = (with_pos_setpoint sp c0, err))
      by (unfold position_error_with; rewrite Hsic, Hs; reflexivity).
    split; [exact Hpe|]. split; [|split; [|split]].
    + unfold vel_demand_with. rewrite Hst, Hpe. reflexivity.
    + intros ok c' a' w H.
      rewrite (update_with_pos_setpoint K U _ _ _ _ _ _ _ _ _ H), Hst, Hpe. reflexivity.
    + intros Hcpr.
      destruct (cpr_float (encoder_cpr a) Hcpr) as [Hfy Hby]. fold cpr in Hfy, Hby.
      destruct (half_mul_exact cpr Hfy (proj1 Hby)) as [Hfh Hvh]. fold h in Hfh, Hvh.
      assert (P298 : (0 < 2 ^ 298)%Z) by (apply pow2_pos; lia).
      assert (Hy0 : (F32.zero <? cpr) = true) by (apply zero_ltb_sval; [assumption|lia]).
      assert (Hh0 : (F32.zero <? h) = true) by (apply zero_ltb_sval; [assumption|lia]).
      destruct (Hn (pos_setpoint_ c0) cpr Hfy Hy0) as (_ & H0 & H1 & _).
      destruct (Hw (sp - encoder_pos_cpr_ a) h Hfh Hh0) as (_ & H2 & H3 & _).
      fold sp in H0, H1. fold err in H2, H3.
      repeat split; try assumption. lia.
    + intros Hcpr Hps Hpc.
      assert (Hsp : sp = F32.of_Z 8100).
      { unfold sp, cpr. rewrite Hcpr, Hps.
        destruct (Hn (F32.of_Z 8100) (F32.of_Z 8192) eq_refl eq_refl) as (_ & _ & _ & Hc).
        apply eqb_finite_eq.
        apply (Hc eq_refl (F32.of_Z 8100)); vm_compute; reflexivity. }
      split; [exact Hsp|].
      unfold err, h, cpr. rewrite Hsp, Hcpr, Hpc.
      destruct (Hw (F32.of_Z 8100 - F32.of_Z 50) (F32.half * F32.of_Z 8192) eq_refl eq_refl)
        as (_ & _ & _ & Hc).
      apply eqb_finite_eq.
      apply (Hc eq_refl (F32.of_Z (-142))); vm_compute; reflexivity.
  - assert (Hpe : position_error_with U a c0 pe = (c0, pos_setpoint_ c0 - pe))
      by (unfold position_error_with; rewrite Hsic, Hs; reflexivity).
    split; [exact Hpe|].
    unfold vel_demand_with. rewrite Hst, Hpe. reflexivity.
Qed.

End Circular.

(** ** Adaptation of the cogging map *)

(** What the adaptation leaves in the map, when the two bracketing indices
    differ and when they coincide (a map of one entry). *)
Lemma cogmap_adapt_with_entries (U : Utilities) (m : list float) (k : Cog_index)
    (corr mx m0 m1 : float) (m' : list float) :
  arr_get m (idx k) = Some m0 -> arr_get m (idx1 k) = Some m1 ->
  cogmap_adapt_with U m k corr mx = Some m' ->
  length m' = length m /\
  (forall j, j <> idx k -> j <> idx1 k -> arr_get m' j = arr_get m j) /\
  (idx k <> idx1 k ->
   arr_get m' (idx k) = Some (clamp_bidirf_of U (m0 + (F32.one - frac k) * corr) mx) /\
   arr_get m' (idx1 k) = Some (clamp_bidirf_of U (m1 + frac k * corr) mx)) /\
  (idx k = idx1 k ->
   arr_get m' (idx k)
   = Some (clamp_bidirf_of U
             (clamp_bidirf_of U ((m0 + (F32.one - frac k) * corr) + frac k * corr) mx) mx)).
Proof.
  intros H0 H1 Ha.
  pose proof (arr_get_Some_bounds _ _ _ H0) as B0.
  pose proof (arr_get_Some_bounds _ _ _ H1) as B1.
  revert Ha. unfold cogmap_adapt_with.
  rewrite (arr_modify_Some _ _ _ _ H0).
  destruct (Z.eq_dec (idx k) (idx1 k)) as [He|Hne].
  - rewrite <- He.
    erewrite arr_modify_Some by (apply arr_get_set_same; assumption).
    erewrite arr_modify_Some
      by (apply arr_get_set_same; rewrite length_arr_set; assumption).
    erewrite arr_modify_Some
      by (apply arr_get_set_same; rewrite !length_arr_set; assumption).
    intros Ha. injection Ha as <-.
    split; [rewrite !length_arr_set; reflexivity|]. split; [|split].
    + intros j Hj _. rewrite !arr_get_set_other by congruence. reflexivity.
    + intros Hc. contradiction.
    + intros _. apply arr_get_set_same. rewrite !length_arr_set. assumption.
  - erewrite arr_modify_Some
      by (rewrite arr_get_set_other by assumption; exact H1).
    erewrite arr_modify_Some
      by (rewrite arr_get_set_other by congruence;
          apply arr_get_set_same; assumption).
    erewrite arr_modify_Some
      by (rewrite arr_get_set_other by assumption;
          apply arr_get_set_same; rewrite length_arr_set; assumption).
    intros Ha. injection Ha as <-.
    split; [rewrite !length_arr_set; reflexivity|]. split; [|split].
    + intros j Hj0 Hj1. rewrite !arr_get_set_other by congruence. reflexivity.
    + intros _. split.
      * rewrite arr_get_set_other by congruence.
        apply arr_get_set_same. rewrite !length_arr_set. assumption.
      * apply arr_get_set_same. rewrite !length_arr_set. assumption.
    + intros Hc. contradiction.
Qed.

(** The sign of a product is the product of the signs. *)
Lemma binary_round_aux_sign (s : bool) (m e : Z) :
  F32.is_nan (binary_round_aux F32.prec F32.emax s m e loc_Exact) = false ->
  F32.sign_bit (binary_round_aux F32.prec F32.emax s m e loc_Exact) = s.
Proof.
  unfold binary_round_aux.
  destruct (shr_fexp F32.prec F32.emax m e loc_Exact) as [mrs e'].
  destruct (shr_fexp F32.prec F32.emax _ e' loc_Exact) as [mrs' e''].
  destruct (shr_m mrs'); [reflexivity| |discriminate].
  destruct (e'' <=? F32.emax - F32.prec)%Z; reflexivity.
Qed.

Lemma mul_sign_bit (x y : float) :
  F32.is_nan (x * y) = false ->
  F32.sign_bit (x * y) = xorb (F32.sign_bit x) (F32.sign_bit y).
Proof.
  destruct x as [sx|sx| |sx mx ex], y as [sy|sy| |sy my ey];
    cbn [F32.mul SFmul F32.sign_bit F32.is_nan]; try discriminate; try reflexivity.
  apply binary_round_aux_sign.
Qed.

Lemma mul_nan_l (x : float) : S754_nan * x = S754_nan.
Proof. reflexivity. Qed.

Local Open Scope Z_scope.

Lemma sign_bit_sval (z : float) :
  (F32.sign_bit z = false -> 0 <= sval z) /\ (F32.sign_bit z = true -> sval z <= 0).
Proof.
  pose proof sval_inf_pos.
  destruct z as [s|s| |s m e]; cbn [F32.sign_bit sval]; try (split; intros; lia).
  - split; intros ->; cbn [cond_Zopp]; lia.
  - assert (0 <= Zpos m * 2 ^ (e - ebase))
      by (apply Z.mul_nonneg_nonneg; [lia|apply Z.pow_nonneg; lia]).
    split; intros ->; cbn [cond_Zopp]; lia.
Qed.

(** The sign of an increment [w * ((g * e) * p)] with a weight [w] that is
    not negative: negative when an odd number of the gain [g], the
    velocity error [e] and the period [p] are. *)
Lemma increment_sign (w g e p : float) :
  (F32.zero <=? w)%f32 = true ->
  F32.is_nan (w * ((g * e) * p))%f32 = false ->
  if xorb (xorb (F32.sign_bit g) (F32.sign_bit e)) (F32.sign_bit p)
  then sval (w * ((g * e) * p))%f32 <= 0
  else 0 <= sval (w * ((g * e) * p))%f32.
Proof.
  intros Hw Hn.
  set (corr := ((g * e) * p)%f32) in *.
  assert (Hc : F32.is_nan corr = false).
  { destruct corr; try reflexivity. rewrite mul_nan_r in Hn. discriminate. }
  assert (Hge : F32.is_nan (g * e)%f32 = false).
  { unfold corr in Hc. destruct (g * e)%f32; try reflexivity. discriminate. }
  assert (Hs : F32.sign_bit corr
               = xorb (xorb (F32.sign_bit g) (F32.sign_bit e)) (F32.sign_bit p)).
  { unfold corr. rewrite (mul_sign_bit _ _ Hc), (mul_sign_bit _ _ Hge). reflexivity. }
  rewrite <- Hs.
  destruct w as [sw|sw| |sw mw ew]; try discriminate.
  - assert (Hz : sval (S754_zero sw * corr)%f32 = 0).
    { destruct corr as [sc|sc| |sc mc ec]; try discriminate; reflexivity. }
    rewrite Hz. destruct (F32.sign_bit corr); lia.
  - destruct sw; [discriminate|].
    pose proof (mul_sign_bit _ _ Hn) as Hsg. cbn [F32.sign_bit xorb] in Hsg.
    destruct (sign_bit_sval (S754_infinity false * corr)%f32) as [Hp Hm].
    rewrite Hsg in Hp, Hm. destruct (F32.sign_bit corr); auto.
  - destruct sw; [discriminate|].
    pose proof (mul_sign_bit _ _ Hn) as Hsg. cbn [F32.sign_bit xorb] in Hsg.
    destruct (sign_bit_sval (S754_finite false mw ew * corr)%f32) as [Hp Hm].
    rewrite Hsg in Hp, Hm. destruct (F32.sign_bit corr); auto.
Qed.

(** One entry of the map through one adaptation step: an entry that is a
    number within the bound stays so, and moves in the direction of its
    increment. *)
Lemma entry_step_with (f : float -> float -> float) (v0 inc mx : float) :
  clamps f -> wf mx = true -> wf v0 = true -> wf inc = true ->
  Z.abs (sval v0) <= sval mx ->
  let v := f (v0 + inc)%f32 mx in
  (0 <= sval inc -> - sval_inf < sval v0 ->
   wf v = true /\ Z.abs (sval v) <= sval mx /\ sval v0 <= sval v) /\
  (sval inc <= 0 -> sval v0 < sval_inf ->
   wf v = true /\ Z.abs (sval v) <= sval mx /\ sval v <= sval v0).
Proof.
  intros Hf Hmx Hv0 Hinc Hb v.
  assert (Hl : (F32.zero <=? mx)%f32 = true)
    by (apply leb_sval; [reflexivity|assumption|cbn [sval F32.zero]; lia]).
  assert (Hnan : forall x, wf x = true -> F32.is_nan x = false)
    by (intros x Hx; unfold wf in Hx; destruct x; try reflexivity; discriminate).
  split; intros Hs Hi.
  - destruct (add_up v0 inc Hv0 Hinc Hs Hi) as [Hw Hle].
    unfold v. rewrite (clamps_number f _ mx Hf Hl (Hnan _ Hw)).
    destruct (clamp_bidirf_mono v0 (v0 + inc)%f32 mx Hv0 Hw Hmx Hb) as (Hwv & Hbv & Hu & _).
    auto.
  - destruct (add_down v0 inc Hv0 Hinc Hs Hi) as [Hw Hle].
    unfold v. rewrite (clamps_number f _ mx Hf Hl (Hnan _ Hw)).
    destruct (clamp_bidirf_mono v0 (v0 + inc)%f32 mx Hv0 Hw Hmx Hb) as (Hwv & Hbv & _ & Hd).
    auto.
Qed.

Lemma entry_step_twice_with (f : float -> float -> float) (v0 inc0 inc1 mx : float) :
  clamps f -> wf mx = true -> wf v0 = true -> wf inc0 = true -> wf inc1 = true ->
  Z.abs (sval v0) <= sval mx ->
  let v := f (f ((v0 + inc0) + inc1)%f32 mx) mx in
  (0 <= sval inc0 -> 0 <= sval inc1 -> - sval_inf < sval v0 ->
   wf v = true /\ Z.abs (sval v) <= sval mx /\ sval v0 <= sval v) /\
  (sval inc0 <= 0 -> sval inc1 <= 0 -> sval v0 < sval_inf ->
   wf v = true /\ Z.abs (sval v) <= sval mx /\ sval v <= sval v0).
Proof.
  intros Hf Hmx Hv0 Hi0 Hi1 Hb v.
  assert (Hl : (F32.zero <=? mx)%f32 = true)
    by (apply leb_sval; [reflexivity|assumption|cbn [sval F32.zero]; lia]).
  assert (Hnan : forall x, wf x = true -> F32.is_nan x = false)
    by (intros x Hx; unfold wf in Hx; destruct x; try reflexivity; discriminate).
  split; intros H0 H1 Hi.
  - destruct (add_up v0 inc0 Hv0 Hi0 H0 Hi) as [Hw1 Hle1].
    destruct (add_up _ inc1 Hw1 Hi1 H1 ltac:(lia)) as [Hw2 Hle2].
    unfold v. rewrite (clamps_number f _ mx Hf Hl (Hnan _ Hw2)).
    destruct (clamp_bidirf_mono v0 _ mx Hv0 Hw2 Hmx Hb) as (Hwc & Hbc & Hu & _).
    rewrite (clamps_number f _ mx Hf Hl (Hnan _ Hwc)).
    destruct (clamp_bidirf_mono v0 _ mx Hv0 Hwc Hmx Hb) as (Hwv & Hbv & Hu' & _).
    repeat split; try assumption. apply Hu'. apply Hu. lia.
  - destruct (add_down v0 inc0 Hv0 Hi0 H0 Hi) as [Hw1 Hle1].
    destruct (add_down _ inc1 Hw1 Hi1 H1 ltac:(lia)) as [Hw2 Hle2].
    unfold v. rewrite (clamps_number f _ mx Hf Hl (Hnan _ Hw2)).
    destruct (clamp_bidirf_mono v0 _ mx Hv0 Hw2 Hmx Hb) as (Hwc & Hbc & _ & Hd).
    rewrite (clamps_number f _ mx Hf Hl (Hnan _ Hwc)).
    destruct (clamp_bidirf_mono v0 _ mx Hv0 Hwc Hmx Hb) as (Hwv & Hbv & _ & Hd').
    repeat split; try assumption. apply Hd'. apply Hd. lia.
Qed.

Local Open Scope f32_scope.

Section Adaptation.

Variable K : Constants.
Variable U : Utilities.

(** The two increments of a cycle of a run, by sign. *)
Lemma cycle_increment_sign (a : Axis) (c : Controller) (pe ve w : float) :
  (F32.zero <=? w) = true ->
  wf (w * cogmap_correction_with K U a c pe ve) = true ->
  if pushes_down K c (F32.sign_bit (velocity_error_with K U a c pe ve))
  then (sval (w * cogmap_correction_with K U a c pe ve)%f32 <= 0)%Z
  else (0 <= sval (w * cogmap_correction_with K U a c pe ve)%f32)%Z.
Proof.
  intros Hw Hv. unfold pushes_down, cogmap_correction_with.
  apply increment_sign; [exact Hw|].
  unfold wf in Hv. apply andb_true_iff in Hv. destruct Hv as [_ Hn].
  apply negb_true_iff in Hn. exact Hn.
Qed.

(** An entry of the map through a run of cycles. *)
Lemma adapts_entry (s : bool) (i0 i1 : Z) (c : Controller)
    (ins : list (Axis * float * float)) (c' : Controller) :
  adapts K U s i0 i1 c ins c' ->
  clamps (clamp_bidirf_of U) ->
  wf (cogmap_max_current (config_ c)) = true ->
  forall (j : Z) (v0 : float),
    j = i0 \/ j = i1 ->
    arr_get (cogmap (config_ c)) j = Some v0 -> wf v0 = true ->
    (Z.abs (sval v0) <= sval (cogmap_max_current (config_ c)))%Z ->
    (if pushes_down K c s then sval v0 < sval_inf else - sval_inf < sval v0)%Z ->
    exists v,
      arr_get (cogmap (config_ c')) j = Some v /\ wf v = true /\
      (Z.abs (sval v) <= sval (cogmap_max_current (config_ c)))%Z /\
      (if pushes_down K c s then sval v <= sval v0 else sval v0 <= sval v)%Z.
Proof.
  induction 1 as [c|c a pe ve o c1 a1 w k ins c2 Hu Hm Hk Hi0 Hi1 Hs Hw0 Hw1 Hn0 Hn1 Hrun IH];
    intros Hf Hmx j v0 Hj Hg Hv0 Hb Hinf.
  - exists v0. repeat split; try assumption. destruct (pushes_down K c s); lia.
  - destruct (update_with_cogmap K U _ _ _ _ _ _ _ _ Hu Hm)
      as (k' & m0 & m1 & m' & Hk' & H0 & H1 & Ha & Hc1 & Hmx1 & Hg1).
    rewrite Hk in Hk'. injection Hk' as <-.
    assert (Hpd : pushes_down K c1 s = pushes_down K c s)
      by (unfold pushes_down; rewrite Hg1; reflexivity).
    pose proof (cycle_increment_sign a c pe ve _ Hw0 Hn0) as Hs0.
    pose proof (cycle_increment_sign a c pe ve _ Hw1 Hn1) as Hs1.
    rewrite Hs in Hs0, Hs1.
    destruct (cogmap_adapt_with_entries U _ _ _ _ _ _ _ H0 H1 Ha) as (_ & _ & Hd & Hsame).
    assert (Hstep : exists v1,
               arr_get m' j = Some v1 /\ wf v1 = true /\
               (Z.abs (sval v1) <= sval (cogmap_max_current (config_ c)))%Z /\
               (if pushes_down K c s then sval v1 <= sval v0 else sval v0 <= sval v1)%Z).
    { assert (Hj' : j = idx k \/ j = idx1 k) by (subst i0 i1; exact Hj).
      destruct (Z.eq_dec (idx k) (idx1 k)) as [He|Hne].
      - assert (j = idx k) by (destruct Hj'; congruence). subst j.
        rewrite H0 in Hg. injection Hg as <-.
        eexists. split; [apply Hsame; assumption|].
        destruct (entry_step_twice_with _ m0 _ _ _ Hf Hmx Hv0 Hn0 Hn1 Hb) as [Hup Hdn].
        destruct (pushes_down K c s); [apply Hdn|apply Hup]; assumption.
      - destruct (Hd Hne) as [Hn0' Hn1']. destruct Hj' as [->| ->].
        + rewrite H0 in Hg. injection Hg as <-.
          eexists. split; [exact Hn0'|].
          destruct (entry_step_with _ m0 _ _ Hf Hmx Hv0 Hn0 Hb) as [Hup Hdn].
          destruct (pushes_down K c s); [apply Hdn|apply Hup]; assumption.
        + rewrite H1 in Hg. injection Hg as <-.
          eexists. split; [exact Hn1'|].
          destruct (entry_step_with _ m1 _ _ Hf Hmx Hv0 Hn1 Hb) as [Hup Hdn].
          destruct (pushes_down K c s); [apply Hdn|apply Hup]; assumption. }
    destruct Hstep as (v1 & Hg1' & Hwv1 & Hb1 & Hd1).
    rewrite <- Hc1 in Hg1'. rewrite <- Hmx1 in Hmx, Hb1.
    assert (Hinf1 : (if pushes_down K c1 s then sval v1 < sval_inf
                     else - sval_inf < sval v1)%Z).
    { rewrite Hpd. destruct (pushes_down K c s); lia. }
    destruct (IH Hf Hmx j v1 Hj Hg1' Hwv1 Hb1 Hinf1) as (v2 & Hg2 & Hw2 & Hb2 & Hd2).
    rewrite Hmx1 in Hb2. rewrite Hpd in Hd2.
    exists v2. repeat split; try assumption. destruct (pushes_down K c s); lia.
Qed.

(** C8 (as amended).  With a [clamp_bidirf] that does what the
    specification says of it, a cycle from velocity mode upwards that is
    not aborted, with a [cogmap_max_current] that is not negative, leaves
    every map entry other than the two bracketing ones unchanged; the two
    bracketing entries are their previous values plus the correction
    [cogmap_integrator_gain * v_err * current_meas_period] weighted by
    [1 - frac] and by [frac], clamped (a map of one entry takes both
    increments), and both have magnitude at most [cogmap_max_current].
    Over a run of such cycles that fall on the same two indices, in which
    the velocity error keeps its sign, the two weights are not negative and
    the two increments are numbers, an entry that starts as a finite number
    within the bound stays a number within the bound and ends no lower
    than it started when the correction is not negative, and no higher
    when it is. *)
Theorem cogmap_adaptation :
  clamps (clamp_bidirf_of U) ->
  (forall (a : Axis) (c : Controller) (pe ve : float) (o : bool)
          (c' : Controller) (a' : Axis) (w : option float),
     update_with K U a c pe ve o = Returned true c' a' w ->
     mode_geb (control_mode (config_ c)) CTRL_MODE_VELOCITY_CONTROL = true ->
     (F32.zero <=? cogmap_max_current (config_ c)) = true ->
     exists k m0 m1,
       cogmap_index a c = Some k /\
       arr_get (cogmap (config_ c)) (idx k) = Some m0 /\
       arr_get (cogmap (config_ c)) (idx1 k) = Some m1 /\
       let mx := cogmap_max_current (config_ c) in
       let inc0 := (F32.one - frac k) * cogmap_correction_with K U a c pe ve in
       let inc1 := frac k * cogmap_correction_with K U a c pe ve in
       let new := cogmap (config_ c') in
       length new = length (cogmap (config_ c)) /\
       (forall j, j <> idx k -> j <> idx1 k ->
                  arr_get new j = arr_get (cogmap (config_ c)) j) /\
       (idx k <> idx1 k ->
        arr_get new (idx k) = Some (clamp_bidirf_of U (m0 + inc0) mx) /\
        arr_get new (idx1 k) = Some (clamp_bidirf_of U (m1 + inc1) mx)) /\
       (idx k = idx1 k ->
        arr_get new (idx k)
        = Some (clamp_bidirf_of U (clamp_bidirf_of U ((m0 + inc0) + inc1) mx) mx)) /\
       (forall j, j = idx k \/ j = idx1 k ->
                  exists v, arr_get new j = Some v /\ (F32.fabsf v <=? mx) = true))
  /\
  (forall (s : bool) (i0 i1 : Z) (c : Controller)
          (ins : list (Axis * float * float)) (c' : Controller),
     adapts K U s i0 i1 c ins c' ->
     let mx := cogmap_max_current (config_ c) in
     F32.valid mx = true ->
     forall (j : Z) (v0 : float),
       j = i0 \/ j = i1 ->
       arr_get (cogmap (config_ c)) j = Some v0 ->
       fin v0 = true -> (F32.fabsf v0 <=? mx) = true ->
       exists v,
         arr_get (cogmap (config_ c')) j = Some v /\
         F32.valid v = true /\ (F32.fabsf v <=? mx) = true /\
         (if pushes_down K c s then v <=? v0 else v0 <=? v) = true).
Proof.
  intros Hf. split.
  - intros a c pe ve o c' a' w Hu Hm Hmx.
    destruct (update_with_cogmap K U _ _ _ _ _ _ _ _ Hu Hm)
      as (k & m0 & m1 & m' & Hk & H0 & H1 & Ha & Hc' & _).
    destruct (cogmap_adapt_with_entries U _ _ _ _ _ _ _ H0 H1 Ha) as (Hlen & Hoth & Hd & Hs).
    exists k, m0, m1. rewrite Hc'.
    split; [exact Hk|]. split; [exact H0|]. split; [exact H1|]. cbv zeta.
    split; [exact Hlen|]. split; [exact Hoth|]. split; [exact Hd|]. split; [exact Hs|].
    intros j Hj.
    destruct (Z.eq_dec (idx k) (idx1 k)) as [He|Hne].
    + assert (j = idx k) by (destruct Hj; congruence). subst j.
      eexists. split; [apply Hs; assumption|]. apply (Hf _ _ Hmx).
    + destruct (Hd Hne) as [Hn0 Hn1].
      destruct Hj as [->| ->]; eexists; (split; [eassumption|]); apply (Hf _ _ Hmx).
  - intros s i0 i1 c ins c' Hrun mx Hv j v0 Hj Hg Hfv Hb.
    assert (Hwm : wf mx = true).
    { unfold wf. rewrite Hv. destruct (leb_not_nan _ _ Hb) as [_ Hn]. rewrite Hn. reflexivity. }
    assert (Hw0 : wf v0 = true) by (apply fin_wf; assumption).
    assert (Hb0 : (Z.abs (sval v0) <= sval mx)%Z).
    { apply leb_sval in Hb; [|rewrite wf_fabsf; assumption|assumption].
      rewrite sval_fabsf in Hb. exact Hb. }
    pose proof (fin_above_neg_inf v0 Hfv) as Hinf.
    destruct (adapts_entry s i0 i1 c ins c' Hrun Hf Hwm j v0 Hj Hg Hw0 Hb0)
      as (v & Hg' & Hw & Hb' & Hd).
    { destruct (pushes_down K c s); lia. }
    exists v. split; [exact Hg'|].
    split; [unfold wf in Hw; apply andb_true_iff in Hw; tauto|].
    split.
    + apply leb_sval; [rewrite wf_fabsf; assumption|assumption|].
      rewrite sval_fabsf. exact Hb'.
    + destruct (pushes_down K c s); apply leb_sval; assumption.
Qed.

End Adaptation.

(** ** The properties on the sample controllers *)

(** No float lies above a positive number and below a negative one. *)
Lemma between_positive_negative (v : float) (mx : positive) (ex : Z)
    (my : positive) (ey : Z) :
  (S754_finite false mx ex <=? v) = true -> (v <=? S754_finite true my ey) = true -> False.
Proof.
  destruct v as [[]|[]| |[] m e]; cbn; intros H1 H2; discriminate.
Qed.

(** The claim of C6 as stated fails where [cpr] is not positive: the
    interval from 0 to [cpr] is empty, so that no position setpoint lies
    in it, whatever [fmodf_pos] returns; the code has no guard on [cpr],
    and with -8192 counts per revolution the cycle returns [true]. *)
Lemma circular_position_range_empty :
  let a := sample_axis 0 (-8192) 0 (F32.of_Z 50) in
  let c := sample_controller CTRL_MODE_POSITION_CONTROL true (F32.of_Z 8100) F32.zero in
  mode_geb (control_mode (config_ c)) CTRL_MODE_POSITION_CONTROL = true /\
  setpoints_in_cpr (config_ c) = true /\
  (exists c' w, update sample_constants a c F32.zero F32.zero true = Returned true c' a w) /\
  (exists c' w,
     update_with sample_constants exact_utilities a c F32.zero F32.zero true
     = Returned true c' a w) /\
  (forall (U : Utilities) (ok : bool) (c' : Controller) (a' : Axis) (w : option float),
     update_with sample_constants U a c F32.zero F32.zero true = Returned ok c' a' w ->
     ~ ((F32.zero <=? pos_setpoint_ c') = true /\
        (pos_setpoint_ c' <? F32.of_Z (encoder_cpr a)) = true)).
Proof.
  intros a c. split; [reflexivity|]. split; [reflexivity|].
  split; [do 2 eexists; vm_compute; reflexivity|].
  split; [do 2 eexists; vm_compute; reflexivity|].
  intros U ok c' a' w _ [H0 H1].
  pose proof (half_open_range_positive _ _ H0 H1) as H. vm_compute in H. discriminate.
Qed.

(** The example of the specification on utilities that meet it: 8192
    counts per revolution, a setpoint of 8100 and an encoder count of 50
    give an error of -142, within the half-open range, whatever the
    position estimate passed to [update]; the modelled utilities give the
    same. *)
Lemma update_circular_position_error_witness :
  let a := sample_axis 0 8192 0 (F32.of_Z 50) in
  let c := sample_controller CTRL_MODE_POSITION_CONTROL true (F32.of_Z 8100) F32.zero in
  let c0 := trajectory_step sample_constants a c in
  let err := snd (position_error_with exact_utilities a c0 (F32.of_Z 12345)) in
  err = F32.of_Z (-142) /\
  (- (F32.half * F32.of_Z 8192) <=? err) = true /\
  (err <? F32.half * F32.of_Z 8192) = true /\
  (F32.zero <=? pos_setpoint_ (fst (position_error_with exact_utilities a c0 (F32.of_Z 12345))))
  = true /\
  snd (position_error a c0 (F32.of_Z 12345)) = F32.of_Z (-142).
Proof.
  intros a c c0 err.
  destruct (update_circular_position_error sample_constants exact_utilities a c
              (F32.of_Z 12345) F32.zero true
              exact_fmodf_pos_normalises exact_wrap_pm_wraps eq_refl) as [H _].
  destruct (H eq_refl) as (Hpe & _ & _ & Hr & Hex).
  destruct Hr as (H0 & _ & H1 & H2 & _); [vm_compute; split; reflexivity|].
  destruct Hex as [_ He]; [reflexivity ..|].
  unfold err, c0. rewrite Hpe. cbn [fst snd pos_setpoint_ with_pos_setpoint].
  split; [exact He|]. split; [exact H1|]. split; [exact H2|]. split; [exact H0|].
  vm_compute. reflexivity.
Defined.

(** Two cycles in velocity mode half way between the first two map
    entries, with the velocity estimate above the demand: the second map
    entry, zero to begin with, stays within the bound and ends below zero. *)
Lemma cogmap_adaptation_witness :
  let a := sample_axis 0 8192 1024 F32.zero in
  let c := adapting_controller (F32.of_Z 1) F32.zero in
  let ve := F32.of_Z 2 in
  let ins := [(a, F32.zero, ve); (a, F32.zero, ve)] in
  cogmap_index a c = Some (mkCog 0 1 F32.half) /\
  pushes_down sample_constants c true = true /\
  (forall c' a' w,
     update_with sample_constants exact_utilities a c F32.zero ve true
     = Returned true c' a' w ->
     length (cogmap (config_ c')) = 4%nat /\
     exists v, arr_get (cogmap (config_ c')) 1 = Some v /\
               (F32.fabsf v <=? cogmap_max_current (config_ c)) = true) /\
  exists c2,
    adapts sample_constants exact_utilities true 0 1 c ins c2 /\
    (exists v,
       arr_get (cogmap (config_ c2)) 1 = Some v /\
       F32.valid v = true /\
       (F32.fabsf v <=? cogmap_max_current (config_ c)) = true /\
       (v <=? F32.zero) = true) /\
    arr_get (cogmap (config_ c2)) 1 = Some (S754_finite true 8589935 (-35)).
Proof.
  intros a c ve ins.
  split; [vm_compute; reflexivity|]. split; [reflexivity|]. split.
  - intros c' a' w Hu.
    destruct (proj1 (cogmap_adaptation sample_constants exact_utilities
                       total_clamp_bidirf_clamps) a c F32.zero ve true
                c' a' w Hu eq_refl eq_refl)
      as (k & m0 & m1 & Hk & _ & _ & Hlen & _ & _ & _ & Hb).
    split; [exact Hlen|].
    apply Hb. right. vm_compute in Hk. injection Hk as <-. reflexivity.
  - assert (exists c2, adapts sample_constants exact_utilities true 0 1 c ins c2
                       /\ arr_get (cogmap (config_ c2)) 1
                          = Some (S754_finite true 8589935 (-35))) as (c2 & Hrun & Hv).
    { eexists. split.
      - unfold ins.
        eapply adapts_cons with (o := true);
          [vm_compute; reflexivity | reflexivity | vm_compute; reflexivity
           | reflexivity | reflexivity
           | vm_compute; reflexivity | vm_compute; reflexivity | vm_compute; reflexivity
           | vm_compute; reflexivity | vm_compute; reflexivity |].
        eapply adapts_cons with (o := true);
          [vm_compute; reflexivity | reflexivity | vm_compute; reflexivity
           | reflexivity | reflexivity
           | vm_compute; reflexivity | vm_compute; reflexivity | vm_compute; reflexivity
           | vm_compute; reflexivity | vm_compute; reflexivity |].
        apply adapts_nil.
      - vm_compute. reflexivity. }
    exists c2. split; [exact Hrun|]. split; [|exact Hv].
    apply (proj2 (cogmap_adaptation sample_constants exact_utilities
                    total_clamp_bidirf_clamps) true 0 1 c ins c2 Hrun);
      [reflexivity | right; reflexivity | reflexivity | reflexivity | reflexivity].
Defined.

(** ** Runs with the clamp left open *)

Lemma clamps_nan_clamp (f : float -> float -> float) (x l : float) :
  clamps f -> (F32.zero <=? l) = true -> f x l = nan_clamp (f S754_nan l) x l.
Proof.
  intros Hf Hl. unfold nan_clamp.
  destruct (F32.is_nan x) eqn:Hx.
  - destruct x; try discriminate. reflexivity.
  - apply clamps_number; assumption.
Qed.

Lemma cogmap_adapt_with_transfer (U U' : Utilities) (m : list float) (k : Cog_index)
    (corr mx : float) :
  (forall x, clamp_bidirf_of U x mx = clamp_bidirf_of U' x mx) ->
  cogmap_adapt_with U m k corr mx = cogmap_adapt_with U' m k corr mx.
Proof.
  intros H. unfold cogmap_adapt_with, arr_modify.
  destruct (arr_get m (idx k)) as [v0|]; [|reflexivity].
  destruct (arr_get _ (idx1 k)) as [v1|]; [|reflexivity].
  destruct (arr_get _ (idx k)) as [v2|]; [|reflexivity].
  rewrite (H v2).
  destruct (arr_get _ (idx1 k)) as [v3|]; [|reflexivity].
  rewrite (H v3). reflexivity.
Qed.

Section Transfer.

Variable K : Constants.

Lemma trajectory_step_config (a : Axis) (c : Controller) :
  exists m, config_ (trajectory_step K a c) = set_control_mode m (config_ c).
Proof.
  unfold trajectory_step.
  destruct c as [[m pg vg vig vl vlt vre vrr sic cm cs cig cmc] e ps vs vi cu vrt gp ts cc ccp].
  destruct m; cbn -[traj_time F32.gtb F32.mul];
    try destruct (traj_time K a _ >? trap_Tf_ a); cbn; eexists; reflexivity.
Qed.

(** A cycle does not depend on what the clamp does on other limits than
    [cogmap_max_current], as long as the velocity ramp is disabled. *)
Lemma update_with_transfer (cl cl' fm wr : float -> float -> float)
    (a : Axis) (c : Controller) (pe ve : float) (o : bool) :
  vel_ramp_enable (config_ c) = false ->
  (forall x, cl x (cogmap_max_current (config_ c)) = cl' x (cogmap_max_current (config_ c))) ->
  update_with K (mkUtilities cl fm wr) a c pe ve o
  = update_with K (mkUtilities cl' fm wr) a c pe ve o.
Proof.
  intros Hr Hc.
  assert (Hs : setpoint_stage_with K (mkUtilities cl fm wr) a c pe
               = setpoint_stage_with K (mkUtilities cl' fm wr) a c pe).
  { unfold setpoint_stage_with, ramp_step_with.
    destruct (trajectory_step_config a c) as [m Hm]. rewrite Hm.
    cbn [vel_ramp_enable set_control_mode]. rewrite Hr, andb_false_r. reflexivity. }
  destruct (setpoint_stage_with_frame K (mkUtilities cl' fm wr) a c pe) as (m & Hcf & _).
  unfold update_with. rewrite Hs.
  destruct (setpoint_stage_with K (mkUtilities cl' fm wr) a c pe) as [c1 vd].
  cbn [fst] in Hcf.
  destruct (overspeed c1 ve); [reflexivity|].
  assert (Hcs : current_stage_with K (mkUtilities cl fm wr) a c1 vd ve
                = current_stage_with K (mkUtilities cl' fm wr) a c1 vd ve).
  { unfold current_stage_with, velocity_step_with.
    destruct (scheduled_gains a c1) as [vg vig0].
    destruct (cogmap_index a c1) as [k|]; [|reflexivity].
    destruct (arr_get (cogmap (config_ c1)) (idx k)) as [m0|]; [|reflexivity].
    destruct (arr_get (cogmap (config_ c1)) (idx1 k)) as [m1|]; [|reflexivity].
    cbn [config_ with_cogmap_current cogmap_current_ control_mode].
    destruct (mode_geb (control_mode (config_ c1)) CTRL_MODE_VELOCITY_CONTROL);
      [|reflexivity].
    rewrite (cogmap_adapt_with_transfer (mkUtilities cl fm wr) (mkUtilities cl' fm wr));
      [reflexivity|].
    rewrite Hcf. exact Hc. }
  rewrite Hcs. reflexivity.
Qed.

(** What a cycle keeps of the configuration. *)
Lemma update_with_config (U : Utilities) (a : Axis) (c : Controller) (pe ve : float)
    (o : bool) (ok : bool) (c' : Controller) (a' : Axis) (w : option float) :
  update_with K U a c pe ve o = Returned ok c' a' w ->
  vel_ramp_enable (config_ c') = vel_ramp_enable (config_ c) /\
  cogmap_max_current (config_ c') = cogmap_max_current (config_ c).
Proof.
  destruct (setpoint_stage_with_frame K U a c pe) as (m & Hcf & _).
  destruct ok.
  - intros H.
    destruct (update_with_true_inv K U _ _ _ _ _ _ _ _ H) as (c2 & vig & v_err & Iq & Hc & Hc').
    destruct (integrator_step_frame K c2 (fst (limit_current (effective_current_lim a) Iq))
                vig v_err) as (Hcfg & _).
    rewrite <- Hc' in Hcfg. rewrite Hcfg.
    destruct (current_stage_with_inv K U _ _ _ _ _ _ _ _ Hc)
      as (_ & k & m0 & m1 & _ & _ & _ & Hv & Hnv).
    destruct (mode_geb (control_mode (config_ (fst (setpoint_stage_with K U a c pe))))
                CTRL_MODE_VELOCITY_CONTROL).
    + destruct (Hv eq_refl) as (m' & _ & ->). rewrite Hcf. split; reflexivity.
    + rewrite (Hnv eq_refl), Hcf. split; reflexivity.
  - unfold update_with.
    destruct (setpoint_stage_with K U a c pe) as [c1 vd]; cbn [fst] in *.
    destruct (overspeed c1 ve).
    + intros H; inversion H; subst. cbn [config_ with_error]. rewrite Hcf. split; reflexivity.
    + destruct (current_stage_with K U a c1 vd ve) as [[[[c2 vig] v_err] Iq]|]; [|discriminate].
      destruct (limit_current _ _); discriminate.
Qed.

(** Two cycles with a clamp in the sense of the specification are two
    cycles with the modelled clamp and the value that the clamp gives a
    NaN. *)
Lemma second_entry_after_transfer (cl : float -> float -> float)
    (a1 a2 : Axis) (c : Controller) (ve1 ve2 mx : float) :
  clamps cl ->
  vel_ramp_enable (config_ c) = false ->
  cogmap_max_current (config_ c) = mx ->
  (F32.zero <=? mx) = true ->
  second_entry_after K (mkUtilities cl fmodf_pos wrap_pm) a1 a2 c ve1 ve2
  = second_entry_after K
      (mkUtilities (nan_clamp (cl S754_nan mx)) fmodf_pos wrap_pm) a1 a2 c ve1 ve2.
Proof.
  intros Hcl Hr Hm Hmx. unfold second_entry_after.
  set (v := cl S754_nan mx).
  assert (Ht : forall c0,
             vel_ramp_enable (config_ c0) = false ->
             cogmap_max_current (config_ c0) = mx ->
             forall a ve,
               update_with K (mkUtilities cl fmodf_pos wrap_pm) a c0 F32.zero ve true
               = update_with K (mkUtilities (nan_clamp v) fmodf_pos wrap_pm) a c0
                   F32.zero ve true).
  { intros c0 Hr0 Hm0 a ve. apply update_with_transfer; [exact Hr0|].
    intros x. rewrite Hm0. apply clamps_nan_clamp; assumption. }
  rewrite (Ht c Hr Hm).
  destruct (update_with K (mkUtilities (nan_clamp v) fmodf_pos wrap_pm) a1 c F32.zero ve1 true)
    as [|[] c1 a1' w1] eqn:E1; try reflexivity.
  destruct (update_with_config _ _ _ _ _ _ _ _ _ _ E1) as [Hr1 Hm1].
  rewrite (Ht c1); [reflexivity|congruence|congruence].
Qed.

End Transfer.

Ltac run_two_cycles H :=
  match type of H with
  | context [second_entry_after ?K ?U ?a1 ?a2 ?c ?ve1 ?ve2] =>
      let r := eval vm_compute in (second_entry_after K U a1 a2 c ve1 ve2) in
      let E := fresh "E" in
      assert (E : second_entry_after K U a1 a2 c ve1 ve2 = r) by (vm_compute; reflexivity);
      rewrite E in H; clear E
  end.

(** The claim of C8 as stated fails for its last part, whatever
    [clamp_bidirf] is, as long as it is a clamp.

    First, a NaN increment.  The cogging integrator gain is the largest
    finite float and the bound is 1.  In one run the second map entry
    starts at 0.5 and the velocity error is positive in both cycles
    ([2^-120], then 2); in the other the entry starts at -0.5 and the error
    is negative in both cycles.  The first cycle, half way between the two
    entries, moves the entry up (down) to 0.516 (-0.516).  In the second
    cycle, at the first entry, the correction overflows to an infinity and
    the increment of the second entry is [0 * inf], a NaN, so that the
    entry becomes [clamp_bidirf (NaN, 1)], the same value in both runs: it
    cannot lie both above 0.516 and below -0.516.

    Second, a negative weight.  With an encoder count of -1 the table
    index is 0 and [frac] is negative; with a count of 2 the index is 0
    and [frac] is positive.  Two cycles with a velocity error of 2 move
    the second entry, zero to begin with, down and then up. *)
Lemma cogmap_adaptation_not_monotone :
  let K := sample_constants in
  let mid := sample_axis 0 8192 1024 F32.zero in
  let at0 := sample_axis 0 8192 0 F32.zero in
  let tiny := S754_finite false 8388608 (-143) in
  (cogmap_index mid (adapting_controller FLT_MAX F32.half) = Some (mkCog 0 1 F32.half) /\
   cogmap_index at0 (adapting_controller FLT_MAX F32.half) = Some (mkCog 0 1 F32.zero) /\
   fin (cogmap_integrator_gain (config_ (adapting_controller FLT_MAX F32.half))) = true /\
   (F32.zero <=? cogmap_max_current (config_ (adapting_controller FLT_MAX F32.half))) = true) /\
  (~ exists clamp : float -> float -> float,
       clamps clamp /\
       let U := mkUtilities clamp fmodf_pos wrap_pm in
       match second_entry_after K U mid at0 (adapting_controller FLT_MAX F32.half)
               (- tiny) (F32.of_Z (-2)),
             second_entry_after K U mid at0 (adapting_controller FLT_MAX (- F32.half))
               tiny (F32.of_Z 2) with
       | Some (u1, u2), Some (d1, d2) =>
           monotone3 F32.half u1 u2 = true /\ monotone3 (- F32.half) d1 d2 = true
       | _, _ => False
       end) /\
  (exists k1 k2,
     cogmap_index (sample_axis 0 8192 (-1) F32.zero)
       (adapting_controller (F32.of_Z 1) F32.zero) = Some k1 /\
     cogmap_index (sample_axis 0 8192 2 F32.zero)
       (adapting_controller (F32.of_Z 1) F32.zero) = Some k2 /\
     idx k1 = idx k2 /\ idx1 k1 = idx1 k2 /\
     (frac k1 <? F32.zero) = true /\ (F32.zero <? frac k2) = true) /\
  (~ exists clamp : float -> float -> float,
       clamps clamp /\
       let U := mkUtilities clamp fmodf_pos wrap_pm in
       match second_entry_after K U (sample_axis 0 8192 (-1) F32.zero)
               (sample_axis 0 8192 2 F32.zero)
               (adapting_controller (F32.of_Z 1) F32.zero) (F32.of_Z (-2)) (F32.of_Z (-2)) with
       | Some (v1, v2) => monotone3 F32.zero v1 v2 = true
       | None => False
       end).
Proof.
  intros K mid at0 tiny.
  split; [vm_compute; repeat split; reflexivity|]. split; [|split].
  - intros (clamp & Hcl & H). cbv zeta in H.
    rewrite (second_entry_after_transfer K clamp mid at0
               (adapting_controller FLT_MAX F32.half) (- tiny) (F32.of_Z (-2)) (F32.of_Z 1)
               Hcl eq_refl eq_refl eq_refl) in H.
    rewrite (second_entry_after_transfer K clamp mid at0
               (adapting_controller FLT_MAX (- F32.half)) tiny (F32.of_Z 2) (F32.of_Z 1)
               Hcl eq_refl eq_refl eq_refl) in H.
    set (v := clamp S754_nan (F32.of_Z 1)) in H. clearbody v.
    run_two_cycles H. run_two_cycles H. cbv beta iota in H.
    destruct H as [HA HB]. unfold monotone3 in HA, HB.
    apply orb_true_iff in HA. destruct HA as [HA|HA];
      apply andb_true_iff in HA; destruct HA as [HA1 HA2];
      [|revert HA1; vm_compute; discriminate].
    apply orb_true_iff in HB. destruct HB as [HB|HB];
      apply andb_true_iff in HB; destruct HB as [HB1 HB2];
      [revert HB1; vm_compute; discriminate|].
    exact (between_positive_negative _ _ _ _ _ HA2 HB2).
  - do 2 eexists. vm_compute. repeat split; reflexivity.
  - intros (clamp & Hcl & H). cbv zeta in H.
    rewrite (second_entry_after_transfer K clamp (sample_axis 0 8192 (-1) F32.zero)
               (sample_axis 0 8192 2 F32.zero) (adapting_controller (F32.of_Z 1) F32.zero)
               (F32.of_Z (-2)) (F32.of_Z (-2)) (F32.of_Z 1)
               Hcl eq_refl eq_refl eq_refl) in H.
    set (v := clamp S754_nan (F32.of_Z 1)) in H. clearbody v.
    run_two_cycles H. cbv beta iota in H.
    revert H. vm_compute. discriminate.
Qed.
